(** * memory-allocators: a linear (arena) allocator, temporary arena scopes
    and a growable array over either the heap or an arena.

    Shallow embedding of [src/memory/LinearAllocator.cpp],
    [include/memory/LinearAllocator.hpp], [include/memory/DynArray.hpp] and
    [include/memory/DynArray.tpp].

    Conventions of the embedding:
    - [size_t] and [uintptr_t] are 64-bit unsigned integers: values are [Z]
      and every arithmetic result of the source is reduced with [wrap];
    - a pointer is its address, [0] is [nullptr];
    - [std::expected<A, E>] is [expected A E];
    - methods take the object they act on ([this]) and return it updated;
    - a [const T&] or [T&&] parameter of the array is an [arg]: an object
      of the caller given by its value, or the address of an object of the
      element store, read at the point where the source reads it. *)

From Stdlib Require Import ZArith Lia Bool List.
From stdpp Require Import base option list gmap fin_maps.

Local Open Scope Z_scope.

(** ** Machine integers *)

Definition SIZE_BITS : Z := 64.
Definition SIZE_MOD : Z := 2 ^ SIZE_BITS.

(** Result of an unsigned 64-bit operation. *)
Definition wrap (x : Z) : Z := x mod SIZE_MOD.

(** A value that fits a [size_t]. *)
Definition is_size_t (x : Z) : Prop := 0 <= x < SIZE_MOD.

(** ** [std::expected] *)

Inductive expected (A E : Type) : Type :=
| Value (a : A)
| Unexpected (e : E).
Arguments Value {A E} a.
Arguments Unexpected {A E} e.

Definition has_value {A E} (r : expected A E) : bool :=
  match r with Value _ => true | Unexpected _ => false end.

(** ** Raw memory: one byte per address *)

Definition Mem : Type := Z -> Z.

(** [std::memset(p, v, n)] *)
Definition memset (m : Mem) (p v n : Z) : Mem :=
  fun a => if (p <=? a) && (a <? p + n) then v else m a.

(** [std::memmove(dst, src, n)]: the bytes are read before any is written. *)
Definition memmove (m : Mem) (dst src n : Z) : Mem :=
  fun a => if (dst <=? a) && (a <? dst + n) then m (src + (a - dst)) else m a.

(** ** LinearAllocator *)

Module LinearAllocator.

Inductive AllocatorError : Type :=
| OutOfMemory
| InvalidAlignment
| NullPointer
| OutOfBounds.

Record t : Type := mk {
  buf : Z;          (* unsigned char* buf *)
  buf_len : Z;      (* size_t buf_len *)
  prev_offset : Z;  (* size_t prev_offset *)
  curr_offset : Z   (* size_t curr_offset *)
}.

(** [DEFAULT_ALIGNMENT = 2 * sizeof(void* )] *)
Definition DEFAULT_ALIGNMENT : Z := 2 * 8.

Definition create (backing_buffer backing_buffer_length : Z) : t :=
  {| buf := backing_buffer;
     buf_len := backing_buffer_length;
     prev_offset := 0;
     curr_offset := 0 |}.

(** [(x & (x-1)) == 0 && x != 0] *)
Definition is_power_of_two (x : Z) : bool :=
  (Z.land x (wrap (x - 1)) =? 0) && negb (x =? 0).

Definition align_forward (ptr align : Z) : expected Z AllocatorError :=
  if negb (is_power_of_two align) then Unexpected InvalidAlignment
  else
    let p := ptr in
    let a := align in
    let modulo := Z.land p (wrap (a - 1)) in
    if negb (modulo =? 0)
    then Value (wrap (p + wrap (a - modulo)))
    else Value p.

(** The result of a method: the returned value, [this] and the memory. *)
Definition ret (A : Type) : Type := (expected A AllocatorError * t * Mem)%type.

Definition alloc_align (a : t) (m : Mem) (size align : Z) : ret Z :=
  let curr_ptr := wrap (buf a + curr_offset a) in
  match align_forward curr_ptr align with
  | Unexpected e => (Unexpected e, a, m)
  | Value aligned =>
      let offset := wrap (aligned - buf a) in
      if wrap (offset + size) <=? buf_len a then
        let ptr := wrap (buf a + offset) in
        let a' := {| buf := buf a; buf_len := buf_len a;
                     prev_offset := offset;
                     curr_offset := wrap (offset + size) |} in
        (Value ptr, a', memset m ptr 0 size)
      else (Unexpected OutOfMemory, a, m)
  end.

Definition alloc (a : t) (m : Mem) (size : Z) : ret Z :=
  alloc_align a m size DEFAULT_ALIGNMENT.

(** [alloc<T>(count)], given [sizeof(T)]. *)
Definition alloc_typed (a : t) (m : Mem) (sizeof_T count : Z) : ret Z :=
  alloc a m (wrap (sizeof_T * count)).

Definition resize_align (a : t) (m : Mem) (old_memory old_size new_size align : Z)
  : ret Z :=
  let old_mem := old_memory in
  if negb (is_power_of_two align) then (Unexpected InvalidAlignment, a, m)
  else if (old_mem =? 0) || (old_size =? 0) then alloc_align a m new_size align
  else if (buf a <=? old_mem) && (old_mem <? wrap (buf a + buf_len a)) then
    if wrap (buf a + prev_offset a) =? old_mem then
      (* the offset is written before the bounds check *)
      let a' := {| buf := buf a; buf_len := buf_len a;
                   prev_offset := prev_offset a;
                   curr_offset := wrap (prev_offset a + new_size) |} in
      if buf_len a' <? curr_offset a' then (Unexpected OutOfMemory, a', m)
      else if old_size <? new_size then
        (Value old_memory, a',
         memset m (wrap (buf a' + wrap (prev_offset a' + old_size))) 0
                  (wrap (new_size - old_size)))
      else (Value old_memory, a', m)
    else
      match alloc_align a m new_size align with
      | (Unexpected e, a', m') => (Unexpected e, a', m')
      | (Value new_memory, a', m') =>
          let copy_size := if old_size <? new_size then old_size else new_size in
          (Value new_memory, a', memmove m' new_memory old_memory copy_size)
      end
  else (Unexpected OutOfBounds, a, m).

Definition resize (a : t) (m : Mem) (old_memory old_size new_size : Z) : ret Z :=
  resize_align a m old_memory old_size new_size DEFAULT_ALIGNMENT.

Definition free (a : t) (m : Mem) (ptr : Z) : ret unit :=
  (Value tt, a, m).

Definition free_all (a : t) : t :=
  {| buf := buf a; buf_len := buf_len a; prev_offset := 0; curr_offset := 0 |}.

(** The invariant of the data model:
    [0 <= prev_offset <= curr_offset <= buffer_length]. *)
Definition inv (a : t) : Prop :=
  0 <= prev_offset a /\ prev_offset a <= curr_offset a
  /\ curr_offset a <= buf_len a.

(** The buffer lies in the address space: its base and the address past its
    end are addresses. *)
Definition placed (a : t) : Prop :=
  is_size_t (buf a) /\ 0 <= buf_len a /\ buf a + buf_len a < SIZE_MOD.

(** The bytes from address [p] to the next multiple of [align]. *)
Definition padding (p align : Z) : Z := (- p) mod align.

End LinearAllocator.

(** ** TempArenaMemory

    The scope holds a pointer to its arena; arenas live in a store indexed by
    their address, so that [end()] writes through the pointer.  [None] is a
    dereference of a pointer that designates no arena. *)

Module TempArenaMemory.

Record t : Type := mk {
  arena : Z;        (* LinearAllocator* arena *)
  prev_offset : Z;  (* saved previous offset *)
  curr_offset : Z   (* saved current offset *)
}.

Definition begin (h : gmap Z LinearAllocator.t) (a : Z) : option t :=
  match h !! a with
  | None => None
  | Some ar =>
      Some {| arena := a;
              prev_offset := LinearAllocator.prev_offset ar;
              curr_offset := LinearAllocator.curr_offset ar |}
  end.

Definition end_ (temp : t) (h : gmap Z LinearAllocator.t)
  : option (gmap Z LinearAllocator.t) :=
  match h !! arena temp with
  | None => None
  | Some ar =>
      Some (<[arena temp :=
                {| LinearAllocator.buf := LinearAllocator.buf ar;
                   LinearAllocator.buf_len := LinearAllocator.buf_len ar;
                   LinearAllocator.prev_offset := prev_offset temp;
                   LinearAllocator.curr_offset := curr_offset temp |}]> h)
  end.

End TempArenaMemory.

(** ** Calls on an arena, for statements about sequences of operations *)

Module ArenaCalls.
Import LinearAllocator.

Inductive call : Type :=
| AllocAlign (size align : Z)
| Alloc (size : Z)
| ResizeAlign (old_memory old_size new_size align : Z)
| Resize (old_memory old_size new_size : Z)
| Free (ptr : Z)
| FreeAll.

(** Whether the call returned a value, the arena and the memory after it. *)
Definition run_call (c : call) (a : t) (m : Mem) : bool * t * Mem :=
  match c with
  | AllocAlign size align =>
      let '(r, a', m') := alloc_align a m size align in (has_value r, a', m')
  | Alloc size =>
      let '(r, a', m') := alloc a m size in (has_value r, a', m')
  | ResizeAlign old_memory old_size new_size align =>
      let '(r, a', m') := resize_align a m old_memory old_size new_size align in
      (has_value r, a', m')
  | Resize old_memory old_size new_size =>
      let '(r, a', m') := resize a m old_memory old_size new_size in
      (has_value r, a', m')
  | Free ptr =>
      let '(r, a', m') := free a m ptr in (has_value r, a', m')
  | FreeAll => (true, free_all a, m)
  end.

Fixpoint run_calls (cs : list call) (a : t) (m : Mem) : t * Mem :=
  match cs with
  | [] => (a, m)
  | c :: cs' => let '(_, a', m') := run_call c a m in run_calls cs' a' m'
  end.

(** The arguments of a call are [size_t] values and pointers. *)
Definition call_in_range (c : call) : Prop :=
  match c with
  | AllocAlign size align => is_size_t size /\ is_size_t align
  | Alloc size => is_size_t size
  | ResizeAlign p old_size new_size align =>
      is_size_t p /\ is_size_t old_size /\ is_size_t new_size /\ is_size_t align
  | Resize p old_size new_size =>
      is_size_t p /\ is_size_t old_size /\ is_size_t new_size
  | Free ptr => is_size_t ptr
  | FreeAll => True
  end.

(** Sizes far from the end of the address space: sums of three of them do
    not exceed [2^64]. *)
Definition modest (x : Z) : Prop := 0 <= x <= 2 ^ 62.

Definition call_modest (c : call) : Prop :=
  match c with
  | AllocAlign size align => modest size /\ modest align
  | Alloc size => modest size
  | ResizeAlign p old_size new_size align =>
      is_size_t p /\ modest old_size /\ modest new_size /\ modest align
  | Resize p old_size new_size =>
      is_size_t p /\ modest old_size /\ modest new_size
  | Free ptr => is_size_t ptr
  | FreeAll => True
  end.

(** States an arena can be in: created over a buffer, then any calls. *)
Inductive reachable : t -> Prop :=
| reach_create (backing_buffer len : Z) :
    is_size_t backing_buffer -> is_size_t len ->
    reachable (create backing_buffer len)
| reach_call (c : call) (a : t) (m : Mem) :
    reachable a -> call_in_range c ->
    reachable (snd (fst (run_call c a m))).

End ArenaCalls.

(** ** Single-precision arithmetic of the growth policy

    [capacity * GROWTH_FACTOR] multiplies a [size_t] by the [float] constant
    [1.5f]: the capacity is converted to binary32 (24 significant bits, round
    to nearest, ties to even), the product is rounded the same way and the
    conversion back to [size_t] truncates.  The values involved are
    non-negative and far from the exponent limits, so a value is represented
    exactly by an integer count of halves. *)

Module Float32.

Definition PRECISION : Z := 24.

(** Nearest binary32 value of a non-negative integer [n] (in any fixed
    power-of-two unit), ties to even. *)
Definition round (n : Z) : Z :=
  if n <=? 0 then 0 else
  let bits := Z.log2 n + 1 in
  if bits <=? PRECISION then n
  else
    let s := bits - PRECISION in
    let q := Z.shiftr n s in
    let r := Z.land n (Z.ones s) in
    let half := Z.shiftl 1 (s - 1) in
    let q' := if (half <? r) || ((r =? half) && Z.odd q) then q + 1 else q in
    Z.shiftl q' s.

(** [GROWTH_FACTOR = 1.5f], as a count of halves. *)
Definition GROWTH_FACTOR_HALVES : Z := 3.

(** [static_cast<size_t>(capacity * GROWTH_FACTOR)]; [None] when the float
    value does not fit a [size_t] (the conversion is then undefined). *)
Definition times_growth_factor (capacity : Z) : option Z :=
  let cf := round capacity in                         (* size_t -> float *)
  let halves := round (GROWTH_FACTOR_HALVES * cf) in  (* the float product, in halves *)
  let v := halves / 2 in                              (* float -> size_t truncates *)
  if v <? SIZE_MOD then Some v else None.

End Float32.

(** ** Loops over [size_t] indices *)

(** [n] iterations of [body], the index counting up from [i]. *)
Fixpoint for_up {St : Type} (n : nat) (i : Z) (body : Z -> St -> St) (s : St) : St :=
  match n with
  | O => s
  | S n' => for_up n' (i + 1) body (body i s)
  end.

(** [for (size_t i = lo; i < hi; ++i) body(i)] *)
Definition for_range {St : Type} (lo hi : Z) (body : Z -> St -> St) (s : St) : St :=
  for_up (Z.to_nat (hi - lo)) lo body s.

(** [n] iterations of [body], the index counting down from [i]. *)
Fixpoint for_down {St : Type} (n : nat) (i : Z) (body : Z -> St -> St) (s : St) : St :=
  match n with
  | O => s
  | S n' => for_down n' (i - 1) body (body i s)
  end.

(** [for (size_t i = hi; i > lo; --i) body(i)] *)
Definition for_range_down {St : Type} (hi lo : Z) (body : Z -> St -> St) (s : St) : St :=
  for_down (Z.to_nat (hi - lo)) hi body s.

(** ** DynArray *)

Module DynArray.

Inductive DynArrayError : Type :=
| OutOfMemory
| OutOfRange
| InvalidCapacity
| InvalidSize
| EmptyArray.

(** What the template needs of its element type: [sizeof(T)], [alignof(T)]. *)
Class ElemType (T : Type) : Type := {
  sizeT : Z;
  alignT : Z
}.

(** The general-purpose heap: what [malloc(n)] answers when the blocks of
    the given table (address to size) are live.  [0] is a failed request. *)
Class StdAllocator : Type := {
  malloc : gmap Z Z -> Z -> Z
}.

(** Everything an array reaches through pointers: the live [malloc] blocks,
    the arenas (by address), the raw bytes the arenas zero and move, and the
    constructed elements (by address).  Bytes and elements are two views of
    the memory: which addresses hold an element of type [T], and its value,
    is recorded in [objs] only.  The statements that depend on it say where
    storage handed out by an allocator lies with respect to live elements. *)
Record World (T : Type) : Type := mkWorld {
  heap : gmap Z Z;
  arenas : gmap Z LinearAllocator.t;
  bytes : Mem;
  objs : gmap Z T
}.
Arguments mkWorld {T} _ _ _ _.
Arguments heap {T} _.
Arguments arenas {T} _.
Arguments bytes {T} _.
Arguments objs {T} _.

Record t : Type := mk {
  data : Z;               (* T* data *)
  size : Z;               (* size_t size *)
  capacity : Z;           (* size_t capacity *)
  allocator : Z;          (* LinearAllocator* allocator *)
  owns_allocator : bool
}.

(** How a call ends: it returns [r] leaving the world and [this] as given,
    an [assert] fails, or the behaviour is undefined (a pointer that
    designates no arena is dereferenced, a float does not fit [size_t]). *)
Inductive outcome (T A : Type) : Type :=
| Ret (r : A) (w : World T) (a : t)
| AssertFail
| Undefined.
Arguments Ret {T A} r w a.
Arguments AssertFail {T A}.
Arguments Undefined {T A}.

Definition DEFAULT_CAPACITY : Z := 8.

(** A [const T&] or [T&&] parameter.  A member function reads it when it
    constructs an element from it, which can be after it has moved or
    destroyed elements of the array.  [Temp v] is an object of the caller
    that no member function touches (a temporary, a local variable, an
    element of an initializer list), holding [v]; [Ref p] is the object at
    address [p] of the element store, such as an element of an array. *)
Inductive arg (T : Type) : Type :=
| Temp (v : T)
| Ref (p : Z).
Arguments Temp {T} v.
Arguments Ref {T} p.

(** What the fallible member functions return. *)
Definition result (T : Type) : Type := outcome T (expected unit DynArrayError).

Section Operations.
Context {T : Type} {ET : ElemType T} {SA : StdAllocator}.

(** Address of [data[i]] (typed pointer arithmetic, not reduced). *)
Definition slot (a : t) (i : Z) : Z := data a + i * sizeT.

(** [malloc(n)] *)
Definition std_malloc (w : World T) (n : Z) : Z * World T :=
  let p := malloc (heap w) n in
  if p =? 0 then (0, w)
  else (p, {| heap := <[p := n]> (heap w); arenas := arenas w;
              bytes := bytes w; objs := objs w |}).

(** [free(p)] *)
Definition std_free (w : World T) (p : Z) : World T :=
  if p =? 0 then w
  else {| heap := delete p (heap w); arenas := arenas w;
          bytes := bytes w; objs := objs w |}.

(** [new (p) T(v)] *)
Definition construct (w : World T) (p : Z) (v : T) : World T :=
  {| heap := heap w; arenas := arenas w; bytes := bytes w;
     objs := <[p := v]> (objs w) |}.

(** [p->~T()] *)
Definition destroy (w : World T) (p : Z) : World T :=
  {| heap := heap w; arenas := arenas w; bytes := bytes w;
     objs := delete p (objs w) |}.

(** [new (dst) T( *src)]: the element at [dst] gets the value of the one at
    [src]; reading a slot that holds no element yields no element. *)
Definition copy_construct (w : World T) (dst src : Z) : World T :=
  match objs w !! src with
  | Some v => construct w dst v
  | None => destroy w dst
  end.

(** [new (dst) T(std::move( *src))]: the value is carried over. *)
Definition move_construct (w : World T) (dst src : Z) : World T :=
  copy_construct w dst src.

(** What a parameter designates in [w]: no element, for the address of a
    slot that holds none. *)
Definition read (w : World T) (value : arg T) : option T :=
  match value with
  | Temp v => Some v
  | Ref p => objs w !! p
  end.

(** [new (dst) T(value)] for a parameter [value]: it is read now. *)
Definition construct_from (w : World T) (dst : Z) (value : arg T) : World T :=
  match value with
  | Temp v => construct w dst v
  | Ref p => copy_construct w dst p
  end.

(** [new (dst) T(std::move(value))] for a parameter [value]. *)
Definition move_construct_from (w : World T) (dst : Z) (value : arg T) : World T :=
  match value with
  | Temp v => construct w dst v
  | Ref p => move_construct w dst p
  end.

(** [new (dst) T(std::move( *src)); src->~T();]: the element goes from
    [src] to [dst]. *)
Definition move_step (dst src : Z) (w : World T) : World T :=
  destroy (move_construct w dst src) src.

(** The allocation step shared by [reserve] and [shrink_to_fit]:
    [allocator->alloc_align(nbytes, alignof(T))] when an arena is attached,
    [malloc(nbytes)] otherwise. *)
Inductive allocation : Type :=
| Allocated (new_data : Z) (w : World T)
| AllocFailed (w : World T)
| AllocUndefined.

Definition allocate (w : World T) (a : t) (nbytes : Z) : allocation :=
  if negb (allocator a =? 0) then
    match arenas w !! allocator a with
    | None => AllocUndefined
    | Some ar =>
        let '(r, ar', m') := LinearAllocator.alloc_align ar (bytes w) nbytes alignT in
        let w' := {| heap := heap w; arenas := <[allocator a := ar']> (arenas w);
                     bytes := m'; objs := objs w |} in
        match r with
        | Unexpected _ => AllocFailed w'
        | Value p => Allocated p w'
        end
    end
  else
    let '(p, w') := std_malloc w nbytes in
    if p =? 0 then AllocFailed w' else Allocated p w'.

(** The loop of [reserve] and [shrink_to_fit]: element [i] is moved to the
    new storage and the original is destroyed, for [i] from [0] to [size-1]. *)
Definition move_elements (a : t) (new_data : Z) (w : World T) : World T :=
  for_range 0 (size a)
    (fun i w => move_step (new_data + i * sizeT) (slot a i) w) w.

Definition reserve (w : World T) (a : t) (new_capacity : Z) : result T :=
  if new_capacity <=? capacity a then Ret (Value tt) w a
  else
    match allocate w a (wrap (sizeT * new_capacity)) with
    | AllocUndefined => Undefined
    | AllocFailed w' => Ret (Unexpected OutOfMemory) w' a
    | Allocated new_data w1 =>
        let w2 := move_elements a new_data w1 in
        let w3 := if negb (data a =? 0) && (allocator a =? 0)
                  then std_free w2 (data a) else w2 in
        Ret (Value tt) w3
            {| data := new_data; size := size a; capacity := new_capacity;
               allocator := allocator a; owns_allocator := owns_allocator a |}
    end.

(** Sequencing on success: [if (!result) return result;]. *)
Definition and_then (r : result T) (k : World T -> t -> result T) : result T :=
  match r with
  | Ret (Value _) w a => k w a
  | Ret (Unexpected e) w a => Ret (Unexpected e) w a
  | AssertFail => AssertFail
  | Undefined => Undefined
  end.

(** The capacity [grow] asks [reserve] for; [None] when the float product
    does not convert to [size_t]. *)
Definition grow_capacity (a : t) (min_capacity : Z) : option Z :=
  match (if capacity a =? 0 then Some DEFAULT_CAPACITY
         else option_map (fun v => wrap (v + 1))
                         (Float32.times_growth_factor (capacity a))) with
  | None => None
  | Some new_capacity =>
      Some (if new_capacity <? min_capacity then min_capacity else new_capacity)
  end.

Definition grow (w : World T) (a : t) (min_capacity : Z) : result T :=
  match grow_capacity a min_capacity with
  | None => Undefined
  | Some new_capacity => reserve w a new_capacity
  end.

Definition set_size (a : t) (n : Z) : t :=
  {| data := data a; size := n; capacity := capacity a;
     allocator := allocator a; owns_allocator := owns_allocator a |}.

(** [resize(count, const T& value)]: [value] is read by each construction,
    after [reserve]. *)
Definition resize (w : World T) (a : t) (count : Z) (value : arg T) : result T :=
  and_then (if capacity a <? count then reserve w a count else Ret (Value tt) w a)
    (fun w a =>
       let w' :=
         if size a <? count then
           for_range (size a) count (fun i w => construct_from w (slot a i) value) w
         else if count <? size a then
           for_range count (size a) (fun i w => destroy w (slot a i)) w
         else w in
       Ret (Value tt) w' (set_size a count)).

Definition shrink_to_fit (w : World T) (a : t) : result T :=
  if size a =? capacity a then Ret (Value tt) w a
  else if size a =? 0 then
    let w' := if allocator a =? 0 then std_free w (data a) else w in
    Ret (Value tt) w'
        {| data := 0; size := size a; capacity := 0;
           allocator := allocator a; owns_allocator := owns_allocator a |}
  else
    match allocate w a (wrap (sizeT * size a)) with
    | AllocUndefined => Undefined
    | AllocFailed w' => Ret (Unexpected OutOfMemory) w' a
    | Allocated new_data w1 =>
        let w2 := move_elements a new_data w1 in
        let w3 := if allocator a =? 0 then std_free w2 (data a) else w2 in
        Ret (Value tt) w3
            {| data := new_data; size := size a; capacity := size a;
               allocator := allocator a; owns_allocator := owns_allocator a |}
    end.

(** The destruction loop of [clear] and of the destructor. *)
Definition destroy_all (w : World T) (a : t) : World T :=
  for_range 0 (size a) (fun i w => destroy w (slot a i)) w.

Definition clear (w : World T) (a : t) : World T * t :=
  (destroy_all w a, set_size a 0).

Definition empty (a : t) : bool := size a =? 0.
Definition get_size (a : t) : Z := size a.
Definition get_capacity (a : t) : Z := capacity a.
Definition get_data (a : t) : Z := data a.

(** [push_back(const T& value)]: [value] is read after [grow]. *)
Definition push_back (w : World T) (a : t) (value : arg T) : result T :=
  and_then (if capacity a <=? size a then grow w a (wrap (size a + 1))
            else Ret (Value tt) w a)
    (fun w a => Ret (Value tt) (construct_from w (slot a (size a)) value)
                    (set_size a (wrap (size a + 1)))).

(** [push_back(T&& value)]: the same steps, the element being constructed
    from [std::move(value)]. *)
Definition push_back_move (w : World T) (a : t) (value : arg T) : result T :=
  and_then (if capacity a <=? size a then grow w a (wrap (size a + 1))
            else Ret (Value tt) w a)
    (fun w a => Ret (Value tt) (move_construct_from w (slot a (size a)) value)
                    (set_size a (wrap (size a + 1)))).

Definition pop_back (w : World T) (a : t) : result T :=
  if empty a then Ret (Unexpected EmptyArray) w a
  else
    let a' := set_size a (wrap (size a - 1)) in
    Ret (Value tt) (destroy w (slot a' (size a'))) a'.

(** [insert(position, const T& value)]: [value] is read after [grow] and
    after the elements from [position] on were shifted. *)
Definition insert (w : World T) (a : t) (position : Z) (value : arg T) : result T :=
  if size a <? position then Ret (Unexpected OutOfRange) w a
  else
    and_then (if capacity a <=? size a then grow w a (wrap (size a + 1))
              else Ret (Value tt) w a)
      (fun w a =>
         let w1 :=
           if position <? size a then
             for_range_down (size a) position
               (fun i w => move_step (slot a i) (slot a (wrap (i - 1))) w) w
           else w in
         Ret (Value tt) (construct_from w1 (slot a position) value)
             (set_size a (wrap (size a + 1)))).

Definition erase_range (w : World T) (a : t) (first last : Z) : result T :=
  if (size a <=? first) || (size a <? last) || (last <? first)
  then Ret (Unexpected OutOfRange) w a
  else if first =? last then Ret (Value tt) w a
  else
    let count := wrap (last - first) in
    let w1 := for_range first last (fun i w => destroy w (slot a i)) w in
    let w2 :=
      for_range first (wrap (size a - count))
        (fun i w => move_step (slot a i) (slot a (wrap (i + count))) w) w1 in
    Ret (Value tt) w2 (set_size a (wrap (size a - count))).

Definition erase (w : World T) (a : t) (position : Z) : result T :=
  erase_range w a position (wrap (position + 1)).

(** Checked access: a reference to the element, as its address. *)
Definition at_ (a : t) (index : Z) : expected Z DynArrayError :=
  if size a <=? index then Unexpected OutOfRange else Value (slot a index).

Definition front (a : t) : expected Z DynArrayError :=
  if empty a then Unexpected EmptyArray else Value (slot a 0).

Definition back (a : t) : expected Z DynArrayError :=
  if empty a then Unexpected EmptyArray else Value (slot a (wrap (size a - 1))).

(** [operator[]]: [None] is the [std::out_of_range] exception. *)
Definition subscript (a : t) (index : Z) : option Z :=
  if size a <=? index then None else Some (slot a index).

(** Iterators: [begin()] and [end()]. *)
Definition begin (a : t) : Z := data a.
Definition end_ (a : t) : Z := data a + size a * sizeT.

(** *** Constructors, copies and moves *)

Definition init (alloc : Z) (take_ownership : bool) : t :=
  {| data := 0; size := 0; capacity := 0;
     allocator := alloc; owns_allocator := take_ownership |}.

(** [assert(result.has_value())] *)
Definition assert_has_value (r : result T) : outcome T unit :=
  match r with
  | Ret (Value _) w a => Ret tt w a
  | Ret (Unexpected _) _ _ => AssertFail
  | AssertFail => AssertFail
  | Undefined => Undefined
  end.

(** [DynArray()] *)
Definition ctor_default (w : World T) : outcome T unit :=
  assert_has_value (reserve w (init 0 false) DEFAULT_CAPACITY).

(** [DynArray(size_t initial_capacity)] *)
Definition ctor_capacity (w : World T) (initial_capacity : Z) : outcome T unit :=
  assert_has_value (reserve w (init 0 false) initial_capacity).

(** [DynArray(LinearAllocator* alloc, bool take_ownership)] *)
Definition ctor_allocator (w : World T) (alloc : Z) (take_ownership : bool)
  : outcome T unit :=
  assert_has_value (reserve w (init alloc take_ownership) DEFAULT_CAPACITY).

(** [DynArray(size_t initial_capacity, LinearAllocator* alloc, bool take_ownership)] *)
Definition ctor_capacity_allocator (w : World T) (initial_capacity alloc : Z)
    (take_ownership : bool) : outcome T unit :=
  assert_has_value (reserve w (init alloc take_ownership) initial_capacity).

(** [DynArray(std::initializer_list<T>)]: the results of the [push_back]
    calls are dropped. *)
Fixpoint push_all (w : World T) (a : t) (elements : list T) : outcome T unit :=
  match elements with
  | [] => Ret tt w a
  | e :: rest =>
      match push_back w a (Temp e) with
      | Ret _ w' a' => push_all w' a' rest
      | AssertFail => AssertFail
      | Undefined => Undefined
      end
  end.

Definition ctor_initializer_list (w : World T) (elements : list T) : outcome T unit :=
  match assert_has_value (reserve w (init 0 false) (Z.of_nat (length elements))) with
  | Ret _ w' a' => push_all w' a' elements
  | AssertFail => AssertFail
  | Undefined => Undefined
  end.

(** The copy loop of the copy constructor and of the copy assignment. *)
Definition copy_elements (a other : t) (w : World T) : World T :=
  for_range 0 (size other)
    (fun i w => copy_construct w (slot a i) (slot other i)) w.

(** [DynArray(const DynArray& other)] *)
Definition ctor_copy (w : World T) (other : t) : outcome T unit :=
  match reserve w (init 0 false) (capacity other) with
  | Ret (Value _) w' a' =>
      Ret tt (copy_elements a' other w') (set_size a' (size other))
  | Ret (Unexpected _) _ _ => AssertFail
  | AssertFail => AssertFail
  | Undefined => Undefined
  end.

(** [operator=(const DynArray& other)]; [same_object] is [this == &other]. *)
Definition copy_assign (same_object : bool) (w : World T) (a other : t)
  : outcome T unit :=
  if same_object then Ret tt w a
  else
    let '(w0, a0) := clear w a in
    match reserve w0 a0 (capacity other) with
    | Ret (Value _) w' a' =>
        Ret tt (copy_elements a' other w') (set_size a' (size other))
    | Ret (Unexpected _) _ _ => AssertFail
    | AssertFail => AssertFail
    | Undefined => Undefined
    end.

(** The state a moved-from array is left in. *)
Definition moved_from : t := init 0 false.

(** [DynArray(DynArray&& other)]: the new array, and [other] afterwards. *)
Definition ctor_move (other : t) : t * t := (other, moved_from).

(** Release of the storage in the destructor and in the move assignment:
    [free(data)] without an arena, [delete allocator] for an owned one. *)
Definition release (w : World T) (a : t) : World T :=
  if allocator a =? 0 then std_free w (data a)
  else if owns_allocator a then
    {| heap := heap w; arenas := delete (allocator a) (arenas w);
       bytes := bytes w; objs := objs w |}
  else w.

(** [~DynArray()] *)
Definition dtor (w : World T) (a : t) : World T * t :=
  (release (destroy_all w a) a, moved_from).

(** [operator=(DynArray&& other)]: the world, [this] and [other] afterwards. *)
Definition move_assign (same_object : bool) (w : World T) (a other : t)
  : World T * t * t :=
  if same_object then (w, a, other)
  else
    let '(w0, a0) := clear w a in
    (release w0 a0, other, moved_from).

(** *** The member functions that report through [std::expected] *)

Inductive op : Type :=
| Reserve (new_capacity : Z)
| Resize (count : Z) (value : arg T)
| ShrinkToFit
| PushBack (value : arg T)
| PushBackMove (value : arg T)
| PopBack
| Insert (position : Z) (value : arg T)
| Erase (position : Z)
| EraseRange (first last : Z)
| At (index : Z)
| Front
| Back
| Clear.

(** The reference an accessor returns is dropped: only success or the error
    is kept. *)
Definition drop_ref (w : World T) (a : t) (r : expected Z DynArrayError) : result T :=
  match r with
  | Value _ => Ret (Value tt) w a
  | Unexpected e => Ret (Unexpected e) w a
  end.

Definition run_op (o : op) (w : World T) (a : t) : result T :=
  match o with
  | Reserve n => reserve w a n
  | Resize n v => resize w a n v
  | ShrinkToFit => shrink_to_fit w a
  | PushBack v => push_back w a v
  | PushBackMove v => push_back_move w a v
  | PopBack => pop_back w a
  | Insert p v => insert w a p v
  | Erase p => erase w a p
  | EraseRange f l => erase_range w a f l
  | At i => drop_ref w a (at_ a i)
  | Front => drop_ref w a (front a)
  | Back => drop_ref w a (back a)
  | Clear => let '(w', a') := clear w a in Ret (Value tt) w' a'
  end.

(** A sequence of member calls on one array, each of which returns. *)
Fixpoint run_ops (os : list op) (w : World T) (a : t) : option (World T * t) :=
  match os with
  | [] => Some (w, a)
  | o :: rest =>
      match run_op o w a with
      | Ret _ w' a' => run_ops rest w' a'
      | _ => None
      end
  end.

(** The arguments of a call are [size_t] values. *)
Definition op_in_range (o : op) : Prop :=
  match o with
  | Reserve n | Resize n _ | Insert n _ | Erase n | At n => is_size_t n
  | EraseRange f l => is_size_t f /\ is_size_t l
  | _ => True
  end.

(** The states of an array: built by a constructor, then any calls. *)
Inductive reachable : World T -> t -> Prop :=
| reach_default w w' a :
    ctor_default w = Ret tt w' a -> reachable w' a
| reach_capacity w n w' a :
    is_size_t n -> ctor_capacity w n = Ret tt w' a -> reachable w' a
| reach_allocator w al own w' a :
    ctor_allocator w al own = Ret tt w' a -> reachable w' a
| reach_capacity_allocator w n al own w' a :
    is_size_t n -> ctor_capacity_allocator w n al own = Ret tt w' a ->
    reachable w' a
| reach_initializer_list w l w' a :
    is_size_t (Z.of_nat (length l)) ->
    ctor_initializer_list w l = Ret tt w' a -> reachable w' a
| reach_op o w a r w' a' :
    reachable w a -> op_in_range o -> run_op o w a = Ret r w' a' ->
    reachable w' a'.

(** The live elements, in index order. *)
Definition elements (w : World T) (a : t) : list (option T) :=
  map (fun i => objs w !! slot a i) (seqZ 0 (size a)).

(** The invariant of the data model: [0 <= size <= capacity]. *)
Definition inv (a : t) : Prop :=
  0 <= size a /\ size a <= capacity a /\ capacity a < SIZE_MOD.

(** The ranges [[p, p + plen)] and [[q, q + qlen)] share no address. *)
Definition apart (p plen q qlen : Z) : Prop := p + plen <= q \/ q + qlen <= p.

(** From [w] and [a] to [w'] and [a']: the elements were moved one by one
    to the storage of [a'], index [0] first; hence, when that storage is
    apart from the old elements, [a'] holds the elements [a] held, in the
    same order, and the old slots hold none. *)
Definition elements_moved (w w' : World T) (a a' : t) : Prop :=
  objs w' = objs (fold_left (fun w i => move_step (slot a' i) (slot a i) w)
                    (seqZ 0 (size a)) w)
  /\ (apart (data a') (size a * sizeT) (data a) (size a * sizeT) ->
      elements w' a' = elements w a
      /\ forall i, 0 <= i < size a -> objs w' !! slot a i = None).

(** [w'] has the heap blocks, the arenas and the raw bytes of [w]: only
    elements were constructed or destroyed. *)
Definition same_storage (w w' : World T) : Prop :=
  heap w' = heap w /\ arenas w' = arenas w /\ bytes w' = bytes w.

(** From [w] to [w'], the array [a] stayed with its own kind of storage: with
    an arena attached the heap is as it was, without one the arenas and the
    raw bytes are. *)
Definition storage_kept (a : t) (w w' : World T) : Prop :=
  (allocator a <> 0 -> heap w' = heap w)
  /\ (allocator a = 0 -> arenas w' = arenas w /\ bytes w' = bytes w)
  /\ (forall k, k <> allocator a -> arenas w' !! k = arenas w !! k).

(** What a member call does to the storage, from [w] and [a] to [w'] and
    [a']: nothing; or one allocation for the new [data], the old block being
    freed when it came from the heap; or, with [data] reset to null, that
    release alone. *)
Definition storage_step (w : World T) (a : t) (w' : World T) (a' : t) : Prop :=
  allocator a' = allocator a /\ owns_allocator a' = owns_allocator a
  /\ ((same_storage w w' /\ data a' = data a)
      \/ (exists nbytes w1,
            allocate w a nbytes = Allocated (data a') w1
            /\ same_storage (if allocator a =? 0 then std_free w1 (data a) else w1) w')
      \/ (data a' = 0
          /\ same_storage (if allocator a =? 0 then std_free w (data a) else w) w')).

(** [malloc] hands out blocks that share no address with a live block. *)
Definition malloc_disjoint : Prop :=
  forall (h : gmap Z Z) (n : Z), malloc h n <> 0 ->
    forall q m, h !! q = Some m -> apart (malloc h n) n q m.

(** [alignof(T)] is a power of two (at most [2^62]). *)
Definition alignT_pow2 : Prop := exists k, 0 <= k <= 62 /\ alignT = 2 ^ k.

(** The storage of [a] is a block that its allocator handed out, with room
    for [capacity] elements, unless [a] has no storage and capacity 0.
    Without an arena the block is a live [malloc] block.  With an arena it
    lies in the part of the buffer that has been handed out, the arena being
    well formed: buffer of at most [2^62] bytes inside the address space,
    offsets in order inside the buffer. *)
Definition well_stored (w : World T) (a : t) : Prop :=
  if allocator a =? 0 then
    (data a = 0 /\ capacity a = 0)
    \/ (exists nbytes, heap w !! data a = Some nbytes
                       /\ 0 < nbytes /\ capacity a * sizeT <= nbytes)
  else
    exists ar, arenas w !! allocator a = Some ar
      /\ LinearAllocator.placed ar /\ LinearAllocator.inv ar
      /\ LinearAllocator.buf_len ar <= 2 ^ 62
      /\ ((data a = 0 /\ capacity a = 0)
          \/ (LinearAllocator.buf ar <= data a
              /\ data a + capacity a * sizeT
                 <= LinearAllocator.buf ar + LinearAllocator.curr_offset ar)).

(** The heap of [w] is [h0] and, if [a] has storage, the block at [data]. *)
Definition heap_with_block (h0 : gmap Z Z) (w : World T) (a : t) : Prop :=
  if data a =? 0 then heap w = h0
  else h0 !! data a = None /\ exists n, heap w = <[data a := n]> h0.

End Operations.

End DynArray.

(** ** Concrete element types, heaps and worlds for the examples *)

Module Samples.
Import DynArray.

(** [int] elements. *)
Definition int_elem : ElemType Z := {| sizeT := 4; alignT := 4 |}.

(** [char] elements. *)
Definition char_elem : ElemType Z := {| sizeT := 1; alignT := 1 |}.

(** The end of the highest live block (4096 when there is none). *)
Definition heap_top (h : gmap Z Z) : Z :=
  map_fold (fun p n top => Z.max top (p + n)) 4096 h.

(** A heap that serves every request at the next multiple of 16 above the
    live blocks. *)
Definition bump_heap : StdAllocator :=
  {| malloc := fun h n => 16 * ((heap_top h + 15) / 16) |}.

(** A heap that serves every request above the live blocks, one byte being
    kept for a block of no bytes. *)
Definition careful_heap : StdAllocator :=
  {| malloc := fun h n =>
       16 * ((map_fold (fun p n top => Z.max top (p + Z.max n 1)) 4096 h + 15) / 16) |}.

(** A heap that serves no request. *)
Definition exhausted_heap : StdAllocator :=
  {| malloc := fun _ _ => 0 |}.

(** No block, no arena, zeroed bytes, no element. *)
Definition empty_world : World Z := mkWorld ∅ ∅ (fun _ => 0) ∅.

End Samples.

(** * Properties of the arena *)

Section ArenaProperties.
Import LinearAllocator ArenaCalls.

Lemma wrap_small (x : Z) : is_size_t x -> wrap x = x.
Proof. unfold is_size_t, wrap. intros H. apply Z.mod_small. lia. Qed.

Lemma wrap_range (x : Z) : is_size_t (wrap x).
Proof.
  unfold is_size_t, wrap, SIZE_MOD, SIZE_BITS.
  apply Z.mod_pos_bound. reflexivity.
Qed.

(** A failed [alloc_align] writes nothing: neither offsets nor memory. *)
Lemma alloc_align_error_unchanged (a : t) (m : Mem) (size align : Z) e a' m' :
  alloc_align a m size align = (Unexpected e, a', m') -> a' = a /\ m' = m.
Proof.
  unfold alloc_align.
  destruct (align_forward _ align) as [aligned|e0].
  - destruct (_ <=? _); intros H; inversion H; auto.
  - intros H; inversion H; auto.
Qed.

(** No call moves the arena to another buffer. *)
Lemma alloc_align_buffer (a : t) (m : Mem) (size align : Z) :
  let a' := snd (fst (alloc_align a m size align)) in
  buf a' = buf a /\ buf_len a' = buf_len a.
Proof.
  unfold alloc_align.
  destruct (align_forward _ align); [destruct (_ <=? _)|]; simpl; auto.
Qed.

Lemma resize_align_buffer (a : t) (m : Mem) (p old_size new_size align : Z) :
  let a' := snd (fst (resize_align a m p old_size new_size align)) in
  buf a' = buf a /\ buf_len a' = buf_len a.
Proof.
  unfold resize_align.
  destruct (negb (is_power_of_two align)); [simpl; auto|].
  destruct (_ || _); [apply alloc_align_buffer|].
  destruct (_ && _); [|simpl; auto].
  destruct (_ =? p).
  - cbn [buf_len curr_offset].
    destruct (_ <? wrap _); [simpl; auto|].
    destruct (old_size <? new_size); simpl; auto.
  - pose proof (alloc_align_buffer a m new_size align) as Hb.
    destruct (alloc_align a m new_size align) as [[[v|e] a1] m1]; exact Hb.
Qed.

Lemma run_call_buffer (c : call) (a : t) (m : Mem) :
  let a' := snd (fst (run_call c a m)) in
  buf a' = buf a /\ buf_len a' = buf_len a.
Proof.
  destruct c as [size align|size|p os ns align|p os ns|ptr|]; cbn [run_call].
  - pose proof (alloc_align_buffer a m size align) as Hb.
    destruct (alloc_align a m size align) as [[r a1] m1]; exact Hb.
  - unfold alloc.
    pose proof (alloc_align_buffer a m size DEFAULT_ALIGNMENT) as Hb.
    destruct (alloc_align a m size DEFAULT_ALIGNMENT) as [[r a1] m1]; exact Hb.
  - pose proof (resize_align_buffer a m p os ns align) as Hb.
    destruct (resize_align a m p os ns align) as [[r a1] m1]; exact Hb.
  - unfold resize.
    pose proof (resize_align_buffer a m p os ns DEFAULT_ALIGNMENT) as Hb.
    destruct (resize_align a m p os ns DEFAULT_ALIGNMENT) as [[r a1] m1]; exact Hb.
  - simpl; auto.
  - simpl; auto.
Qed.

Lemma run_calls_buffer (cs : list call) (a : t) (m : Mem) :
  let a' := fst (run_calls cs a m) in
  buf a' = buf a /\ buf_len a' = buf_len a.
Proof.
  revert a m. induction cs as [|c cs IH]; intros a m; [simpl; auto|].
  cbn [run_calls].
  pose proof (run_call_buffer c a m) as Hc.
  destruct (run_call c a m) as [[b a1] m1]. cbn [fst snd] in Hc.
  specialize (IH a1 m1). cbv zeta in IH |- *.
  destruct IH as [IH1 IH2], Hc as [Hc1 Hc2]. split; congruence.
Qed.

(** The outcome of [alloc_align] depends on the arena only, not on the bytes. *)
Lemma alloc_align_mem_irrelevant (a : t) (m1 m2 : Mem) (size align : Z) :
  fst (alloc_align a m1 size align) = fst (alloc_align a m2 size align).
Proof.
  unfold alloc_align.
  destruct (align_forward _ align); [destruct (_ <=? _)|]; reflexivity.
Qed.

(** The mask test agrees with divisibility for the powers of two. *)
Lemma land_mask_pow2 (p k : Z) :
  0 <= k < SIZE_BITS -> Z.land p (wrap (2 ^ k - 1)) = p mod 2 ^ k.
Proof.
  intros Hk. rewrite wrap_small.
  - replace (2 ^ k - 1) with (Z.ones k) by (rewrite Z.ones_equiv; lia).
    apply Z.land_ones. lia.
  - unfold is_size_t, SIZE_MOD. unfold SIZE_BITS in *.
    assert (0 < 2 ^ k) by (apply Z.pow_pos_nonneg; lia).
    assert (2 ^ k < 2 ^ 64) by (apply Z.pow_lt_mono_r; lia).
    lia.
Qed.

Lemma is_power_of_two_pow2 (k : Z) :
  0 <= k < SIZE_BITS -> is_power_of_two (2 ^ k) = true.
Proof.
  intros Hk. unfold is_power_of_two.
  rewrite land_mask_pow2 by exact Hk.
  assert (0 < 2 ^ k) by (apply Z.pow_pos_nonneg; lia).
  rewrite Z.mod_same by lia.
  apply andb_true_intro; split.
  - apply Z.eqb_eq. reflexivity.
  - apply negb_true_iff, Z.eqb_neq. lia.
Qed.

(** An aligned address is returned as it is. *)
Lemma align_forward_aligned (p k : Z) :
  0 <= k < SIZE_BITS -> p mod 2 ^ k = 0 ->
  align_forward p (2 ^ k) = Value p.
Proof.
  intros Hk Hp. unfold align_forward.
  rewrite is_power_of_two_pow2 by exact Hk. cbn [negb].
  rewrite land_mask_pow2 by exact Hk. rewrite Hp. reflexivity.
Qed.

(** On an arena just reset, a request for the whole buffer is served at the
    base, when the base is aligned as requested. *)
Lemma alloc_align_whole_buffer (a : t) (m : Mem) (k : Z) :
  is_size_t (buf a) -> is_size_t (buf_len a) ->
  0 <= k < SIZE_BITS -> buf a mod 2 ^ k = 0 ->
  alloc_align (free_all a) m (buf_len a) (2 ^ k)
  = (Value (buf a),
     {| buf := buf a; buf_len := buf_len a;
        prev_offset := 0; curr_offset := buf_len a |},
     memset m (buf a) 0 (buf_len a)).
Proof.
  intros Hb Hl Hk Hal. unfold alloc_align, free_all. cbn [buf buf_len curr_offset].
  rewrite Z.add_0_r, (wrap_small (buf a)) by exact Hb.
  rewrite align_forward_aligned by assumption.
  rewrite Z.sub_diag. change (wrap 0) with 0.
  rewrite Z.add_0_l, Z.add_0_r.
  rewrite (wrap_small (buf_len a)), (wrap_small (buf a)) by assumption.
  rewrite Z.leb_refl. reflexivity.
Qed.

(** The paths that keep the invariant: a new arena, a reset, and an
    allocation whose end [offset + size] is not reduced modulo [2^64]. *)
Lemma create_inv (backing_buffer len : Z) :
  0 <= len -> inv (create backing_buffer len).
Proof. unfold inv, create. cbn. lia. Qed.

Lemma free_all_inv (a : t) : 0 <= buf_len a -> inv (free_all a).
Proof. unfold inv, free_all. cbn. lia. Qed.

Lemma alloc_align_value_inv (a a' : t) (m m' : Mem) (size align p : Z) :
  alloc_align a m size align = (Value p, a', m') ->
  0 <= size -> prev_offset a' + size < SIZE_MOD ->
  inv a'.
Proof.
  unfold alloc_align.
  destruct (align_forward _ align) as [aligned|e]; [|discriminate].
  destruct (_ <=? _) eqn:Hfit; [|discriminate].
  intros H; inversion H; subst; clear H. cbn [prev_offset]. intros Hs Hsum.
  pose proof (wrap_range (aligned - buf a)) as Hoff. unfold is_size_t in Hoff.
  apply Z.leb_le in Hfit.
  rewrite wrap_small in Hfit by (unfold is_size_t; lia).
  unfold inv. cbn [prev_offset curr_offset buf_len].
  rewrite (wrap_small (wrap (aligned - buf a) + size)) by (unfold is_size_t; lia).
  lia.
Qed.

(** The bounds check of [alloc_align] compares the reduced sum: after 32
    bytes are taken from a 64-byte buffer, a request for [2^64 - 8] bytes
    passes it and leaves [curr_offset = 24] below [prev_offset = 32]. *)
Lemma alloc_align_sum_wraps :
  alloc_align (mk 4096 64 0 32) (fun _ => 0) (2 ^ 64 - 8) 1
  = (Value 4128, mk 4096 64 32 24, memset (fun _ => 0) 4128 0 (2 ^ 64 - 8)).
Proof. reflexivity. Qed.

End ArenaProperties.

Section ArenaClaims.
Import LinearAllocator ArenaCalls.

(** C1 (evaluated at the failing input).  An arena over a 16-byte buffer at
    address 4096 serves [alloc_align(10, 1)] at its base; the in-place
    [resize_align] of that block to 20 bytes then fails with [OutOfMemory],
    but it has already stored [curr_offset = 20], which exceeds
    [buffer_length = 16]: the state after the failed call is reachable and
    violates [0 <= prev_offset <= curr_offset <= buffer_length]. *)
Theorem resize_align_out_of_memory_breaks_inv :
  let m0 : Mem := fun _ => 0 in
  let a0 := create 4096 16 in
  let '(r1, a1, m1) := alloc_align a0 m0 10 1 in
  let '(r2, a2, m2) := resize_align a1 m1 4096 10 20 1 in
  r1 = Value 4096 /\ inv a1
  /\ r2 = Unexpected OutOfMemory
  /\ curr_offset a2 = 20 /\ buf_len a2 = 16
  /\ reachable a2 /\ ~ inv a2.
Proof.
  cbv zeta.
  assert (Ha1 : alloc_align (create 4096 16) (fun _ => 0) 10 1
                = (Value 4096, mk 4096 16 0 10, memset (fun _ => 0) 4096 0 10))
    by reflexivity.
  rewrite Ha1.
  assert (Ha2 : forall m, resize_align (mk 4096 16 0 10) m 4096 10 20 1
                = (Unexpected OutOfMemory, mk 4096 16 0 20, m))
    by (intros m; reflexivity).
  rewrite Ha2.
  repeat split; try (cbn; lia).
  - apply (reach_call (ResizeAlign 4096 10 20 1) (mk 4096 16 0 10) (fun _ => 0)).
    + apply (reach_call (AllocAlign 10 1) (create 4096 16) (fun _ => 0)).
      * apply reach_create; unfold is_size_t, SIZE_MOD, SIZE_BITS; lia.
      * cbn; unfold is_size_t, SIZE_MOD, SIZE_BITS; lia.
    + cbn; unfold is_size_t, SIZE_MOD, SIZE_BITS; lia.
  - unfold inv. cbn. lia.
Qed.

(** C6 (counterexample).  Over a 16-byte buffer whose base 4104 is not a
    multiple of 16, the default-alignment allocation of the whole buffer
    right after [free_all()] fails with [OutOfMemory]: the aligned offset is
    8 and 8 + 16 exceeds the buffer. *)
Lemma free_all_alloc_unaligned_base :
  let a := free_all (create 4104 16) in
  prev_offset a = 0 /\ curr_offset a = 0
  /\ fst (fst (alloc a (fun _ => 0) (buf_len a))) = Unexpected OutOfMemory.
Proof. repeat split. Qed.

(** C6 (amended).  Whatever the offsets were, after [free_all()] both are 0
    and the next allocation of [buffer_length] bytes succeeds and returns
    the base of the buffer, for every base that is a multiple of the
    alignment requested: any power of two for [alloc_align], 16 for
    [alloc]. *)
Theorem free_all_then_whole_buffer (a : t) (m : Mem) :
  is_size_t (buf a) -> is_size_t (buf_len a) ->
  prev_offset (free_all a) = 0 /\ curr_offset (free_all a) = 0
  /\ (forall k, 0 <= k < SIZE_BITS -> buf a mod 2 ^ k = 0 ->
      fst (fst (alloc_align (free_all a) m (buf_len a) (2 ^ k))) = Value (buf a))
  /\ (buf a mod DEFAULT_ALIGNMENT = 0 ->
      fst (fst (alloc (free_all a) m (buf_len a))) = Value (buf a)).
Proof.
  intros Hb Hl. repeat split.
  - intros k Hk Hal. rewrite alloc_align_whole_buffer by assumption. reflexivity.
  - intros Hal. unfold alloc. change DEFAULT_ALIGNMENT with (2 ^ 4) in *.
    rewrite alloc_align_whole_buffer; try assumption; [reflexivity|].
    unfold SIZE_BITS; lia.
Qed.

Lemma free_all_then_whole_buffer_witness :
  fst (fst (alloc (free_all (mk 4096 64 16 48)) (fun _ => 0) 64)) = Value 4096.
Proof.
  apply (free_all_then_whole_buffer (mk 4096 64 16 48) (fun _ => 0)).
  - unfold is_size_t, SIZE_MOD, SIZE_BITS; simpl; lia.
  - unfold is_size_t, SIZE_MOD, SIZE_BITS; simpl; lia.
  - reflexivity.
Defined.

(** C7.  For an arena [ar] at address [p]: a scope begun on it, followed by
    any calls on the arena, is ended by [end()] with the arena back in the
    state it had at [begin] (both offsets restored); a second [end()]
    changes nothing; and when the first call inside the scope was
    [alloc_align(size, align)], the same call made right after [end()]
    returns the same address. *)
Theorem temp_scope_end_restores
    (h : gmap Z t) (p : Z) (ar : t) (m : Mem) (cs : list call) (size align : Z) :
  h !! p = Some ar ->
  exists temp, TempArenaMemory.begin h p = Some temp /\
    (* any calls, then end() *)
    (let '(ar', _) := run_calls cs ar m in
     exists h', TempArenaMemory.end_ temp (<[p := ar']> h) = Some h'
       /\ h' !! p = Some ar
       /\ TempArenaMemory.end_ temp h' = Some h') /\
    (* an allocation, any calls, then end() and the allocation again *)
    (let '(r1, ar1, m1) := alloc_align ar m size align in
     let '(ar2, m2) := run_calls cs ar1 m1 in
     exists h' ar3, TempArenaMemory.end_ temp (<[p := ar2]> h) = Some h'
       /\ h' !! p = Some ar3
       /\ prev_offset ar3 = prev_offset ar
       /\ curr_offset ar3 = curr_offset ar
       /\ fst (fst (alloc_align ar3 m2 size align)) = r1).
Proof.
  intros Hp.
  assert (Hend : forall ar', buf ar' = buf ar -> buf_len ar' = buf_len ar ->
            let temp := TempArenaMemory.mk p (prev_offset ar) (curr_offset ar) in
            exists h', TempArenaMemory.end_ temp (<[p := ar']> h) = Some h'
              /\ h' !! p = Some ar
              /\ TempArenaMemory.end_ temp h' = Some h').
  { intros ar' Hb Hl temp.
    assert (Har : mk (buf ar') (buf_len ar') (prev_offset ar) (curr_offset ar) = ar)
      by (rewrite Hb, Hl; destruct ar; reflexivity).
    exists (<[p := ar]> (<[p := ar']> h)).
    unfold TempArenaMemory.end_; cbn [TempArenaMemory.arena
      TempArenaMemory.prev_offset TempArenaMemory.curr_offset].
    rewrite !lookup_insert_eq. cbv beta iota. subst temp.
    cbn [TempArenaMemory.arena TempArenaMemory.prev_offset
         TempArenaMemory.curr_offset].
    rewrite Har.
    split; [reflexivity|]. split; [reflexivity|].
    destruct ar as [b l po co]; cbn [buf buf_len prev_offset curr_offset].
    rewrite insert_insert_eq. reflexivity. }
  exists (TempArenaMemory.mk p (prev_offset ar) (curr_offset ar)).
  split; [unfold TempArenaMemory.begin; rewrite Hp; reflexivity|].
  split.
  - pose proof (run_calls_buffer cs ar m) as Hb.
    destruct (run_calls cs ar m) as [ar' m']. cbn [fst] in Hb.
    destruct Hb as [Hb Hl]. apply Hend; assumption.
  - pose proof (alloc_align_buffer ar m size align) as Hb1.
    destruct (alloc_align ar m size align) as [[r1 ar1] m1] eqn:Hal.
    cbn [fst snd] in Hb1.
    pose proof (run_calls_buffer cs ar1 m1) as Hb2.
    destruct (run_calls cs ar1 m1) as [ar2 m2]. cbn [fst] in Hb2.
    destruct Hb1 as [Hb1 Hl1], Hb2 as [Hb2 Hl2].
    destruct (Hend ar2) as (h' & He & Hl & _); [congruence|congruence|].
    exists h', ar. repeat split; try assumption.
    rewrite (alloc_align_mem_irrelevant ar m2 m), Hal. reflexivity.
Qed.

Lemma temp_scope_end_restores_witness :
  exists temp,
    TempArenaMemory.begin {[ 4096 := LinearAllocator.mk 8192 64 0 16 ]} 4096 = Some temp.
Proof.
  destruct (temp_scope_end_restores {[ 4096 := LinearAllocator.mk 8192 64 0 16 ]}
              4096 (LinearAllocator.mk 8192 64 0 16) (fun _ => 0)
              [Alloc 8; FreeAll] 4 1) as (temp & Hb & _).
  - reflexivity.
  - exists temp. exact Hb.
Defined.

End ArenaClaims.

(** * Properties of the growable array *)

Section ArrayProperties.
Import DynArray.
Context {T : Type} {ET : ElemType T} {SA : StdAllocator}.

Lemma world_eta (w : World T) :
  {| heap := heap w; arenas := arenas w; bytes := bytes w; objs := objs w |} = w.
Proof. destruct w; reflexivity. Qed.

(** A failed allocation leaves the world as it was: the arena is written
    back with the offsets it had, the heap table is not touched. *)
Lemma allocate_failed_unchanged (w w' : World T) (a : t) (nbytes : Z) :
  allocate w a nbytes = AllocFailed w' -> w' = w.
Proof.
  unfold allocate.
  destruct (negb (allocator a =? 0)).
  - destruct (arenas w !! allocator a) as [ar|] eqn:Har; [|discriminate].
    destruct (LinearAllocator.alloc_align ar (bytes w) nbytes alignT)
      as [[[p|e] ar'] m'] eqn:Hal; [discriminate|].
    apply alloc_align_error_unchanged in Hal. destruct Hal as [-> ->].
    intros H; inversion H; subst.
    rewrite insert_id by exact Har. apply world_eta.
  - unfold std_malloc.
    destruct (malloc (heap w) nbytes =? 0) eqn:Hp.
    + cbn. intros H; inversion H; reflexivity.
    + rewrite Hp. discriminate.
Qed.

(** [reserve] reports nothing but [OutOfMemory], and then nothing changed. *)
Lemma reserve_error (w w' : World T) (a a' : t) (n : Z) (e : DynArrayError) :
  reserve w a n = Ret (Unexpected e) w' a' ->
  e = OutOfMemory /\ w' = w /\ a' = a.
Proof.
  unfold reserve.
  destruct (n <=? capacity a); [discriminate|].
  destruct (allocate w a _) as [p w1|w1|] eqn:Hal; try discriminate.
  apply allocate_failed_unchanged in Hal. subst w1.
  intros H; inversion H; auto.
Qed.

Lemma grow_error (w w' : World T) (a a' : t) (n : Z) (e : DynArrayError) :
  grow w a n = Ret (Unexpected e) w' a' ->
  e = OutOfMemory /\ w' = w /\ a' = a.
Proof.
  unfold grow. destruct (grow_capacity a n); [apply reserve_error|discriminate].
Qed.

(** An error out of [and_then] whose continuation always succeeds comes from
    the first call. *)
Lemma and_then_error (r : result T) (k : World T -> t -> result T) e w' a' :
  (forall w a, exists w1 a1, k w a = Ret (Value tt) w1 a1) ->
  and_then r k = Ret (Unexpected e) w' a' ->
  r = Ret (Unexpected e) w' a'.
Proof.
  intros Hk. destruct r as [[u|e0] w0 a0| |]; cbn; try discriminate.
  - destruct (Hk w0 a0) as (w1 & a1 & ->). discriminate.
  - intros H; inversion H; reflexivity.
Qed.

(** The calls that grow first: an error is that of [grow] or [reserve]. *)
Lemma guarded_error (c : bool) (r : result T) (w w' : World T) (a a' : t) e :
  (r = Ret (Unexpected e) w' a' -> e = OutOfMemory /\ w' = w /\ a' = a) ->
  (if c then r else Ret (Value tt) w a) = Ret (Unexpected e) w' a' ->
  e = OutOfMemory /\ w' = w /\ a' = a.
Proof. destruct c; [auto|discriminate]. Qed.

(** Every error a member function returns, and the state it returns it in. *)
Lemma run_op_error (o : op) (w w' : World T) (a a' : t) (e : DynArrayError) :
  run_op o w a = Ret (Unexpected e) w' a' ->
  (e = OutOfMemory \/ e = OutOfRange \/ e = EmptyArray) /\ w' = w /\ a' = a.
Proof.
  destruct o as [n|n v| |v|v| |p v|p|f l|i| | |]; cbn [run_op].
  - intros H. apply reserve_error in H. intuition.
  - unfold resize. intros H. apply and_then_error in H; [|eauto].
    apply guarded_error in H; [intuition|apply reserve_error].
  - unfold shrink_to_fit.
    destruct (size a =? capacity a); [discriminate|].
    destruct (size a =? 0); [discriminate|].
    destruct (allocate w a _) as [q w1|w1|] eqn:Hal; try discriminate.
    apply allocate_failed_unchanged in Hal. subst w1.
    intros H; inversion H; auto.
  - unfold push_back. intros H. apply and_then_error in H; [|eauto].
    apply guarded_error in H; [intuition|apply grow_error].
  - unfold push_back_move. intros H. apply and_then_error in H; [|eauto].
    apply guarded_error in H; [intuition|apply grow_error].
  - unfold pop_back. destruct (empty a); [|discriminate].
    intros H; inversion H; auto.
  - unfold insert. destruct (size a <? p).
    + intros H; inversion H; auto.
    + intros H. apply and_then_error in H; [|eauto].
      apply guarded_error in H; [intuition|apply grow_error].
  - unfold erase, erase_range.
    destruct (_ || _); [intros H; inversion H; auto|].
    destruct (_ =? _); discriminate.
  - unfold erase_range.
    destruct (_ || _); [intros H; inversion H; auto|].
    destruct (_ =? _); discriminate.
  - unfold at_. destruct (size a <=? i); cbn; [|discriminate].
    intros H; inversion H; auto.
  - unfold front. destruct (empty a); cbn; [|discriminate].
    intros H; inversion H; auto.
  - unfold back. destruct (empty a); cbn; [|discriminate].
    intros H; inversion H; auto.
  - discriminate.
Qed.

End ArrayProperties.

Section ArrayErrorClaims.
Import DynArray.
Context {T : Type} {ET : ElemType T} {SA : StdAllocator}.

(** C4 (counterexample).  [pop_back()] on an empty array of [int], built by
    the constructor with capacity 3, returns [EmptyArray], which is neither
    [OutOfMemory] nor [OutOfRange]. *)
Lemma pop_back_on_empty_returns_EmptyArray :
  exists w a,
    ctor_capacity (ET := Samples.int_elem) (SA := Samples.bump_heap)
      Samples.empty_world 3 = Ret tt w a
    /\ run_op (ET := Samples.int_elem) (SA := Samples.bump_heap) PopBack w a
       = Ret (Unexpected EmptyArray) w a
    /\ EmptyArray <> OutOfMemory /\ EmptyArray <> OutOfRange.
Proof.
  eexists _, _. split; [vm_compute; reflexivity|].
  split; [reflexivity|]. split; discriminate.
Qed.

(** C4 (amended).  No member function ever produces [InvalidCapacity] or
    [InvalidSize]: for every array, world and arguments, every error
    returned is one of [OutOfMemory], [OutOfRange] or [EmptyArray]. *)
Theorem errors_returned (o : op) (w w' : World T) (a a' : t) (e : DynArrayError) :
  run_op o w a = Ret (Unexpected e) w' a' ->
  (e = OutOfMemory \/ e = OutOfRange \/ e = EmptyArray)
  /\ e <> InvalidCapacity /\ e <> InvalidSize.
Proof.
  intros H. apply run_op_error in H. destruct H as [He _].
  split; [exact He|].
  destruct He as [-> | [-> | ->]]; split; discriminate.
Qed.

(** C9.  A member function that returns an error leaves everything as it
    was: the array ([data], [size], [capacity], allocator) and the world
    (every element, the heap blocks, the arenas). *)
Theorem error_leaves_unchanged (o : op) (w w' : World T) (a a' : t) (e : DynArrayError) :
  run_op o w a = Ret (Unexpected e) w' a' -> w' = w /\ a' = a.
Proof. intros H. apply run_op_error in H. tauto. Qed.

(** C10.  [erase_range(first, first)] succeeds and changes nothing when
    [first < size], and fails with [OutOfRange] when [first = size]. *)
Theorem erase_range_empty_range (w : World T) (a : t) (first : Z) :
  (first < size a -> erase_range w a first first = Ret (Value tt) w a)
  /\ (first = size a -> erase_range w a first first = Ret (Unexpected OutOfRange) w a).
Proof.
  unfold erase_range. split; intros H.
  - replace (size a <=? first) with false by (symmetry; apply Z.leb_gt; lia).
    replace (size a <? first) with false by (symmetry; apply Z.ltb_ge; lia).
    rewrite Z.ltb_irrefl, Z.eqb_refl. reflexivity.
  - subst first. rewrite Z.leb_refl. reflexivity.
Qed.

End ArrayErrorClaims.

Lemma errors_returned_witness :
  (DynArray.EmptyArray = DynArray.OutOfMemory
   \/ DynArray.EmptyArray = DynArray.OutOfRange
   \/ DynArray.EmptyArray = DynArray.EmptyArray)
  /\ DynArray.EmptyArray <> DynArray.InvalidCapacity
  /\ DynArray.EmptyArray <> DynArray.InvalidSize.
Proof.
  apply (errors_returned (ET := Samples.int_elem) (SA := Samples.bump_heap)
           DynArray.Back Samples.empty_world Samples.empty_world
           (DynArray.mk 4096 0 3 0 false) (DynArray.mk 4096 0 3 0 false)).
  reflexivity.
Defined.

(** With the heap exhausted, [insert] into a full array fails with
    [OutOfMemory] and changes nothing. *)
Lemma error_leaves_unchanged_witness :
  Samples.empty_world = Samples.empty_world
  /\ DynArray.mk 4096 3 3 0 false = DynArray.mk 4096 3 3 0 false.
Proof.
  apply (error_leaves_unchanged (ET := Samples.int_elem)
           (SA := Samples.exhausted_heap) (DynArray.Insert 1 (DynArray.Temp 7))
           Samples.empty_world Samples.empty_world
           (DynArray.mk 4096 3 3 0 false) (DynArray.mk 4096 3 3 0 false)
           DynArray.OutOfMemory).
  reflexivity.
Defined.

Lemma erase_range_empty_range_witness :
  DynArray.erase_range (ET := Samples.int_elem) Samples.empty_world
    (DynArray.mk 4096 3 3 0 false) 1 1
  = DynArray.Ret (Value tt) Samples.empty_world (DynArray.mk 4096 3 3 0 false)
  /\ DynArray.erase_range (ET := Samples.int_elem) Samples.empty_world
       (DynArray.mk 4096 3 3 0 false) 3 3
     = DynArray.Ret (Unexpected DynArray.OutOfRange) Samples.empty_world
         (DynArray.mk 4096 3 3 0 false).
Proof.
  split.
  - apply (erase_range_empty_range (ET := Samples.int_elem) Samples.empty_world
             (DynArray.mk 4096 3 3 0 false) 1). simpl. lia.
  - apply (erase_range_empty_range (ET := Samples.int_elem) Samples.empty_world
             (DynArray.mk 4096 3 3 0 false) 3). reflexivity.
Defined.

(** ** Loops over the elements *)

Section ElementLoops.
Import DynArray.
Context {T : Type} {ET : ElemType T} {SA : StdAllocator}.

Lemma same_storage_refl (w : World T) : same_storage w w.
Proof. repeat split. Qed.

Lemma same_storage_trans (w1 w2 w3 : World T) :
  same_storage w1 w2 -> same_storage w2 w3 -> same_storage w1 w3.
Proof. unfold same_storage. intros (?&?&?) (?&?&?). repeat split; congruence. Qed.

Lemma construct_storage (w : World T) p v : same_storage w (construct w p v).
Proof. repeat split. Qed.

Lemma destroy_storage (w : World T) p : same_storage w (destroy w p).
Proof. repeat split. Qed.

Lemma copy_construct_storage (w : World T) d s : same_storage w (copy_construct w d s).
Proof. unfold copy_construct. destruct (objs w !! s); repeat split. Qed.

Lemma for_up_storage (body : Z -> World T -> World T) :
  (forall i w, same_storage w (body i w)) ->
  forall n i w, same_storage w (for_up n i body w).
Proof.
  intros Hb n. induction n as [|n IH]; intros i w; cbn [for_up].
  - apply same_storage_refl.
  - eapply same_storage_trans; [apply Hb|apply IH].
Qed.

(** A loop is the fold of its body over the indices in ascending order. *)
Lemma for_up_fold {St : Type} (body : Z -> St -> St) (n : nat) (i : Z) (s : St) :
  for_up n i body s = fold_left (fun s k => body k s) (seqZ i (Z.of_nat n)) s.
Proof.
  revert i s. induction n as [|n IH]; intros i s; [reflexivity|].
  rewrite Nat2Z.inj_succ, seqZ_cons by lia. cbn [for_up fold_left].
  rewrite IH. do 2 f_equal. lia.
Qed.

Lemma for_range_fold {St : Type} (body : Z -> St -> St) (lo hi : Z) (s : St) :
  lo <= hi ->
  for_range lo hi body s = fold_left (fun s k => body k s) (seqZ lo (hi - lo)) s.
Proof.
  intros H. unfold for_range. rewrite for_up_fold. rewrite Z2Nat.id by lia.
  reflexivity.
Qed.

Lemma move_step_lookup (d s q : Z) (w : World T) :
  objs (move_step d s w) !! q
  = if decide (q = s) then None
    else if decide (q = d) then objs w !! s else objs w !! q.
Proof.
  unfold move_step, move_construct, copy_construct.
  destruct (objs w !! s) as [v|] eqn:Hs; cbn [destroy construct objs].
  - destruct (decide (q = s)) as [->|Hqs]; [apply lookup_delete_eq|].
    rewrite lookup_delete_ne by congruence.
    destruct (decide (q = d)) as [->|Hqd]; [apply lookup_insert_eq|].
    apply lookup_insert_ne; congruence.
  - destruct (decide (q = s)) as [->|Hqs]; [apply lookup_delete_eq|].
    rewrite lookup_delete_ne by congruence.
    destruct (decide (q = d)) as [->|Hqd]; [apply lookup_delete_eq|].
    apply lookup_delete_ne; congruence.
Qed.

Lemma copy_construct_lookup (d s q : Z) (w : World T) :
  objs (copy_construct w d s) !! q
  = if decide (q = d) then objs w !! s else objs w !! q.
Proof.
  unfold copy_construct.
  destruct (objs w !! s) as [v|] eqn:Hs; cbn [destroy construct objs].
  - destruct (decide (q = d)) as [->|Hqd]; [apply lookup_insert_eq|].
    apply lookup_insert_ne; congruence.
  - destruct (decide (q = d)) as [->|Hqd]; [apply lookup_delete_eq|].
    apply lookup_delete_ne; congruence.
Qed.

Lemma move_construct_from_eq (w : World T) (d : Z) (v : arg T) :
  move_construct_from w d v = construct_from w d v.
Proof. destruct v; reflexivity. Qed.

(** Constructing from a parameter writes the destination only; what it
    writes is the value the parameter has at that moment. *)
Lemma construct_from_lookup (w : World T) (d q : Z) (v : arg T) :
  objs (construct_from w d v) !! q
  = if decide (q = d) then read w v else objs w !! q.
Proof.
  destruct v as [x|p]; cbn [construct_from read].
  - unfold construct. cbn [objs].
    destruct (decide (q = d)) as [->|Hqd]; [apply lookup_insert_eq|].
    apply lookup_insert_ne; congruence.
  - apply copy_construct_lookup.
Qed.

Lemma construct_from_lookup_ne (w : World T) (d q : Z) (v : arg T) :
  q <> d -> objs (construct_from w d v) !! q = objs w !! q.
Proof.
  intros H. rewrite construct_from_lookup.
  destruct (decide (q = d)); [contradiction|reflexivity].
Qed.

Lemma construct_from_lookup_eq (w : World T) (d : Z) (v : arg T) :
  objs (construct_from w d v) !! d = read w v.
Proof.
  rewrite construct_from_lookup. destruct (decide (d = d)); [reflexivity|contradiction].
Qed.

(** Constructing from a parameter leaves what it designates: the object it
    refers to is copied, onto itself when it is the destination. *)
Lemma read_construct_from (w : World T) (d : Z) (v : arg T) :
  read (construct_from w d v) v = read w v.
Proof.
  destruct v as [x|p]; [reflexivity|]. cbn [read construct_from].
  rewrite copy_construct_lookup. destruct (decide (p = d)); reflexivity.
Qed.

Lemma construct_from_storage (w : World T) (d : Z) (v : arg T) :
  same_storage w (construct_from w d v).
Proof.
  destruct v; cbn [construct_from];
    [apply construct_storage|apply copy_construct_storage].
Qed.

(** The move loop, from storage at [src] to storage at [dst] that shares no
    slot with it: every element arrives, every original is destroyed,
    nothing else changes. *)
Lemma move_loop_lookup (dst src : Z) (n : nat) (i0 : Z) (w : World T) :
  0 < sizeT ->
  (forall i j, i0 <= i < i0 + Z.of_nat n -> i0 <= j < i0 + Z.of_nat n ->
               dst + i * sizeT <> src + j * sizeT) ->
  let w' := for_up n i0
              (fun i w => move_step (dst + i * sizeT) (src + i * sizeT) w) w in
  (forall j, i0 <= j < i0 + Z.of_nat n ->
     objs w' !! (dst + j * sizeT) = objs w !! (src + j * sizeT)
     /\ objs w' !! (src + j * sizeT) = None)
  /\ (forall q, (forall j, i0 <= j < i0 + Z.of_nat n ->
                   q <> dst + j * sizeT /\ q <> src + j * sizeT) ->
        objs w' !! q = objs w !! q).
Proof.
  intros Hsz. revert i0 w. induction n as [|n IH]; intros i0 w Hdis; cbn zeta.
  - split; [intros j Hj; lia|reflexivity].
  - cbn [for_up].
    set (w1 := move_step (dst + i0 * sizeT) (src + i0 * sizeT) w).
    destruct (IH (i0 + 1) w1) as [IHin IHout].
    { intros i j Hi Hj. apply Hdis; lia. }
    assert (Hne : dst + i0 * sizeT <> src + i0 * sizeT) by (apply Hdis; lia).
    split.
    + intros j Hj. destruct (Z.eq_dec j i0) as [->|Hji].
      * rewrite !IHout.
        -- unfold w1. rewrite !move_step_lookup.
           destruct (decide (dst + i0 * sizeT = src + i0 * sizeT)); [congruence|].
           rewrite !decide_True by reflexivity. split; reflexivity.
        -- intros k Hk. split; [|nia].
           intros E. symmetry in E. revert E. apply Hdis; lia.
        -- intros k Hk. split; [nia|]. apply Hdis; lia.
      * destruct (IHin j) as [H1 H2]; [lia|]. rewrite H1, H2. split; [|reflexivity].
        unfold w1. rewrite move_step_lookup.
        rewrite decide_False by nia.
        rewrite decide_False; [reflexivity|].
        intros E. symmetry in E. revert E. apply Hdis; lia.
    + intros q Hq. rewrite IHout by (intros k Hk; apply Hq; lia).
      unfold w1. rewrite move_step_lookup.
      destruct (Hq i0) as [Hq1 Hq2]; [lia|].
      rewrite !decide_False by assumption. reflexivity.
Qed.

(** The copy loop: every element is copied, nothing else changes (the
    originals included). *)
Lemma copy_loop_lookup (dst src : Z) (n : nat) (i0 : Z) (w : World T) :
  0 < sizeT ->
  (forall i j, i0 <= i < i0 + Z.of_nat n -> i0 <= j < i0 + Z.of_nat n ->
               dst + i * sizeT <> src + j * sizeT) ->
  let w' := for_up n i0
              (fun i w => copy_construct w (dst + i * sizeT) (src + i * sizeT)) w in
  (forall j, i0 <= j < i0 + Z.of_nat n ->
     objs w' !! (dst + j * sizeT) = objs w !! (src + j * sizeT))
  /\ (forall q, (forall j, i0 <= j < i0 + Z.of_nat n -> q <> dst + j * sizeT) ->
        objs w' !! q = objs w !! q).
Proof.
  intros Hsz. revert i0 w. induction n as [|n IH]; intros i0 w Hdis; cbn zeta.
  - split; [intros j Hj; lia|reflexivity].
  - cbn [for_up].
    set (w1 := copy_construct w (dst + i0 * sizeT) (src + i0 * sizeT)).
    destruct (IH (i0 + 1) w1) as [IHin IHout].
    { intros i j Hi Hj. apply Hdis; lia. }
    split.
    + intros j Hj. destruct (Z.eq_dec j i0) as [->|Hji].
      * rewrite IHout by (intros k Hk; nia).
        unfold w1. rewrite copy_construct_lookup.
        rewrite decide_True by reflexivity. reflexivity.
      * rewrite IHin by lia.
        unfold w1. rewrite copy_construct_lookup.
        rewrite decide_False; [reflexivity|].
        intros E. symmetry in E. revert E. apply Hdis; lia.
    + intros q Hq. rewrite IHout by (intros k Hk; apply Hq; lia).
      unfold w1. rewrite copy_construct_lookup.
      rewrite decide_False; [reflexivity|]. apply Hq; lia.
Qed.

Lemma apart_slots (p q n : Z) :
  0 < sizeT -> apart p (n * sizeT) q (n * sizeT) ->
  forall i j, 0 <= i < n -> 0 <= j < n -> p + i * sizeT <> q + j * sizeT.
Proof. unfold apart. intros Hsz Hap i j Hi Hj. nia. Qed.

(** The live elements agree when the slots do. *)
Lemma elements_ext (w w' : World T) (a a' : t) :
  size a' = size a ->
  (forall i, 0 <= i < size a -> objs w' !! slot a' i = objs w !! slot a i) ->
  elements w' a' = elements w a.
Proof.
  intros Hs H. unfold elements. rewrite Hs.
  apply map_ext_in. intros i Hi.
  apply list_elem_of_In, elem_of_seqZ in Hi. apply H. lia.
Qed.

End ElementLoops.

(** ** What a successful [reserve] does, and the invariant of the array *)

Section ArrayInvariant.
Import DynArray.
Context {T : Type} {ET : ElemType T} {SA : StdAllocator}.

Lemma reserve_noop (w : World T) (a : t) (n : Z) :
  n <= capacity a -> reserve w a n = Ret (Value tt) w a.
Proof.
  intros H. unfold reserve.
  replace (n <=? capacity a) with true by (symmetry; apply Z.leb_le; exact H).
  reflexivity.
Qed.

Lemma std_free_objs (w : World T) (p : Z) : objs (std_free w p) = objs w.
Proof. unfold std_free. destruct (p =? 0); reflexivity. Qed.

Lemma allocate_objs (w w1 : World T) (a : t) (nbytes p : Z) :
  allocate w a nbytes = Allocated p w1 -> objs w1 = objs w.
Proof.
  unfold allocate.
  destruct (negb (allocator a =? 0)).
  - destruct (arenas w !! allocator a) as [ar|]; [|discriminate].
    destruct (LinearAllocator.alloc_align ar (bytes w) nbytes alignT)
      as [[[q|e] ar'] m']; [|discriminate].
    intros H; inversion H; reflexivity.
  - unfold std_malloc.
    destruct (malloc (heap w) nbytes =? 0) eqn:Hp; [cbn; discriminate|].
    rewrite Hp. intros H; inversion H; reflexivity.
Qed.

(** A [reserve] that returns either changed nothing, or obtained storage
    for the requested capacity and moved the elements there. *)
Lemma reserve_returns (w w' : World T) (a a' : t) (n : Z) r :
  reserve w a n = Ret r w' a' ->
  (w' = w /\ a' = a /\ (r = Unexpected OutOfMemory \/ (r = Value tt /\ n <= capacity a)))
  \/ (r = Value tt /\ capacity a < n
      /\ exists p w1,
           allocate w a (wrap (sizeT * n)) = Allocated p w1
           /\ a' = mk p (size a) n (allocator a) (owns_allocator a)
           /\ objs w' = objs (move_elements a p w1)).
Proof.
  unfold reserve. destruct (n <=? capacity a) eqn:Hn.
  - intros H; inversion H; subst. left. apply Z.leb_le in Hn. auto.
  - apply Z.leb_gt in Hn.
    destruct (allocate w a _) as [p w1|w1|] eqn:Hal; [| |discriminate].
    + intros H; inversion H; subst. right. repeat split; [exact Hn|].
      exists p, w1. repeat split.
      destruct (_ && _); [apply std_free_objs|reflexivity].
    + apply allocate_failed_unchanged in Hal. subst w1.
      intros H; inversion H; subst. left. auto.
Qed.

Lemma reserve_inv (w w' : World T) (a a' : t) (n : Z) r :
  inv a -> is_size_t n -> reserve w a n = Ret r w' a' -> inv a'.
Proof.
  intros Hi Hn H. apply reserve_returns in H.
  destruct H as [(_ & -> & _)|(_ & Hlt & p & w1 & _ & -> & _)]; [exact Hi|].
  unfold inv, is_size_t in *. cbn. lia.
Qed.

(** After a successful [reserve(n)] there is room for [n] elements. *)
Lemma reserve_capacity (w w' : World T) (a a' : t) (n : Z) :
  reserve w a n = Ret (Value tt) w' a' -> n <= capacity a' /\ size a' = size a.
Proof.
  intros H. apply reserve_returns in H.
  destruct H as [(_ & -> & [H|[_ H]])|(_ & Hlt & p & w1 & _ & -> & _)].
  - discriminate.
  - auto.
  - cbn. lia.
Qed.

Lemma grow_capacity_range (a : t) (m nc : Z) :
  is_size_t m -> grow_capacity a m = Some nc -> is_size_t nc /\ m <= nc.
Proof.
  intros Hm. unfold grow_capacity.
  destruct (if capacity a =? 0 then _ else _) as [nc0|] eqn:H0; [|discriminate].
  assert (Hr : is_size_t nc0).
  { destruct (capacity a =? 0).
    - inversion H0. unfold DEFAULT_CAPACITY, is_size_t, SIZE_MOD, SIZE_BITS. lia.
    - destruct (Float32.times_growth_factor (capacity a)); [|discriminate].
      inversion H0. apply wrap_range. }
  intros H; inversion H; subst.
  destruct (nc0 <? m) eqn:Hlt.
  - split; [exact Hm|lia].
  - apply Z.ltb_ge in Hlt. split; [exact Hr|lia].
Qed.

(** The largest capacity cannot grow: the float product does not fit. *)
Lemma grow_capacity_at_max (a : t) (m : Z) :
  capacity a = SIZE_MOD - 1 -> grow_capacity a m = None.
Proof. intros H. unfold grow_capacity. rewrite H. reflexivity. Qed.

Lemma grow_returns (w w' : World T) (a a' : t) (m : Z) r :
  grow w a m = Ret r w' a' ->
  exists nc, grow_capacity a m = Some nc /\ reserve w a nc = Ret r w' a'.
Proof.
  unfold grow. destruct (grow_capacity a m) as [nc|]; [|discriminate].
  intros H. exists nc. auto.
Qed.

Lemma and_then_returns (r0 : result T) (k : World T -> t -> result T) r w' a' :
  and_then r0 k = Ret r w' a' ->
  (exists e, r0 = Ret (Unexpected e) w' a' /\ r = Unexpected e)
  \/ (exists u w0 a0, r0 = Ret (Value u) w0 a0 /\ k w0 a0 = Ret r w' a').
Proof.
  destruct r0 as [[u|e] w0 a0| |]; cbn; try discriminate.
  - intros H. right. eauto.
  - intros H; inversion H; subst. left. eauto.
Qed.

(** The first step of [push_back] and [insert]: room for one more element. *)
Lemma make_room_returns (w w' : World T) (a a' : t) r :
  inv a ->
  (if capacity a <=? size a then grow w a (wrap (size a + 1)) else Ret (Value tt) w a)
  = Ret r w' a' ->
  inv a' /\ size a' = size a /\ size a + 1 < SIZE_MOD
  /\ (r = Value tt -> size a < capacity a').
Proof.
  intros Hi. destruct (capacity a <=? size a) eqn:Hc.
  - apply Z.leb_le in Hc. intros H.
    apply grow_returns in H. destruct H as (nc & Hnc & Hres).
    assert (Hmax : capacity a <> SIZE_MOD - 1).
    { intros E. rewrite (grow_capacity_at_max a _ E) in Hnc. discriminate. }
    assert (Hs : size a + 1 < SIZE_MOD) by (unfold inv in Hi; lia).
    rewrite wrap_small in Hnc by (unfold is_size_t, inv in *; lia).
    apply grow_capacity_range in Hnc; [|unfold is_size_t, inv in *; lia].
    destruct Hnc as [Hr Hle].
    split; [eapply reserve_inv; eassumption|].
    destruct r as [[]|e].
    + apply reserve_capacity in Hres. destruct Hres as [H1 H2].
      repeat split; [exact H2|exact Hs|intros _; lia].
    + apply reserve_error in Hres. destruct Hres as (_ & _ & ->).
      repeat split; [exact Hs|discriminate].
  - apply Z.leb_gt in Hc. intros H; inversion H; subst.
    unfold inv in *. repeat split; try lia.
Qed.

Lemma set_size_inv (a : t) (n : Z) :
  inv a -> 0 <= n <= capacity a -> inv (set_size a n).
Proof. unfold inv. cbn. lia. Qed.

Lemma push_back_inv (w w' : World T) (a a' : t) (v : arg T) r :
  inv a -> push_back w a v = Ret r w' a' -> inv a'.
Proof.
  intros Hi H. unfold push_back in H. apply and_then_returns in H.
  destruct H as [(e & H & _)|(u & w0 & a0 & H & Hk)].
  - apply make_room_returns in H; tauto.
  - destruct u. apply make_room_returns in H; [|exact Hi].
    destruct H as (Hi0 & Hs & Hlt & Hc). specialize (Hc eq_refl).
    inversion Hk; subst. apply set_size_inv; [exact Hi0|].
    rewrite wrap_small by (unfold is_size_t, inv in *; lia).
    unfold inv in *. lia.
Qed.

Lemma insert_inv (w w' : World T) (a a' : t) (p : Z) (v : arg T) r :
  inv a -> insert w a p v = Ret r w' a' -> inv a'.
Proof.
  intros Hi H. unfold insert in H.
  destruct (size a <? p); [inversion H; subst; exact Hi|].
  apply and_then_returns in H.
  destruct H as [(e & H & _)|(u & w0 & a0 & H & Hk)].
  - apply make_room_returns in H; tauto.
  - destruct u. apply make_room_returns in H; [|exact Hi].
    destruct H as (Hi0 & Hs & Hlt & Hc). specialize (Hc eq_refl).
    inversion Hk; subst. apply set_size_inv; [exact Hi0|].
    rewrite wrap_small by (unfold is_size_t, inv in *; lia).
    unfold inv in *. lia.
Qed.

Lemma resize_inv (w w' : World T) (a a' : t) (n : Z) (v : arg T) r :
  inv a -> is_size_t n -> resize w a n v = Ret r w' a' -> inv a'.
Proof.
  intros Hi Hn H. unfold resize in H. apply and_then_returns in H.
  destruct H as [(e & H & _)|(u & w0 & a0 & H & Hk)].
  - destruct (capacity a <? n); [|discriminate].
    eapply reserve_inv; eassumption.
  - destruct u. inversion Hk; subst.
    destruct (capacity a <? n) eqn:Hc.
    + pose proof (reserve_inv _ _ _ _ _ _ Hi Hn H) as Hi0.
      apply reserve_capacity in H.
      apply set_size_inv; [exact Hi0|]. unfold is_size_t in Hn. lia.
    + apply Z.ltb_ge in Hc. inversion H; subst.
      apply set_size_inv; [exact Hi|]. unfold is_size_t in Hn. lia.
Qed.

Lemma shrink_to_fit_inv (w w' : World T) (a a' : t) r :
  inv a -> shrink_to_fit w a = Ret r w' a' -> inv a'.
Proof.
  intros Hi. unfold shrink_to_fit.
  destruct (size a =? capacity a); [intros H; inversion H; subst; exact Hi|].
  destruct (size a =? 0) eqn:H0.
  - apply Z.eqb_eq in H0. intros H; inversion H; subst.
    unfold inv, SIZE_MOD, SIZE_BITS in *. cbn. lia.
  - destruct (allocate w a _) as [p w1|w1|]; [| |discriminate].
    + intros H; inversion H; subst. unfold inv in *. cbn. lia.
    + intros H; inversion H; subst. exact Hi.
Qed.

Lemma pop_back_inv (w w' : World T) (a a' : t) r :
  inv a -> pop_back w a = Ret r w' a' -> inv a'.
Proof.
  intros Hi. unfold pop_back, empty.
  destruct (size a =? 0) eqn:H0; [intros H; inversion H; subst; exact Hi|].
  apply Z.eqb_neq in H0. intros H; inversion H; subst.
  rewrite wrap_small by (unfold is_size_t, inv in *; lia).
  apply set_size_inv; [exact Hi|]. unfold inv in Hi. lia.
Qed.

Lemma erase_range_inv (w w' : World T) (a a' : t) (first last : Z) r :
  inv a -> 0 <= first -> erase_range w a first last = Ret r w' a' -> inv a'.
Proof.
  intros Hi Hf. unfold erase_range.
  destruct (_ || _) eqn:Hg; [intros H; inversion H; subst; exact Hi|].
  apply orb_false_elim in Hg. destruct Hg as [Hg H3].
  apply orb_false_elim in Hg. destruct Hg as [H1 H2].
  apply Z.leb_gt in H1. apply Z.ltb_ge in H2, H3.
  destruct (first =? last); [intros H; inversion H; subst; exact Hi|].
  intros H; inversion H; subst.
  rewrite (wrap_small (last - first)) by (unfold is_size_t, inv in *; lia).
  rewrite wrap_small by (unfold is_size_t, inv in *; lia).
  apply set_size_inv; [exact Hi|]. unfold inv in Hi. lia.
Qed.

Lemma run_op_inv (o : op) (w w' : World T) (a a' : t) r :
  inv a -> op_in_range o -> run_op o w a = Ret r w' a' -> inv a'.
Proof.
  intros Hi Ho.
  destruct o as [n|n v| |v|v| |p v|p|f l|i| | |]; cbn [run_op op_in_range] in *.
  - apply reserve_inv; assumption.
  - apply resize_inv; assumption.
  - apply shrink_to_fit_inv; assumption.
  - apply push_back_inv; assumption.
  - apply (push_back_inv w w' a a' v r Hi).
  - apply pop_back_inv; assumption.
  - apply insert_inv; assumption.
  - unfold erase. apply erase_range_inv; [assumption|unfold is_size_t in Ho; lia].
  - apply erase_range_inv; [assumption|unfold is_size_t in Ho; lia].
  - destruct (at_ a i); cbn; intros H; inversion H; subst; exact Hi.
  - destruct (front a); cbn; intros H; inversion H; subst; exact Hi.
  - destruct (back a); cbn; intros H; inversion H; subst; exact Hi.
  - unfold clear. intros H; inversion H; subst.
    apply set_size_inv; [exact Hi|]. unfold inv in Hi. lia.
Qed.

Lemma init_inv (al : Z) (own : bool) : inv (init al own).
Proof. unfold inv, init, SIZE_MOD, SIZE_BITS. cbn. lia. Qed.

Lemma assert_has_value_returns (r0 : result T) u w' a' :
  assert_has_value r0 = Ret u w' a' -> r0 = Ret (Value tt) w' a'.
Proof.
  destruct r0 as [[[]|e] w0 a0| |]; cbn; try discriminate.
  intros H; inversion H; reflexivity.
Qed.

Lemma push_all_inv (l : list T) (w w' : World T) (a a' : t) u :
  inv a -> push_all w a l = Ret u w' a' -> inv a'.
Proof.
  revert w a. induction l as [|x l IH]; intros w a Hi; cbn [push_all].
  - intros H; inversion H; subst; exact Hi.
  - destruct (push_back w a (Temp x)) as [r w1 a1| |] eqn:Hp; try discriminate.
    apply IH. eapply push_back_inv; eassumption.
Qed.

(** Every array satisfies [0 <= size <= capacity]. *)
Lemma reachable_inv (w : World T) (a : t) : reachable w a -> inv a.
Proof.
  induction 1 as [w w' a H|w n w' a Hn H|w al own w' a H|w n al own w' a Hn H
                 |w l w' a Hn H|o w a r w' a' _ IH Ho H].
  - apply assert_has_value_returns in H.
    eapply reserve_inv; [apply init_inv| |exact H].
    unfold is_size_t, DEFAULT_CAPACITY, SIZE_MOD, SIZE_BITS; lia.
  - apply assert_has_value_returns in H.
    eapply reserve_inv; [apply init_inv|exact Hn|exact H].
  - apply assert_has_value_returns in H.
    eapply reserve_inv; [apply init_inv| |exact H].
    unfold is_size_t, DEFAULT_CAPACITY, SIZE_MOD, SIZE_BITS; lia.
  - apply assert_has_value_returns in H.
    eapply reserve_inv; [apply init_inv|exact Hn|exact H].
  - unfold ctor_initializer_list in H.
    destruct (assert_has_value _) as [u w1 a1| |] eqn:H1; try discriminate.
    apply assert_has_value_returns in H1.
    eapply push_all_inv; [|exact H].
    eapply reserve_inv; [apply init_inv|exact Hn|exact H1].
  - eapply run_op_inv; eassumption.
Qed.

End ArrayInvariant.

Section RoundTrip.
Import DynArray.
Context {T : Type} {ET : ElemType T} {SA : StdAllocator}.

(** The elements are found in the storage [reserve] leaves the array with,
    when that storage is not laid over the elements it moved. *)
Lemma reserve_elements (w w' : World T) (a a' : t) (n : Z) :
  0 < sizeT -> 0 <= size a ->
  reserve w a n = Ret (Value tt) w' a' ->
  capacity a' = capacity a
  \/ apart (data a') (size a * sizeT) (data a) (size a * sizeT) ->
  forall i, 0 <= i < size a -> objs w' !! slot a' i = objs w !! slot a i.
Proof.
  intros Hsz Hs H Hap i Hi. apply reserve_returns in H.
  destruct H as [(-> & -> & _)|(_ & Hlt & p & w1 & Hal & -> & Ho)]; [reflexivity|].
  cbn [capacity data] in Hap. destruct Hap as [Hc|Hap]; [lia|].
  apply allocate_objs in Hal.
  rewrite Ho. unfold move_elements, for_range, slot. cbn [data].
  pose proof (move_loop_lookup p (data a) (Z.to_nat (size a - 0)) 0 w1 Hsz) as Hm.
  destruct Hm as [Hin _].
  - intros k j Hk Hj. apply apart_slots with (n := size a); try assumption; lia.
  - destruct (Hin i) as [Hv _]; [lia|]. unfold slot in Hv. rewrite Hv, Hal.
    reflexivity.
Qed.


End RoundTrip.

Section Reserve.
Import DynArray.
Context {T : Type} {ET : ElemType T} {SA : StdAllocator}.

Lemma move_step_storage (d s : Z) (w : World T) : same_storage w (move_step d s w).
Proof.
  unfold move_step, move_construct.
  eapply same_storage_trans; [apply copy_construct_storage|apply destroy_storage].
Qed.

Lemma move_elements_storage (a : t) (p : Z) (w : World T) :
  same_storage w (move_elements a p w).
Proof.
  unfold move_elements, for_range. apply for_up_storage.
  intros i w0. apply move_step_storage.
Qed.

(** The elements after a move step depend on the elements before it only. *)
Lemma move_step_objs (d s : Z) (w1 w2 : World T) :
  objs w1 = objs w2 -> objs (move_step d s w1) = objs (move_step d s w2).
Proof.
  intros H. apply map_eq. intros q. rewrite !move_step_lookup, H. reflexivity.
Qed.

Lemma move_fold_objs (f g : Z -> Z) (l : list Z) (w1 w2 : World T) :
  objs w1 = objs w2 ->
  objs (fold_left (fun w i => move_step (f i) (g i) w) l w1)
  = objs (fold_left (fun w i => move_step (f i) (g i) w) l w2).
Proof.
  revert w1 w2. induction l as [|i l IH]; intros w1 w2 H; [exact H|].
  cbn [fold_left]. apply IH, move_step_objs, H.
Qed.

(** The loop of [reserve] moves the elements one by one, index [0] first. *)
Lemma move_elements_in_order (a : t) (p : Z) (w1 w : World T) :
  0 <= size a -> objs w1 = objs w ->
  objs (move_elements a p w1)
  = objs (fold_left (fun w i => move_step (p + i * sizeT) (slot a i) w)
            (seqZ 0 (size a)) w).
Proof.
  intros Hs H. unfold move_elements. rewrite for_range_fold by exact Hs.
  rewrite Z.sub_0_r. apply move_fold_objs, H.
Qed.

(** After the loop of [reserve] the elements are in the new storage, in the
    same order, and the old slots hold nothing. *)
Lemma move_elements_result (a : t) (p : Z) (w1 w : World T) :
  0 < sizeT -> 0 <= size a -> objs w1 = objs w ->
  apart p (size a * sizeT) (data a) (size a * sizeT) ->
  forall i, 0 <= i < size a ->
    objs (move_elements a p w1) !! (p + i * sizeT) = objs w !! slot a i
    /\ objs (move_elements a p w1) !! slot a i = None.
Proof.
  intros Hsz Hs Ho Hap i Hi. unfold move_elements, for_range, slot.
  pose proof (move_loop_lookup p (data a) (Z.to_nat (size a - 0)) 0 w1 Hsz) as Hm.
  destruct Hm as [Hin _].
  - intros k j Hk Hj. apply apart_slots with (n := size a); try assumption; lia.
  - destruct (Hin i) as [H1 H2]; [lia|]. unfold slot in *.
    rewrite H1, H2, Ho. split; reflexivity.
Qed.

Lemma allocate_heap (w : World T) (a : t) (nbytes : Z) :
  allocator a = 0 ->
  allocate w a nbytes
  = if malloc (heap w) nbytes =? 0 then AllocFailed w
    else Allocated (malloc (heap w) nbytes)
           (mkWorld (<[malloc (heap w) nbytes := nbytes]> (heap w))
                    (arenas w) (bytes w) (objs w)).
Proof.
  intros Ha. unfold allocate, std_malloc. rewrite Ha. cbn [Z.eqb negb].
  destruct (malloc (heap w) nbytes =? 0) eqn:Hp; [reflexivity|].
  rewrite Hp. reflexivity.
Qed.

Lemma allocate_arena (w : World T) (a : t) (nbytes : Z) (ar : LinearAllocator.t) :
  allocator a <> 0 -> arenas w !! allocator a = Some ar ->
  allocate w a nbytes
  = let '(r, ar', m') := LinearAllocator.alloc_align ar (bytes w) nbytes alignT in
    match r with
    | Unexpected _ =>
        AllocFailed (mkWorld (heap w) (<[allocator a := ar']> (arenas w)) m' (objs w))
    | Value p =>
        Allocated p (mkWorld (heap w) (<[allocator a := ar']> (arenas w)) m' (objs w))
    end.
Proof.
  intros Ha Har. unfold allocate.
  replace (allocator a =? 0) with false by (symmetry; apply Z.eqb_neq; exact Ha).
  cbn [negb]. rewrite Har. reflexivity.
Qed.

(** C3 (counterexample).  On an empty array of [int] (4 bytes each),
    [reserve(2^62 + 1)] multiplies in [size_t]: the request to [malloc] is
    for [4 * (2^62 + 1) mod 2^64 = 4] bytes.  The call succeeds and sets the
    capacity to [2^62 + 1] over a block of 4 bytes, one slot. *)
Lemma reserve_request_wraps :
  reserve (ET := Samples.int_elem) (SA := Samples.bump_heap)
    Samples.empty_world (init 0 false) (2 ^ 62 + 1)
  = Ret (Value tt)
      (mkWorld {[ 4096 := 4 ]} ∅ (fun _ => 0) ∅)
      (mk 4096 0 (2 ^ 62 + 1) 0 false)
  /\ 4 < sizeT (ElemType := Samples.int_elem) * (2 ^ 62 + 1).
Proof. split; [vm_compute; reflexivity|reflexivity]. Qed.

(** What the release of the old block at the end of [reserve] changes. *)
Lemma reserve_release (w2 : World T) (a : t) :
  let w3 := if negb (data a =? 0) && (allocator a =? 0)
            then std_free w2 (data a) else w2 in
  objs w3 = objs w2 /\ bytes w3 = bytes w2 /\ arenas w3 = arenas w2
  /\ heap w3 = if (allocator a =? 0) && negb (data a =? 0)
               then delete (data a) (heap w2) else heap w2.
Proof.
  unfold std_free.
  destruct (data a =? 0) eqn:Hd, (allocator a =? 0); cbn; rewrite ?Hd; auto.
Qed.

Lemma reserve_moved (w w1 w' : World T) (a : t) (p n : Z) :
  0 < sizeT -> 0 <= size a ->
  objs w1 = objs w -> objs w' = objs (move_elements a p w1) ->
  elements_moved w w' a (mk p (size a) n (allocator a) (owns_allocator a)).
Proof.
  intros Hsz Hs Ho Ho'. unfold elements_moved. cbn [data].
  split.
  - rewrite Ho'. unfold slot at 1. cbn [data].
    apply move_elements_in_order; assumption.
  - intros Hap. split.
    + apply elements_ext; [reflexivity|]. intros i Hi.
      unfold slot at 1. cbn [data]. rewrite Ho'.
      apply (move_elements_result a p w1 w); assumption.
    + intros i Hi. rewrite Ho'.
      apply (move_elements_result a p w1 w); assumption.
Qed.

(** C3 (amended).  [reserve(n)] with [n <= capacity] succeeds and changes
    nothing.  With [n > capacity] and [n * sizeof(T)] within [size_t], it
    asks for exactly [n * sizeof(T)] bytes, from the arena by [alloc_align]
    if one is attached and from [malloc] otherwise; on success the array has
    the new storage and capacity [n], the elements were moved one by one in
    ascending index order (so that, the new storage being apart from the
    old elements, the array holds the same elements and the old slots hold
    none), and the old block is freed only when no arena is attached.  When
    the allocation fails, [reserve] returns [OutOfMemory] and neither the
    array nor the world has changed. *)
Theorem reserve_contract (w : World T) (a : t) (n : Z) :
  0 < sizeT -> 0 <= size a ->
  (n <= capacity a -> reserve w a n = Ret (Value tt) w a)
  /\ (forall e w' a', reserve w a n = Ret (Unexpected e) w' a' ->
        e = OutOfMemory /\ w' = w /\ a' = a)
  /\ (capacity a < n -> 0 <= sizeT * n < SIZE_MOD ->
      (allocator a = 0 ->
         let p := malloc (heap w) (sizeT * n) in
         if p =? 0 then reserve w a n = Ret (Unexpected OutOfMemory) w a
         else exists w',
             let a' := mk p (size a) n (allocator a) (owns_allocator a) in
             reserve w a n = Ret (Value tt) w' a'
             /\ elements_moved w w' a a'
             /\ heap w' = (if data a =? 0 then <[p := sizeT * n]> (heap w)
                           else delete (data a) (<[p := sizeT * n]> (heap w)))
             /\ arenas w' = arenas w /\ bytes w' = bytes w)
      /\ (allocator a <> 0 ->
          forall ar, arenas w !! allocator a = Some ar ->
          match LinearAllocator.alloc_align ar (bytes w) (sizeT * n) alignT with
          | (Unexpected _, _, _) =>
              reserve w a n = Ret (Unexpected OutOfMemory) w a
          | (Value p, ar', m') =>
              exists w',
                let a' := mk p (size a) n (allocator a) (owns_allocator a) in
                reserve w a n = Ret (Value tt) w' a'
                /\ elements_moved w w' a a'
                /\ heap w' = heap w
                /\ arenas w' = <[allocator a := ar']> (arenas w)
                /\ bytes w' = m'
          end)).
Proof.
  intros Hsz Hs. split; [apply reserve_noop|].
  split; [intros e w' a'; apply reserve_error|].
  intros Hlt Hn.
  assert (Hw : wrap (sizeT * n) = sizeT * n) by (apply wrap_small; exact Hn).
  split.
  - intros Ha. cbv zeta. unfold reserve.
    replace (n <=? capacity a) with false by (symmetry; apply Z.leb_gt; exact Hlt).
    rewrite allocate_heap by exact Ha. rewrite Hw.
    destruct (malloc (heap w) (sizeT * n) =? 0) eqn:Hp; [reflexivity|].
    set (p := malloc (heap w) (sizeT * n)) in *.
    set (w1 := mkWorld (<[p := sizeT * n]> (heap w)) (arenas w) (bytes w) (objs w)).
    destruct (move_elements_storage a p w1) as (Hh & Har & Hby).
    destruct (reserve_release (move_elements a p w1) a) as (Ho3 & Hb3 & Ha3 & Hh3).
    eexists. split; [reflexivity|].
    split; [apply (reserve_moved w w1); try assumption; reflexivity|].
    assert (E1 : arenas w1 = arenas w) by reflexivity.
    assert (E2 : bytes w1 = bytes w) by reflexivity.
    split; [|split; congruence].
    rewrite Hh3, Hh, Ha. cbn [Z.eqb andb].
    destruct (data a =? 0); reflexivity.
  - intros Ha ar Har. unfold reserve.
    replace (n <=? capacity a) with false by (symmetry; apply Z.leb_gt; exact Hlt).
    rewrite (allocate_arena w a _ ar Ha Har). rewrite Hw.
    destruct (LinearAllocator.alloc_align ar (bytes w) (sizeT * n) alignT)
      as [[[p|e] ar'] m'] eqn:Hal.
    + set (w1 := mkWorld (heap w) (<[allocator a := ar']> (arenas w)) m' (objs w)).
      destruct (move_elements_storage a p w1) as (Hh & Har' & Hby).
      destruct (reserve_release (move_elements a p w1) a) as (Ho3 & Hb3 & Ha3 & Hh3).
      eexists. split; [reflexivity|].
      split; [apply (reserve_moved w w1); try assumption; reflexivity|].
      assert (Haz : (allocator a =? 0) = false) by (apply Z.eqb_neq; exact Ha).
      rewrite Haz in *. cbn [andb] in Hh3.
      assert (E1 : heap w1 = heap w) by reflexivity.
      assert (E2 : arenas w1 = <[allocator a := ar']> (arenas w)) by reflexivity.
      assert (E3 : bytes w1 = m') by reflexivity.
      repeat split; congruence.
    + apply alloc_align_error_unchanged in Hal. destruct Hal as [-> ->].
      rewrite insert_id by exact Har. rewrite world_eta. reflexivity.
Qed.

End Reserve.

(** An array of capacity 1 holding [10], on the heap: [reserve(3)] moves it
    to a block of 12 bytes and frees the old one.  An array of capacity 3
    holding [10, 20, 30] in an arena: [reserve(5)] moves it to a block of 20
    bytes of the arena, and the heap is not touched. *)
Lemma reserve_contract_witness :
  (exists w',
     DynArray.reserve (ET := Samples.int_elem) (SA := Samples.bump_heap)
       (DynArray.mkWorld {[ 4096 := 4 ]} ∅ (fun _ => 0) {[ 4096 := 10 ]})
       (DynArray.mk 4096 1 1 0 false) 3
     = DynArray.Ret (Value tt) w' (DynArray.mk 4112 1 3 0 false)
     /\ DynArray.heap w' = {[ 4112 := 12 ]}
     /\ DynArray.elements (ET := Samples.int_elem) w' (DynArray.mk 4112 1 3 0 false)
        = [Some 10])
  /\ (exists w',
       DynArray.reserve (ET := Samples.int_elem) (SA := Samples.bump_heap)
         (DynArray.mkWorld ∅ {[ 512 := LinearAllocator.mk 8192 64 0 12 ]}
            (fun _ => 0) (list_to_map [(8192, 10); (8196, 20); (8200, 30)]))
         (DynArray.mk 8192 3 3 512 false) 5
       = DynArray.Ret (Value tt) w' (DynArray.mk 8204 3 5 512 false)
       /\ DynArray.heap w' = ∅
       /\ DynArray.arenas w' = {[ 512 := LinearAllocator.mk 8192 64 12 32 ]}
       /\ DynArray.elements (ET := Samples.int_elem) w'
            (DynArray.mk 8204 3 5 512 false)
          = [Some 10; Some 20; Some 30]).
Proof.
  split.
  - destruct (reserve_contract (ET := Samples.int_elem) (SA := Samples.bump_heap)
                (DynArray.mkWorld {[ 4096 := 4 ]} ∅ (fun _ => 0) {[ 4096 := 10 ]})
                (DynArray.mk 4096 1 1 0 false) 3)
      as (_ & _ & H).
    + reflexivity.
    + cbn; lia.
    + destruct H as [H _].
      * cbn; lia.
      * unfold SIZE_MOD, SIZE_BITS; cbn; lia.
      * specialize (H eq_refl).
        destruct H as (w' & Hres & Hmoved & Hheap & _).
        destruct Hmoved as [_ Hel].
        destruct Hel as [Hel _];
          [unfold DynArray.apart; right; vm_compute; discriminate|].
        exists w'. split; [exact Hres|]. split; [|exact Hel].
        rewrite Hheap. vm_compute. reflexivity.
  - destruct (reserve_contract (ET := Samples.int_elem) (SA := Samples.bump_heap)
                (DynArray.mkWorld ∅ {[ 512 := LinearAllocator.mk 8192 64 0 12 ]}
                   (fun _ => 0) (list_to_map [(8192, 10); (8196, 20); (8200, 30)]))
                (DynArray.mk 8192 3 3 512 false) 5)
      as (_ & _ & H).
    + reflexivity.
    + cbn; lia.
    + destruct H as [_ H].
      * cbn; lia.
      * unfold SIZE_MOD, SIZE_BITS; cbn; lia.
      * specialize (H ltac:(discriminate) (LinearAllocator.mk 8192 64 0 12) eq_refl).
        destruct H as (w' & Hres & Hmoved & Hheap & Harenas & _).
        destruct Hmoved as [_ Hel].
        destruct Hel as [Hel _];
          [unfold DynArray.apart; right; vm_compute; discriminate|].
        exists w'. split; [exact Hres|]. split; [exact Hheap|].
        split; [|exact Hel].
        rewrite Harenas. vm_compute. reflexivity.
Defined.

Section Copy.
Import DynArray.
Context {T : Type} {ET : ElemType T} {SA : StdAllocator}.

(** The destruction loop touches the slots it destroys only. *)
Lemma destroy_loop_frame (p : Z) (n : nat) (i0 : Z) (w : World T) (q : Z) :
  (forall j, i0 <= j < i0 + Z.of_nat n -> q <> p + j * sizeT) ->
  objs (for_up n i0 (fun i w => destroy w (p + i * sizeT)) w) !! q = objs w !! q.
Proof.
  revert i0 w. induction n as [|n IH]; intros i0 w Hq; [reflexivity|].
  cbn [for_up]. rewrite IH by (intros j Hj; apply Hq; lia).
  unfold destroy. cbn [objs]. apply lookup_delete_ne.
  intros E. symmetry in E. revert E. apply Hq. lia.
Qed.

(** [clear()] leaves the elements of an array stored apart as they are. *)
Lemma clear_frame (w : World T) (d s : t) (i : Z) :
  0 < sizeT ->
  apart (data d) (size d * sizeT) (data s) (size s * sizeT) ->
  0 <= i < size s ->
  objs (fst (clear w d)) !! slot s i = objs w !! slot s i.
Proof.
  intros Hsz Hap Hi. unfold clear, destroy_all, for_range, slot. cbn [fst].
  apply destroy_loop_frame. intros j Hj. unfold apart in Hap. nia.
Qed.

(** The copy loop brings the elements of [other] to the slots of [a]. *)
Lemma copy_elements_result (w : World T) (a other : t) (i : Z) :
  0 < sizeT ->
  apart (data a) (size other * sizeT) (data other) (size other * sizeT) ->
  0 <= i < size other ->
  objs (copy_elements a other w) !! slot a i = objs w !! slot other i.
Proof.
  intros Hsz Hap Hi. unfold copy_elements, for_range, slot.
  pose proof (copy_loop_lookup (data a) (data other)
                (Z.to_nat (size other - 0)) 0 w Hsz) as Hc.
  destruct Hc as [Hin _].
  - intros k j Hk Hj. apply apart_slots with (n := size other); try assumption; lia.
  - apply Hin. lia.
Qed.

(** [reserve] on an array without elements: what is left to know. *)
Lemma reserve_empty (w w1 : World T) (a a1 : t) (n : Z) :
  size a = 0 -> 0 <= n -> 0 <= capacity a ->
  reserve w a n = Ret (Value tt) w1 a1 ->
  size a1 = 0 /\ capacity a1 = Z.max (capacity a) n /\ objs w1 = objs w.
Proof.
  intros Hs Hn Hc H. apply reserve_returns in H.
  destruct H as [(-> & -> & [H|[_ H]])|(_ & Hlt & p & w0 & Hal & -> & Ho)].
  - discriminate.
  - repeat split; [exact Hs|lia].
  - cbn [size capacity]. repeat split; [exact Hs|lia|].
    rewrite Ho. apply allocate_objs in Hal. rewrite <- Hal.
    unfold move_elements, for_range. rewrite Hs. reflexivity.
Qed.

(** C2 (counterexample).  As in the example program: the array
    [{1, 2, 3, 4, 5}] has capacity 5, a default-constructed array has
    capacity 8; after the copy assignment of the first to the second, the
    destination still has capacity 8, not 5. *)
Lemma copy_assign_keeps_larger_capacity :
  exists w1 s w2 d w3 a3,
    ctor_initializer_list (ET := Samples.int_elem) (SA := Samples.bump_heap)
      Samples.empty_world [1; 2; 3; 4; 5] = Ret tt w1 s
    /\ ctor_default (ET := Samples.int_elem) (SA := Samples.bump_heap) w1
       = Ret tt w2 d
    /\ copy_assign (ET := Samples.int_elem) (SA := Samples.bump_heap)
         false w2 d s = Ret tt w3 a3
    /\ capacity s = 5 /\ capacity d = 8
    /\ capacity a3 = 8 /\ capacity a3 <> capacity s.
Proof.
  eexists _, _, _, _, _, _.
  split; [vm_compute; reflexivity|].
  split; [vm_compute; reflexivity|].
  split; [vm_compute; reflexivity|].
  repeat split. discriminate.
Qed.

(** C2 (amended).  For every source array [s]: copy construction from [s]
    yields an array on the heap, of the size and of exactly the capacity of
    [s]; copy assignment from [s] to another array [d] yields an array of the
    size of [s] whose capacity is the larger of the capacities of [d] and
    [s]: a destination whose capacity was already at least that of [s] keeps
    its data pointer and its storage (nothing is allocated or released).  In
    both cases the elements equal the live elements of [s], in order,
    provided the storage of the copy is apart from the elements of [s] and,
    for the assignment, the former elements of [d] are apart from them.  For
    the copy constructor this follows from what [malloc] returns, when [s]
    is itself a heap array whose block holds its capacity (at most [2^62]
    bytes).  Assigning an array to itself changes nothing.  The copy is made
    whenever the storage for it is obtained. *)
Theorem copy_semantics (w : World T) (s d : t) :
  0 < sizeT -> 0 <= size s -> 0 <= capacity s -> 0 <= capacity d ->
  (forall w' a', ctor_copy w s = Ret tt w' a' ->
     size a' = size s /\ capacity a' = capacity s /\ allocator a' = 0
     /\ (apart (data a') (size s * sizeT) (data s) (size s * sizeT) ->
         elements w' a' = elements w s)
     /\ (malloc_disjoint -> allocator s = 0 -> well_stored w s ->
         size s <= capacity s -> capacity s * sizeT <= 2 ^ 62 ->
         apart (data a') (size s * sizeT) (data s) (size s * sizeT)))
  /\ (capacity s = 0 \/ malloc (heap w) (wrap (sizeT * capacity s)) <> 0 ->
      exists w' a', ctor_copy w s = Ret tt w' a')
  /\ (forall w' a', copy_assign false w d s = Ret tt w' a' ->
        size a' = size s /\ capacity a' = Z.max (capacity d) (capacity s)
        /\ allocator a' = allocator d
        /\ (capacity s <= capacity d -> data a' = data d /\ same_storage w w')
        /\ (apart (data d) (size d * sizeT) (data s) (size s * sizeT) ->
            apart (data a') (size s * sizeT) (data s) (size s * sizeT) ->
            elements w' a' = elements w s))
  /\ (capacity s <= capacity d ->
      exists w' a', copy_assign false w d s = Ret tt w' a')
  /\ copy_assign true w s s = Ret tt w s.
Proof.
  intros Hsz Hs Hc Hd. split; [|split; [|split; [|split]]].
  - intros w' a' H. unfold ctor_copy in H.
    destruct (reserve w (init 0 false) (capacity s)) as [[[]|e] w1 a1| |] eqn:Hr;
      try discriminate.
    inversion H; subst w' a'; clear H.
    pose proof Hr as Hr2.
    assert (Hal1 : allocator a1 = allocator (init 0 false)).
    { pose proof Hr as Hr3. apply reserve_returns in Hr3.
      destruct Hr3 as [(_ & -> & _)|(_ & _ & p & w9 & _ & -> & _)]; reflexivity. }
    apply reserve_empty in Hr; [|reflexivity|exact Hc|cbn; lia].
    destruct Hr as (Hs1 & Hc1 & Ho1). cbn [capacity init] in Hc1.
    cbn [size capacity set_size data allocator].
    split; [reflexivity|]. split; [lia|]. split; [exact Hal1|]. split.
    + intros Hap. apply elements_ext; [reflexivity|]. intros i Hi.
      change (slot (set_size a1 (size s)) i) with (slot a1 i).
      rewrite copy_elements_result by assumption.
      rewrite Ho1. reflexivity.
    + intros Hmal Has Hws Hle Hbytes. unfold apart.
      destruct (Z_le_gt_dec (capacity s) 0) as [H0|Hpos].
      { assert (size s * sizeT = 0) by nia. lia. }
      unfold reserve in Hr2. cbn [capacity init] in Hr2.
      replace (capacity s <=? 0) with false in Hr2
        by (symmetry; apply Z.leb_gt; lia).
      rewrite allocate_heap in Hr2 by reflexivity.
      rewrite (wrap_small (sizeT * capacity s)) in Hr2
        by (unfold is_size_t, SIZE_MOD, SIZE_BITS; nia).
      destruct (malloc (heap w) (sizeT * capacity s) =? 0) eqn:Hp0; [discriminate|].
      apply Z.eqb_neq in Hp0. inversion Hr2; subst a1; clear Hr2. cbn [data].
      unfold well_stored in Hws. rewrite Has in Hws. cbn [Z.eqb] in Hws.
      destruct Hws as [[_ Hc0]|(nb & Hlive & _ & Hroom)]; [lia|].
      pose proof (Hmal (heap w) (sizeT * capacity s) Hp0 _ _ Hlive) as Hdis.
      unfold apart in Hdis. nia.
  - intros Hm. unfold ctor_copy, reserve. cbn [capacity init].
    destruct (capacity s <=? 0) eqn:Hle; [eauto|].
    apply Z.leb_gt in Hle. destruct Hm as [Hm|Hm]; [lia|].
    rewrite allocate_heap by reflexivity.
    replace (malloc (heap w) (wrap (sizeT * capacity s)) =? 0) with false
      by (symmetry; apply Z.eqb_neq; exact Hm).
    eauto.
  - intros w' a' H. unfold copy_assign in H.
    destruct (clear w d) as [w0 d0] eqn:Hcl.
    assert (Hd0 : d0 = set_size d 0) by (unfold clear in Hcl; congruence).
    assert (Hw0 : w0 = fst (clear w d)) by (rewrite Hcl; reflexivity).
    destruct (reserve w0 d0 (capacity s)) as [[[]|e] w1 a1| |] eqn:Hr;
      try discriminate.
    inversion H; subst w' a'; clear H.
    pose proof Hr as Hr2.
    assert (Hal1 : allocator a1 = allocator d0).
    { pose proof Hr as Hr3. apply reserve_returns in Hr3.
      destruct Hr3 as [(_ & -> & _)|(_ & _ & p & w9 & _ & -> & _)]; reflexivity. }
    apply reserve_empty in Hr; [|subst d0; reflexivity|exact Hc|subst d0; exact Hd].
    destruct Hr as (Hs1 & Hc1 & Ho1). rewrite Hd0 in Hc1. cbn [capacity set_size] in Hc1.
    cbn [size capacity set_size data allocator].
    split; [reflexivity|]. split; [exact Hc1|].
    split; [rewrite Hal1, Hd0; reflexivity|]. split.
    + intros Hle. rewrite reserve_noop in Hr2 by (subst d0; exact Hle).
      inversion Hr2; subst w1 a1; clear Hr2. rewrite Hd0. cbn [data set_size].
      split; [reflexivity|].
      apply same_storage_trans with (w2 := fst (clear w d)).
      * unfold clear, destroy_all. cbn [fst].
        apply for_up_storage. intros; apply destroy_storage.
      * rewrite Hw0. unfold copy_elements. apply for_up_storage.
        intros; apply copy_construct_storage.
    + intros Hap0 Hap. apply elements_ext; [reflexivity|]. intros i Hi.
      change (slot (set_size a1 (size s)) i) with (slot a1 i).
      rewrite copy_elements_result by assumption.
      rewrite Ho1, Hw0. apply clear_frame; assumption.
  - intros Hle. unfold copy_assign, clear.
    rewrite reserve_noop by exact Hle. eauto.
  - reflexivity.
Qed.

End Copy.

(** The arrays of the example program.  [{1, 2, 3, 4, 5}], of capacity 5,
    copied into a new array: the copy has capacity 5 and the same elements.
    The same array assigned to an empty array of capacity 8: the destination
    has the same elements and keeps capacity 8. *)
Lemma copy_semantics_witness :
  (DynArray.capacity (DynArray.mk 4128 5 5 0 false) = 5
   /\ DynArray.elements (ET := Samples.int_elem)
        (DynArray.mkWorld (<[ 4128 := 20 ]> {[ 4096 := 20 ]}) ∅ (fun _ => 0)
           (list_to_map [(4096, 1); (4100, 2); (4104, 3); (4108, 4); (4112, 5);
                         (4128, 1); (4132, 2); (4136, 3); (4140, 4); (4144, 5)]))
        (DynArray.mk 4128 5 5 0 false)
      = [Some 1; Some 2; Some 3; Some 4; Some 5])
  /\ (DynArray.capacity (DynArray.mk 4128 5 8 0 false) = 8
      /\ DynArray.elements (ET := Samples.int_elem)
           (DynArray.mkWorld (<[ 4128 := 32 ]> {[ 4096 := 20 ]}) ∅ (fun _ => 0)
              (list_to_map [(4096, 1); (4100, 2); (4104, 3); (4108, 4); (4112, 5);
                            (4128, 1); (4132, 2); (4136, 3); (4140, 4); (4144, 5)]))
           (DynArray.mk 4128 5 8 0 false)
         = [Some 1; Some 2; Some 3; Some 4; Some 5]).
Proof.
  assert (Hap : DynArray.apart 4128 (5 * 4) 4096 (5 * 4))
    by (right; vm_compute; discriminate).
  split.
  - destruct (copy_semantics (ET := Samples.int_elem) (SA := Samples.bump_heap)
                (DynArray.mkWorld {[ 4096 := 20 ]} ∅ (fun _ => 0)
                   (list_to_map [(4096, 1); (4100, 2); (4104, 3); (4108, 4);
                                 (4112, 5)]))
                (DynArray.mk 4096 5 5 0 false) (DynArray.mk 0 0 0 0 false))
      as (H & _); [reflexivity|cbn; lia|cbn; lia|cbn; lia|].
    destruct (H (DynArray.mkWorld (<[ 4128 := 20 ]> {[ 4096 := 20 ]}) ∅ (fun _ => 0)
                   (list_to_map [(4096, 1); (4100, 2); (4104, 3); (4108, 4);
                                 (4112, 5); (4128, 1); (4132, 2); (4136, 3);
                                 (4140, 4); (4144, 5)]))
                (DynArray.mk 4128 5 5 0 false))
      as (_ & Hcap & _ & Hel & _); [vm_compute; reflexivity|].
    split; [exact Hcap|exact (Hel Hap)].
  - destruct (copy_semantics (ET := Samples.int_elem) (SA := Samples.bump_heap)
                (DynArray.mkWorld (<[ 4128 := 32 ]> {[ 4096 := 20 ]}) ∅ (fun _ => 0)
                   (list_to_map [(4096, 1); (4100, 2); (4104, 3); (4108, 4);
                                 (4112, 5)]))
                (DynArray.mk 4096 5 5 0 false) (DynArray.mk 4128 0 8 0 false))
      as (_ & _ & H & _); [reflexivity|cbn; lia|cbn; lia|cbn; lia|].
    destruct (H (DynArray.mkWorld (<[ 4128 := 32 ]> {[ 4096 := 20 ]}) ∅ (fun _ => 0)
                   (list_to_map [(4096, 1); (4100, 2); (4104, 3); (4108, 4);
                                 (4112, 5); (4128, 1); (4132, 2); (4136, 3);
                                 (4140, 4); (4144, 5)]))
                (DynArray.mk 4128 5 8 0 false))
      as (_ & Hcap & _ & _ & Hel); [vm_compute; reflexivity|].
    split; [exact Hcap|].
    apply Hel; [right; vm_compute; discriminate|exact Hap].
Defined.

Section Growth.
Import DynArray.
Context {T : Type} {ET : ElemType T} {SA : StdAllocator}.

(** Integers of at most 24 bits are binary32 values. *)
Lemma round_exact (n : Z) : 0 <= n < 2 ^ 24 -> Float32.round n = n.
Proof.
  intros Hn. unfold Float32.round.
  destruct (n <=? 0) eqn:H0; [apply Z.leb_le in H0; lia|].
  apply Z.leb_gt in H0.
  replace (Z.log2 n + 1 <=? Float32.PRECISION) with true; [reflexivity|].
  symmetry. apply Z.leb_le. unfold Float32.PRECISION.
  assert (Z.log2 n < 24) by (apply Z.log2_lt_pow2; lia). lia.
Qed.

(** Up to capacity 5592408 the single-precision product is the exact one. *)
Lemma times_growth_factor_exact (c : Z) :
  0 <= c <= 5592408 -> Float32.times_growth_factor c = Some (c * 3 / 2).
Proof.
  intros Hc. destruct (Z_le_gt_dec c 5592405) as [Hle|Hgt].
  - unfold Float32.times_growth_factor, Float32.GROWTH_FACTOR_HALVES.
    rewrite (round_exact c) by lia. rewrite round_exact by lia.
    replace (3 * c) with (c * 3) by lia.
    replace (c * 3 / 2 <? SIZE_MOD) with true; [reflexivity|].
    symmetry. apply Z.ltb_lt. unfold SIZE_MOD, SIZE_BITS.
    assert (c * 3 / 2 <= c * 3) by (apply Z.div_le_upper_bound; lia). lia.
  - assert (Hcases : c = 5592406 \/ c = 5592407 \/ c = 5592408) by lia.
    destruct Hcases as [->|[->| ->]]; reflexivity.
Qed.

Lemma grow_capacity_exact (a : t) (min_capacity : Z) :
  0 <= capacity a <= 5592408 ->
  grow_capacity a min_capacity
  = Some (Z.max min_capacity
            (if capacity a =? 0 then 8 else capacity a * 3 / 2 + 1)).
Proof.
  intros Hc. unfold grow_capacity.
  assert (Hmax : forall nc, (if nc <? min_capacity then min_capacity else nc)
                            = Z.max min_capacity nc).
  { intros nc. destruct (nc <? min_capacity) eqn:E.
    - apply Z.ltb_lt in E. lia.
    - apply Z.ltb_ge in E. lia. }
  destruct (capacity a =? 0) eqn:H0.
  - rewrite Hmax. reflexivity.
  - rewrite times_growth_factor_exact by exact Hc. cbn [option_map].
    rewrite Hmax. rewrite wrap_small; [reflexivity|].
    unfold is_size_t, SIZE_MOD, SIZE_BITS.
    assert (0 <= capacity a * 3 / 2) by (apply Z.div_pos; lia).
    assert (capacity a * 3 / 2 <= capacity a * 3)
      by (apply Z.div_le_upper_bound; lia).
    lia.
Qed.

(** With room left, [push_back] constructs the element and is done. *)
Lemma push_back_with_room (w : World T) (a : t) (x : arg T) :
  size a < capacity a ->
  push_back w a x
  = Ret (Value tt) (construct_from w (slot a (size a)) x)
        (set_size a (wrap (size a + 1))).
Proof.
  intros H. unfold push_back.
  replace (capacity a <=? size a) with false by (symmetry; apply Z.leb_gt; exact H).
  reflexivity.
Qed.

(** A [reserve] served by the heap. *)
Lemma reserve_heap_success (w : World T) (a : t) (n : Z) :
  allocator a = 0 -> capacity a < n ->
  malloc (heap w) (wrap (sizeT * n)) <> 0 ->
  exists w',
    reserve w a n
    = Ret (Value tt) w'
        (mk (malloc (heap w) (wrap (sizeT * n))) (size a) n (allocator a)
            (owns_allocator a))
    /\ heap w' = (if data a =? 0
                  then <[malloc (heap w) (wrap (sizeT * n)) := wrap (sizeT * n)]> (heap w)
                  else delete (data a)
                         (<[malloc (heap w) (wrap (sizeT * n)) := wrap (sizeT * n)]>
                            (heap w))).
Proof.
  intros Ha Hlt Hp. unfold reserve.
  replace (n <=? capacity a) with false by (symmetry; apply Z.leb_gt; exact Hlt).
  rewrite allocate_heap by exact Ha.
  replace (malloc (heap w) (wrap (sizeT * n)) =? 0) with false
    by (symmetry; apply Z.eqb_neq; exact Hp).
  set (p := malloc (heap w) (wrap (sizeT * n))).
  set (w1 := mkWorld (<[p := wrap (sizeT * n)]> (heap w)) (arenas w) (bytes w) (objs w)).
  destruct (move_elements_storage a p w1) as (Hh & _ & _).
  destruct (reserve_release (move_elements a p w1) a) as (_ & _ & _ & Hh3).
  eexists. split; [reflexivity|].
  rewrite Hh3, Hh, Ha. cbn [Z.eqb andb]. destruct (data a =? 0); reflexivity.
Qed.

(** Four appends to an array built with capacity 3, the heap serving the
    two requests: the first three find room, the fourth grows to 5. *)
Lemma four_appends (w0 : World T) (x1 x2 x3 x4 : T) :
  let p1 := malloc (heap w0) (wrap (sizeT * 3)) in
  let p2 := malloc (<[p1 := wrap (sizeT * 3)]> (heap w0)) (wrap (sizeT * 5)) in
  p1 <> 0 -> p2 <> 0 ->
  exists w1 w2 w3 w4 w5,
    ctor_capacity w0 3 = Ret tt w1 (mk p1 0 3 0 false)
    /\ push_back w1 (mk p1 0 3 0 false) (Temp x1) = Ret (Value tt) w2 (mk p1 1 3 0 false)
    /\ push_back w2 (mk p1 1 3 0 false) (Temp x2) = Ret (Value tt) w3 (mk p1 2 3 0 false)
    /\ push_back w3 (mk p1 2 3 0 false) (Temp x3) = Ret (Value tt) w4 (mk p1 3 3 0 false)
    /\ grow w4 (mk p1 3 3 0 false) 4 = reserve w4 (mk p1 3 3 0 false) 5
    /\ push_back w4 (mk p1 3 3 0 false) (Temp x4) = Ret (Value tt) w5 (mk p2 4 5 0 false).
Proof.
  intros p1 p2 Hp1 Hp2.
  destruct (reserve_heap_success w0 (init 0 false) 3) as (w1 & Hr1 & Hh1);
    [reflexivity|cbn; lia|exact Hp1|].
  cbn [data init Z.eqb size allocator owns_allocator] in Hr1, Hh1. fold p1 in Hr1, Hh1.
  pose proof (push_back_with_room w1 (mk p1 0 3 0 false) (Temp x1)) as H1.
  pose proof (push_back_with_room
                (construct w1 (slot (mk p1 0 3 0 false) 0) x1)
                (mk p1 1 3 0 false) (Temp x2)) as H2.
  pose proof (push_back_with_room
                (construct (construct w1 (slot (mk p1 0 3 0 false) 0) x1)
                   (slot (mk p1 1 3 0 false) 1) x2)
                (mk p1 2 3 0 false) (Temp x3)) as H3.
  cbn [size capacity construct_from] in H1, H2, H3.
  set (w2 := construct w1 (slot (mk p1 0 3 0 false) 0) x1) in *.
  set (w3 := construct w2 (slot (mk p1 1 3 0 false) 1) x2) in *.
  set (w4 := construct w3 (slot (mk p1 2 3 0 false) 2) x3) in *.
  assert (Hh4 : heap w4 = <[p1 := wrap (sizeT * 3)]> (heap w0)) by exact Hh1.
  destruct (reserve_heap_success w4 (mk p1 3 3 0 false) 5) as (w5' & Hr5 & _);
    [reflexivity|cbn; lia|rewrite Hh4; exact Hp2|].
  rewrite Hh4 in Hr5. fold p2 in Hr5. cbn [size allocator owns_allocator] in Hr5.
  exists w1, w2, w3, w4, (construct w5' (slot (mk p2 3 5 0 false) 3) x4).
  split; [unfold ctor_capacity; rewrite Hr1; reflexivity|].
  split; [apply H1; lia|]. split; [apply H2; lia|]. split; [apply H3; lia|].
  split; [reflexivity|].
  unfold push_back. cbn [capacity size]. change (3 <=? 3) with true. cbv iota.
  change (wrap (3 + 1)) with 4.
  change (grow w4 (mk p1 3 3 0 false) 4) with (reserve w4 (mk p1 3 3 0 false) 5).
  rewrite Hr5. reflexivity.
Qed.

End Growth.

(** C5 (counterexample).  At capacity 5592409 the product by [1.5f] is
    8388613.5, which lies halfway between two binary32 values and is rounded
    to the even one, 8388614: [grow] asks for capacity 8388615, whereas
    [floor(5592409 * 1.5) + 1 = 8388614]. *)
Lemma grow_rounds_to_float :
  let a := DynArray.mk 4096 5592409 5592409 0 false in
  DynArray.grow_capacity a 5592410 = Some 8388615
  /\ Z.max 5592410 (5592409 * 3 / 2 + 1) = 8388614
  /\ DynArray.grow (ET := Samples.char_elem) (SA := Samples.bump_heap)
       Samples.empty_world a 5592410
     = DynArray.reserve (ET := Samples.char_elem) (SA := Samples.bump_heap)
         Samples.empty_world a 8388615.
Proof. repeat split. Qed.

Section GrowthClaim.
Import DynArray.
Context {T : Type} {ET : ElemType T} {SA : StdAllocator}.

(** C5 (amended).  [grow(min_capacity)] reserves
    [max(min_capacity, capacity == 0 ? 8 : floor(capacity * 1.5) + 1)] for
    every capacity up to 5592408 (beyond, the product is the single-precision
    one and can differ from [floor(capacity * 1.5)]); concretely, from an
    empty array of [int] built with capacity 3, on a heap that serves the
    two requests, the appends of 10, 20, 30, 40 succeed, the first three
    leave the capacity at 3 and the fourth grows it, once, to
    [floor(3 * 1.5) + 1 = 5]. *)
Theorem grow_policy (w : World T) (a : t) (min_capacity : Z) :
  0 <= capacity a <= 5592408 ->
  grow w a min_capacity
  = reserve w a (Z.max min_capacity
                   (if capacity a =? 0 then 8 else capacity a * 3 / 2 + 1))
  /\ forall (EZ : ElemType Z) (w0 : World Z),
       let p1 := malloc (heap w0) (wrap (sizeT * 3)) in
       let p2 := malloc (<[p1 := wrap (sizeT * 3)]> (heap w0))
                   (wrap (sizeT * 5)) in
       p1 <> 0 -> p2 <> 0 ->
       exists w1 w2 w3 w4 w5,
         ctor_capacity w0 3 = Ret tt w1 (mk p1 0 3 0 false)
         /\ push_back w1 (mk p1 0 3 0 false) (Temp 10) = Ret (Value tt) w2 (mk p1 1 3 0 false)
         /\ push_back w2 (mk p1 1 3 0 false) (Temp 20) = Ret (Value tt) w3 (mk p1 2 3 0 false)
         /\ push_back w3 (mk p1 2 3 0 false) (Temp 30) = Ret (Value tt) w4 (mk p1 3 3 0 false)
         /\ grow w4 (mk p1 3 3 0 false) 4 = reserve w4 (mk p1 3 3 0 false) 5
         /\ push_back w4 (mk p1 3 3 0 false) (Temp 40) = Ret (Value tt) w5 (mk p2 4 5 0 false).
Proof.
  intros Hc. split.
  - unfold grow. rewrite grow_capacity_exact by exact Hc. reflexivity.
  - intros EZ w0. apply (four_appends (T := Z) (ET := EZ) w0 10 20 30 40).
Qed.

End GrowthClaim.

(** Capacity 3 grows to [max(4, floor(3 * 1.5) + 1) = 5]; on the sample heap
    the array is built at 4096 and regrown at 4112. *)
Lemma grow_policy_witness :
  DynArray.grow (ET := Samples.int_elem) (SA := Samples.bump_heap)
    Samples.empty_world (DynArray.mk 4096 3 3 0 false) 4
  = DynArray.reserve (ET := Samples.int_elem) (SA := Samples.bump_heap)
      Samples.empty_world (DynArray.mk 4096 3 3 0 false) 5
  /\ exists w1 w2 w3 w4 w5,
       DynArray.ctor_capacity (ET := Samples.int_elem) (SA := Samples.bump_heap)
         Samples.empty_world 3 = DynArray.Ret tt w1 (DynArray.mk 4096 0 3 0 false)
       /\ DynArray.push_back (ET := Samples.int_elem) (SA := Samples.bump_heap)
            w1 (DynArray.mk 4096 0 3 0 false) (DynArray.Temp 10)
          = DynArray.Ret (Value tt) w2 (DynArray.mk 4096 1 3 0 false)
       /\ DynArray.push_back (ET := Samples.int_elem) (SA := Samples.bump_heap)
            w2 (DynArray.mk 4096 1 3 0 false) (DynArray.Temp 20)
          = DynArray.Ret (Value tt) w3 (DynArray.mk 4096 2 3 0 false)
       /\ DynArray.push_back (ET := Samples.int_elem) (SA := Samples.bump_heap)
            w3 (DynArray.mk 4096 2 3 0 false) (DynArray.Temp 30)
          = DynArray.Ret (Value tt) w4 (DynArray.mk 4096 3 3 0 false)
       /\ DynArray.grow (ET := Samples.int_elem) (SA := Samples.bump_heap)
            w4 (DynArray.mk 4096 3 3 0 false) 4
          = DynArray.reserve (ET := Samples.int_elem) (SA := Samples.bump_heap)
              w4 (DynArray.mk 4096 3 3 0 false) 5
       /\ DynArray.push_back (ET := Samples.int_elem) (SA := Samples.bump_heap)
            w4 (DynArray.mk 4096 3 3 0 false) (DynArray.Temp 40)
          = DynArray.Ret (Value tt) w5 (DynArray.mk 4112 4 5 0 false).
Proof.
  destruct (grow_policy (ET := Samples.int_elem) (SA := Samples.bump_heap)
              Samples.empty_world (DynArray.mk 4096 3 3 0 false) 4)
    as [Hgrow Hrun]; [cbn; lia|].
  split; [exact Hgrow|].
  apply (Hrun Samples.int_elem Samples.empty_world); vm_compute; discriminate.
Defined.

(** * Further properties of the arena *)

Section ArenaAlignment.
Import LinearAllocator.

Lemma pow2_size_t (k : Z) : 0 <= k < SIZE_BITS -> 0 < 2 ^ k < SIZE_MOD.
Proof.
  intros Hk. unfold SIZE_MOD. unfold SIZE_BITS in *.
  split; [apply Z.pow_pos_nonneg; lia|apply Z.pow_lt_mono_r; lia].
Qed.

Lemma padding_spec (p k : Z) :
  0 <= k < SIZE_BITS ->
  0 <= padding p (2 ^ k) < 2 ^ k /\ (p + padding p (2 ^ k)) mod 2 ^ k = 0.
Proof.
  intros Hk. pose proof (pow2_size_t k Hk) as Hp. unfold padding. split.
  - apply Z.mod_pos_bound. lia.
  - rewrite Z.add_mod_idemp_r by lia.
    replace (p + - p) with 0 by lia. apply Z.mod_0_l. lia.
Qed.

(** The padding is the least step to a multiple of the alignment. *)
Lemma padding_least (p k r : Z) :
  0 <= k < SIZE_BITS -> p <= r -> r mod 2 ^ k = 0 -> p + padding p (2 ^ k) <= r.
Proof.
  intros Hk Hr Hal. pose proof (pow2_size_t k Hk) as Hp.
  destruct (padding_spec p k Hk) as [Hpad Hz].
  apply Z.mod_divide in Hal; [|lia]. destruct Hal as [c ->].
  apply Z.mod_divide in Hz; [|lia]. destruct Hz as [d Hd].
  rewrite Hd. set (P := 2 ^ k) in *. clearbody P.
  assert (d < c + 1) by nia. nia.
Qed.

(** [align_forward] steps by the padding, modulo [2^64]. *)
Lemma align_forward_padding (p k : Z) :
  is_size_t p -> 0 <= k < SIZE_BITS ->
  align_forward p (2 ^ k) = Value (wrap (p + padding p (2 ^ k))).
Proof.
  intros Hp Hk. pose proof (pow2_size_t k Hk) as H2. unfold align_forward.
  rewrite is_power_of_two_pow2 by exact Hk. cbn [negb].
  rewrite land_mask_pow2 by exact Hk. unfold padding.
  destruct (p mod 2 ^ k =? 0) eqn:Hm.
  - apply Z.eqb_eq in Hm. cbn [negb].
    rewrite Z.mod_opp_l_z by lia. rewrite Z.add_0_r, wrap_small by exact Hp.
    reflexivity.
  - apply Z.eqb_neq in Hm. cbn [negb].
    rewrite Z.mod_opp_l_nz by lia.
    pose proof (Z.mod_pos_bound p (2 ^ k)) as Hb.
    rewrite (wrap_small (2 ^ k - p mod 2 ^ k)) by (unfold is_size_t; lia).
    reflexivity.
Qed.

(** The bit test accepts exactly the powers of two. *)
Lemma land_pred_pow2 (x : Z) :
  0 < x -> Z.land x (x - 1) = 0 -> x = 2 ^ Z.log2 x.
Proof.
  intros Hx Hl. destruct (Z.log2_spec x Hx) as [Hlo Hhi].
  destruct (Z.eq_dec x (2 ^ Z.log2 x)) as [E|Hne]; [exact E|exfalso].
  assert (Hk : 0 <= Z.log2 x) by apply Z.log2_nonneg.
  assert (Hlog : Z.log2 (x - 1) = Z.log2 x).
  { apply Z.log2_unique; [exact Hk|].
    replace (Z.succ (Z.log2 x)) with (Z.succ (Z.log2 x)) in * by reflexivity. lia. }
  assert (Hb1 : Z.testbit x (Z.log2 x) = true) by (apply Z.bit_log2; lia).
  assert (Hb2 : Z.testbit (x - 1) (Z.log2 x) = true).
  { rewrite <- Hlog. apply Z.bit_log2.
    assert (0 < 2 ^ Z.log2 x) by (apply Z.pow_pos_nonneg; lia). lia. }
  assert (Hb : Z.testbit (Z.land x (x - 1)) (Z.log2 x) = true)
    by (rewrite Z.land_spec, Hb1, Hb2; reflexivity).
  rewrite Hl, Z.bits_0 in Hb. discriminate.
Qed.

End ArenaAlignment.

Section ArenaAllocation.
Import LinearAllocator ArenaCalls.

Lemma is_power_of_two_inv (x : Z) :
  is_size_t x -> is_power_of_two x = true ->
  exists k, 0 <= k < SIZE_BITS /\ x = 2 ^ k.
Proof.
  intros Hx H. unfold is_power_of_two in H.
  apply andb_prop in H. destruct H as [Hl Hz].
  apply Z.eqb_eq in Hl. apply negb_true_iff, Z.eqb_neq in Hz.
  assert (Hpos : 0 < x) by (unfold is_size_t in Hx; lia).
  rewrite wrap_small in Hl by (unfold is_size_t in *; lia).
  exists (Z.log2 x). split; [|apply land_pred_pow2; assumption].
  split; [apply Z.log2_nonneg|].
  apply Z.log2_lt_pow2; [exact Hpos|]. unfold is_size_t, SIZE_MOD in Hx. lia.
Qed.

Lemma wrap_sub_wrap (x y : Z) : wrap (wrap x - y) = wrap (x - y).
Proof.
  unfold wrap. apply Zminus_mod_idemp_l.
Qed.

(** What [alloc_align] does when no sum leaves the address space: the block
    starts at the current offset plus the padding, if it fits. *)
Lemma alloc_align_padded (a : t) (m : Mem) (size k : Z) :
  placed a -> 0 <= curr_offset a <= buf_len a ->
  0 <= k < SIZE_BITS -> 0 <= size ->
  buf_len a + 2 ^ k + size <= SIZE_MOD ->
  let offset := curr_offset a + padding (buf a + curr_offset a) (2 ^ k) in
  alloc_align a m size (2 ^ k)
  = if offset + size <=? buf_len a
    then (Value (buf a + offset),
          mk (buf a) (buf_len a) offset (offset + size),
          memset m (buf a + offset) 0 size)
    else (Unexpected OutOfMemory, a, m).
Proof.
  intros (Hb & Hl & Hend) Hc Hk Hs Hno offset.
  destruct (padding_spec (buf a + curr_offset a) k Hk) as [Hpad _].
  assert (Hpad' : 0 <= offset - curr_offset a < 2 ^ k) by (unfold offset; lia).
  unfold alloc_align.
  assert (Hcp : is_size_t (buf a + curr_offset a))
    by (unfold is_size_t in *; lia).
  rewrite (wrap_small _ Hcp). rewrite align_forward_padding by assumption.
  rewrite wrap_sub_wrap.
  replace (buf a + curr_offset a + padding (buf a + curr_offset a) (2 ^ k) - buf a)
    with offset by (unfold offset; lia).
  rewrite (wrap_small offset) by (unfold is_size_t; lia).
  rewrite (wrap_small (offset + size)) by (unfold is_size_t; lia).
  destruct (offset + size <=? buf_len a) eqn:Hfit; [|reflexivity].
  apply Z.leb_le in Hfit.
  rewrite (wrap_small (buf a + offset)) by (unfold is_size_t in *; lia).
  reflexivity.
Qed.

(** With modest sizes, [alloc_align] keeps the invariant, whatever it
    returns. *)
Lemma alloc_align_modest_inv (a a' : t) (m m' : Mem) (size align : Z) r :
  inv a -> placed a -> buf_len a <= 2 ^ 62 -> modest size -> modest align ->
  alloc_align a m size align = (r, a', m') -> inv a'.
Proof.
  intros Hi Hp Hlen Hs Ha H.
  destruct (is_power_of_two align) eqn:Hpow.
  - destruct (is_power_of_two_inv align) as (k & Hk & ->);
      [unfold is_size_t, modest, SIZE_MOD, SIZE_BITS in *; lia|exact Hpow|].
    rewrite alloc_align_padded in H;
      [|exact Hp|unfold inv in Hi; lia|exact Hk|unfold modest in Hs; lia
       |unfold modest, SIZE_MOD, SIZE_BITS in *; lia].
    destruct (padding_spec (buf a + curr_offset a) k Hk) as [Hpad _].
    destruct (_ <=? _) eqn:Hfit in H.
    + apply Z.leb_le in Hfit. inversion H; subst.
      unfold inv, modest in *. cbn [prev_offset curr_offset buf_len]. lia.
    + inversion H; subst. exact Hi.
  - unfold alloc_align, align_forward in H. rewrite Hpow in H. cbn [negb] in H.
    inversion H; subst. exact Hi.
Qed.

End ArenaAllocation.

Section ArenaExtras.
Import LinearAllocator ArenaCalls.

(** X1.  [is_power_of_two] accepts exactly the powers of two: for a
    [uintptr_t] value [x], the test [(x & (x-1)) == 0 && x != 0] holds iff
    [x = 2^k] for some [k] below 64 (so 0 is rejected). *)
Theorem is_power_of_two_iff (x : Z) :
  is_size_t x ->
  is_power_of_two x = true <-> exists k, 0 <= k < SIZE_BITS /\ x = 2 ^ k.
Proof.
  intros Hx. split.
  - apply is_power_of_two_inv. exact Hx.
  - intros (k & Hk & ->). apply is_power_of_two_pow2. exact Hk.
Qed.

Lemma is_power_of_two_iff_witness :
  is_power_of_two 16 = true <-> exists k, 0 <= k < SIZE_BITS /\ 16 = 2 ^ k.
Proof.
  apply is_power_of_two_iff. unfold is_size_t, SIZE_MOD, SIZE_BITS. lia.
Defined.

(** X2.  [align_forward(ptr, align)]: for a power of two [align], when
    [ptr + align] stays in the address space, the result is the smallest
    multiple of [align] that is at least [ptr], less than [align] beyond it;
    for an [align] that is no power of two the result is
    [InvalidAlignment]. *)
Theorem align_forward_smallest_multiple (ptr align : Z) :
  is_size_t ptr -> is_size_t align ->
  (forall k, 0 <= k < SIZE_BITS -> align = 2 ^ k -> ptr + align <= SIZE_MOD ->
     exists r, align_forward ptr align = Value r
       /\ ptr <= r < ptr + align /\ r mod align = 0
       /\ forall r', ptr <= r' -> r' mod align = 0 -> r <= r')
  /\ ((forall k, 0 <= k < SIZE_BITS -> align <> 2 ^ k) ->
      align_forward ptr align = Unexpected InvalidAlignment).
Proof.
  intros Hp Ha. split.
  - intros k Hk -> Hno.
    destruct (padding_spec ptr k Hk) as [Hpad Hz].
    exists (ptr + padding ptr (2 ^ k)).
    rewrite align_forward_padding by assumption.
    rewrite wrap_small by (unfold is_size_t in *; lia).
    split; [reflexivity|]. split; [lia|]. split; [exact Hz|].
    intros r' Hr' Hal. apply padding_least; assumption.
  - intros Hno. unfold align_forward.
    destruct (is_power_of_two align) eqn:Hpow; [|reflexivity].
    apply is_power_of_two_inv in Hpow; [|exact Ha].
    destruct Hpow as (k & Hk & E). exfalso. exact (Hno k Hk E).
Qed.

Lemma align_forward_smallest_multiple_witness :
  exists r, align_forward 4100 16 = Value r
    /\ 4100 <= r < 4100 + 16 /\ r mod 16 = 0
    /\ forall r', 4100 <= r' -> r' mod 16 = 0 -> r <= r'.
Proof.
  destruct (align_forward_smallest_multiple 4100 16) as [H _].
  - unfold is_size_t, SIZE_MOD, SIZE_BITS. lia.
  - unfold is_size_t, SIZE_MOD, SIZE_BITS. lia.
  - apply (H 4).
    + unfold SIZE_BITS. lia.
    + reflexivity.
    + unfold SIZE_MOD, SIZE_BITS. lia.
Defined.

(** X3.  [alloc_align(size, align)] on an arena whose buffer lies in the
    address space, for a power of two [align] and a request that does not
    overflow: the block starts at the first address at or after the current
    offset that is a multiple of [align]; if [size] bytes fit in the buffer
    from there, the call returns that address, sets [prev_offset] to the
    start and [curr_offset] to the end of the block and zeroes the block,
    leaving every other byte; otherwise it returns [OutOfMemory] and changes
    nothing. *)
Theorem alloc_align_first_fit (a : t) (m : Mem) (size k : Z) :
  placed a -> 0 <= curr_offset a <= buf_len a ->
  0 <= k < SIZE_BITS -> 0 <= size ->
  buf_len a + 2 ^ k + size <= SIZE_MOD ->
  exists offset,
    curr_offset a <= offset < curr_offset a + 2 ^ k
    /\ (buf a + offset) mod 2 ^ k = 0
    /\ (forall q, buf a + curr_offset a <= q -> q mod 2 ^ k = 0 -> buf a + offset <= q)
    /\ (offset + size <= buf_len a ->
        exists m',
          alloc_align a m size (2 ^ k)
          = (Value (buf a + offset),
             mk (buf a) (buf_len a) offset (offset + size), m')
          /\ (forall q, buf a + offset <= q < buf a + offset + size -> m' q = 0)
          /\ (forall q, q < buf a + offset \/ buf a + offset + size <= q ->
                        m' q = m q))
    /\ (buf_len a < offset + size ->
        alloc_align a m size (2 ^ k) = (Unexpected OutOfMemory, a, m)).
Proof.
  intros Hp Hc Hk Hs Hno.
  destruct (padding_spec (buf a + curr_offset a) k Hk) as [Hpad Hz].
  exists (curr_offset a + padding (buf a + curr_offset a) (2 ^ k)).
  pose proof (alloc_align_padded a m size k Hp Hc Hk Hs Hno) as Hal.
  cbv zeta in Hal.
  split; [lia|]. split; [rewrite Z.add_assoc; exact Hz|].
  split; [intros q Hq Hqa; rewrite Z.add_assoc; apply padding_least; assumption|].
  split.
  - intros Hfit. rewrite Hal.
    replace (_ <=? _) with true by (symmetry; apply Z.leb_le; exact Hfit).
    eexists. split; [reflexivity|]. unfold memset. split.
    + intros q Hq.
      replace (_ <=? q) with true by (symmetry; apply Z.leb_le; lia).
      replace (q <? _) with true by (symmetry; apply Z.ltb_lt; lia).
      reflexivity.
    + intros q [Hq|Hq].
      * replace (_ <=? q) with false by (symmetry; apply Z.leb_gt; lia).
        reflexivity.
      * replace (q <? _) with false by (symmetry; apply Z.ltb_ge; lia).
        rewrite andb_false_r. reflexivity.
  - intros Hfit. rewrite Hal.
    replace (_ <=? _) with false by (symmetry; apply Z.leb_gt; exact Hfit).
    reflexivity.
Qed.

Lemma alloc_align_first_fit_witness :
  exists offset,
    10 <= offset < 10 + 2 ^ 3
    /\ (4096 + offset) mod 2 ^ 3 = 0
    /\ (offset + 20 <= 64 ->
        exists m', alloc_align (mk 4096 64 0 10) (fun _ => 7) 20 (2 ^ 3)
                   = (Value (4096 + offset), mk 4096 64 offset (offset + 20), m')).
Proof.
  destruct (alloc_align_first_fit (mk 4096 64 0 10) (fun _ => 7) 20 3)
    as (offset & Hr & Hal & _ & Hfit & _).
  - unfold placed, is_size_t, SIZE_MOD, SIZE_BITS. cbn. lia.
  - cbn. lia.
  - unfold SIZE_BITS. lia.
  - lia.
  - unfold SIZE_MOD, SIZE_BITS. cbn. lia.
  - exists offset. split; [exact Hr|]. split; [exact Hal|].
    intros Hle. destruct (Hfit Hle) as (m' & Heq & _). exists m'. exact Heq.
Defined.

(** X4.  Two allocations in a row do not overlap and stay in the buffer:
    when both succeed, the first block lies at or after the base, the second
    starts at or after the end of the first and ends within the buffer. *)
Theorem alloc_align_blocks_in_order
    (a a1 a2 : t) (m m1 m2 : Mem) (s1 s2 k1 k2 p1 p2 : Z) :
  placed a -> 0 <= curr_offset a <= buf_len a ->
  0 <= k1 < SIZE_BITS -> 0 <= k2 < SIZE_BITS -> 0 <= s1 -> 0 <= s2 ->
  buf_len a + 2 ^ k1 + s1 <= SIZE_MOD -> buf_len a + 2 ^ k2 + s2 <= SIZE_MOD ->
  alloc_align a m s1 (2 ^ k1) = (Value p1, a1, m1) ->
  alloc_align a1 m1 s2 (2 ^ k2) = (Value p2, a2, m2) ->
  buf a + curr_offset a <= p1 /\ p1 + s1 <= p2
  /\ p2 + s2 <= buf a + buf_len a.
Proof.
  intros Hp Hc Hk1 Hk2 Hs1 Hs2 Hno1 Hno2 H1 H2.
  rewrite alloc_align_padded in H1 by assumption.
  destruct (padding_spec (buf a + curr_offset a) k1 Hk1) as [Hpad1 _].
  destruct (_ <=? _) eqn:Hfit1 in H1; [|discriminate].
  apply Z.leb_le in Hfit1. inversion H1; subst p1 a1 m1; clear H1.
  set (o1 := curr_offset a + padding (buf a + curr_offset a) (2 ^ k1)) in *.
  rewrite alloc_align_padded in H2;
    [|exact Hp|cbn; lia|exact Hk2|exact Hs2|exact Hno2].
  cbn [buf buf_len curr_offset] in H2.
  destruct (padding_spec (buf a + (o1 + s1)) k2 Hk2) as [Hpad2 _].
  destruct (_ <=? _) eqn:Hfit2 in H2; [|discriminate].
  apply Z.leb_le in Hfit2. inversion H2; subst p2 a2 m2; clear H2.
  lia.
Qed.

Lemma alloc_align_blocks_in_order_witness :
  4096 + 0 <= 4096 /\ 4096 + 10 <= 4112 /\ 4112 + 8 <= 4096 + 64.
Proof.
  apply (alloc_align_blocks_in_order (mk 4096 64 0 0) (mk 4096 64 0 10)
           (mk 4096 64 16 24) (fun _ => 0) (memset (fun _ => 0) 4096 0 10)
           (memset (memset (fun _ => 0) 4096 0 10) 4112 0 8) 10 8 0 4 4096 4112).
  - unfold placed, is_size_t, SIZE_MOD, SIZE_BITS. cbn. lia.
  - cbn. lia.
  - unfold SIZE_BITS. lia.
  - unfold SIZE_BITS. lia.
  - lia.
  - lia.
  - unfold SIZE_MOD, SIZE_BITS. cbn. lia.
  - unfold SIZE_MOD, SIZE_BITS. cbn. lia.
  - reflexivity.
  - reflexivity.
Defined.

End ArenaExtras.

Section ArenaResize.
Import LinearAllocator ArenaCalls.

(** What [resize_align] leaves behind, whatever it returns, when sizes are
    modest: the invariant, or the state of the failed in-place resize. *)
Lemma resize_align_modest (a a' : t) (m m' : Mem) (p os ns al : Z) r :
  inv a -> placed a -> buf_len a <= 2 ^ 62 ->
  modest ns -> modest al ->
  resize_align a m p os ns al = (r, a', m') ->
  inv a'
  \/ (r = Unexpected OutOfMemory /\ prev_offset a' = prev_offset a
      /\ buf_len a < curr_offset a' /\ p = buf a + prev_offset a).
Proof.
  intros Hi Hp Hlen Hns Hal. unfold resize_align.
  destruct (negb (is_power_of_two al)); [intros H; inversion H; subst; auto|].
  destruct (_ || _).
  { intros H. left.
    exact (alloc_align_modest_inv a a' m m' ns al r Hi Hp Hlen Hns Hal H). }
  destruct (_ && _); [|intros H; inversion H; subst; auto].
  pose proof Hp as (Hb & Hl0 & Hend). pose proof Hi as Hi0. unfold inv in Hi0.
  assert (Hps : wrap (prev_offset a + ns) = prev_offset a + ns).
  { apply wrap_small. unfold is_size_t, modest, SIZE_MOD, SIZE_BITS in *. lia. }
  assert (Hbp : wrap (buf a + prev_offset a) = buf a + prev_offset a).
  { apply wrap_small. unfold is_size_t in *. lia. }
  destruct (_ =? p) eqn:Hlast.
  - apply Z.eqb_eq in Hlast. rewrite Hbp in Hlast.
    cbn [buf_len curr_offset prev_offset buf]. rewrite Hps.
    destruct (buf_len a <? prev_offset a + ns) eqn:Hfit.
    + apply Z.ltb_lt in Hfit. intros H; inversion H; subst. right.
      cbn [prev_offset curr_offset]. auto.
    + apply Z.ltb_ge in Hfit.
      destruct (os <? ns); intros H; inversion H; subst; left;
        unfold inv; cbn [prev_offset curr_offset buf_len];
        unfold modest in *; lia.
  - destruct (alloc_align a m ns al) as [[[q|e] a1] m1] eqn:Ha;
      intros H; inversion H; subst; left;
      exact (alloc_align_modest_inv a a' m _ ns al _ Hi Hp Hlen Hns Hal Ha).
Qed.

(** X5.  In-place resize.  When [old_memory] is the start of the most recent
    allocation, [buffer + prev_offset], and lies inside the buffer,
    [resize_align] to a [new_size] that still fits returns the same address
    and sets [curr_offset = prev_offset + new_size]; no byte of the old
    block is moved or changed, and the bytes added beyond [old_size] are
    zeroed. *)
Theorem resize_align_in_place (a : t) (m : Mem) (old_size new_size k : Z) :
  placed a -> inv a -> prev_offset a < buf_len a ->
  buf a + prev_offset a <> 0 ->
  0 < old_size -> 0 <= new_size -> 0 <= k < SIZE_BITS ->
  prev_offset a + new_size <= buf_len a ->
  exists m',
    resize_align a m (buf a + prev_offset a) old_size new_size (2 ^ k)
    = (Value (buf a + prev_offset a),
       mk (buf a) (buf_len a) (prev_offset a) (prev_offset a + new_size), m')
    /\ (forall q, q < buf a + prev_offset a + old_size
                  \/ buf a + prev_offset a + new_size <= q -> m' q = m q)
    /\ (forall q, buf a + prev_offset a + old_size <= q
                  < buf a + prev_offset a + new_size -> m' q = 0).
Proof.
  intros (Hb & Hl & Hend) Hi Hlast Hnull Hos Hns Hk Hfit.
  unfold inv in Hi. unfold resize_align.
  rewrite is_power_of_two_pow2 by exact Hk. cbn [negb].
  replace (buf a + prev_offset a =? 0) with false
    by (symmetry; apply Z.eqb_neq; exact Hnull).
  replace (old_size =? 0) with false by (symmetry; apply Z.eqb_neq; lia).
  cbn [orb].
  rewrite (wrap_small (buf a + buf_len a)) by (unfold is_size_t in *; lia).
  replace (buf a <=? buf a + prev_offset a) with true
    by (symmetry; apply Z.leb_le; lia).
  replace (buf a + prev_offset a <? buf a + buf_len a) with true
    by (symmetry; apply Z.ltb_lt; lia).
  cbn [andb].
  rewrite (wrap_small (buf a + prev_offset a)) by (unfold is_size_t in *; lia).
  rewrite Z.eqb_refl. cbn [buf buf_len prev_offset curr_offset].
  rewrite (wrap_small (prev_offset a + new_size)) by (unfold is_size_t in *; lia).
  replace (buf_len a <? prev_offset a + new_size) with false
    by (symmetry; apply Z.ltb_ge; exact Hfit).
  destruct (old_size <? new_size) eqn:Hgrow.
  - apply Z.ltb_lt in Hgrow.
    rewrite (wrap_small (prev_offset a + old_size)) by (unfold is_size_t in *; lia).
    rewrite (wrap_small (buf a + (prev_offset a + old_size)))
      by (unfold is_size_t in *; lia).
    rewrite (wrap_small (new_size - old_size)) by (unfold is_size_t in *; lia).
    eexists. split; [reflexivity|]. unfold memset. split.
    + intros q [Hq|Hq].
      * replace (_ <=? q) with false by (symmetry; apply Z.leb_gt; lia).
        reflexivity.
      * replace (q <? _) with false by (symmetry; apply Z.ltb_ge; lia).
        rewrite andb_false_r. reflexivity.
    + intros q Hq.
      replace (_ <=? q) with true by (symmetry; apply Z.leb_le; lia).
      replace (q <? _) with true by (symmetry; apply Z.ltb_lt; lia).
      reflexivity.
  - apply Z.ltb_ge in Hgrow. exists m. split; [reflexivity|].
    split; [reflexivity|]. intros q Hq. lia.
Qed.

Lemma resize_align_in_place_witness :
  exists m',
    resize_align (mk 4096 64 16 26) (fun _ => 7) (4096 + 16) 10 20 (2 ^ 0)
    = (Value (4096 + 16), mk 4096 64 16 (16 + 20), m')
    /\ (forall q, q < 4096 + 16 + 10 \/ 4096 + 16 + 20 <= q -> m' q = 7)
    /\ (forall q, 4096 + 16 + 10 <= q < 4096 + 16 + 20 -> m' q = 0).
Proof.
  apply (resize_align_in_place (mk 4096 64 16 26) (fun _ => 7) 10 20 0).
  - unfold placed, is_size_t, SIZE_MOD, SIZE_BITS. cbn. lia.
  - unfold inv. cbn. lia.
  - cbn. lia.
  - cbn. lia.
  - lia.
  - lia.
  - unfold SIZE_BITS. lia.
  - cbn. lia.
Defined.

(** X6.  Relocating resize.  When [old_memory] lies inside the buffer but is
    not the most recent allocation, a successful [resize_align] returns a
    fresh aligned block at or after the current offset; nothing outside the
    new block changes, and the bytes of the new block beyond
    [min(old_size, new_size)] are zero.  The new block is zeroed before the
    old bytes are copied, so its first [min(old_size, new_size)] bytes are
    the bytes the old block has after that zeroing: they are those of the
    old block when the part that is copied lies in the part of the buffer
    already handed out ([old_memory + min(old_size, new_size)] at most
    [buffer + curr_offset]), where the old block stays as it was (it is not
    reclaimed); a byte of the old block that lies inside the new block is
    copied as zero. *)
Theorem resize_align_relocates
    (a a' : t) (m m' : Mem) (old_memory old_size new_size k p : Z) :
  placed a -> inv a -> 0 <= k < SIZE_BITS -> 0 <= new_size ->
  buf_len a + 2 ^ k + new_size <= SIZE_MOD ->
  buf a <= old_memory < buf a + buf_len a ->
  old_memory <> buf a + prev_offset a -> old_memory <> 0 -> 0 < old_size ->
  resize_align a m old_memory old_size new_size (2 ^ k) = (Value p, a', m') ->
  buf a + curr_offset a <= p /\ p mod 2 ^ k = 0
  /\ p + new_size <= buf a + buf_len a
  /\ prev_offset a' = p - buf a /\ curr_offset a' = p - buf a + new_size
  /\ (forall i, 0 <= i < Z.min old_size new_size ->
        m' (p + i) = memset m p 0 new_size (old_memory + i))
  /\ (old_memory + Z.min old_size new_size <= buf a + curr_offset a ->
      forall i, 0 <= i < Z.min old_size new_size -> m' (p + i) = m (old_memory + i))
  /\ (forall i, 0 <= i < Z.min old_size new_size ->
        p <= old_memory + i < p + new_size -> m' (p + i) = 0)
  /\ (forall i, Z.min old_size new_size <= i < new_size -> m' (p + i) = 0)
  /\ (forall q, q < p \/ p + new_size <= q -> m' q = m q).
Proof.
  intros Hp Hi Hk Hns Hno Hin Hlast Hnull Hos.
  pose proof Hp as (Hb & Hl & Hend). unfold inv in Hi.
  unfold resize_align.
  rewrite is_power_of_two_pow2 by exact Hk. cbn [negb].
  replace (old_memory =? 0) with false by (symmetry; apply Z.eqb_neq; exact Hnull).
  replace (old_size =? 0) with false by (symmetry; apply Z.eqb_neq; lia).
  cbn [orb].
  rewrite (wrap_small (buf a + buf_len a)) by (unfold is_size_t in *; lia).
  replace (buf a <=? old_memory) with true by (symmetry; apply Z.leb_le; lia).
  replace (old_memory <? buf a + buf_len a) with true
    by (symmetry; apply Z.ltb_lt; lia).
  cbn [andb].
  rewrite (wrap_small (buf a + prev_offset a)) by (unfold is_size_t in *; lia).
  replace (buf a + prev_offset a =? old_memory) with false
    by (symmetry; apply Z.eqb_neq; congruence).
  rewrite alloc_align_padded; [|exact Hp|lia|exact Hk|exact Hns|exact Hno].
  destruct (padding_spec (buf a + curr_offset a) k Hk) as [Hpad Hz].
  set (offset := curr_offset a + padding (buf a + curr_offset a) (2 ^ k)) in *.
  destruct (offset + new_size <=? buf_len a) eqn:Hfit; [|discriminate].
  apply Z.leb_le in Hfit. intros H; inversion H; subst p a' m'; clear H.
  cbn [prev_offset curr_offset].
  assert (Hmin : (if old_size <? new_size then old_size else new_size)
                 = Z.min old_size new_size).
  { destruct (old_size <? new_size) eqn:E.
    - apply Z.ltb_lt in E. lia.
    - apply Z.ltb_ge in E. lia. }
  rewrite Hmin.
  split; [unfold offset; lia|].
  split; [unfold offset; rewrite Z.add_assoc; exact Hz|].
  split; [lia|]. split; [lia|]. split; [lia|].
  assert (Hcopy : forall i, 0 <= i < Z.min old_size new_size ->
            memmove (memset m (buf a + offset) 0 new_size) (buf a + offset) old_memory
              (Z.min old_size new_size) (buf a + offset + i)
            = memset m (buf a + offset) 0 new_size (old_memory + i)).
  { intros i Hi'. unfold memmove.
    replace (buf a + offset <=? buf a + offset + i) with true
      by (symmetry; apply Z.leb_le; lia).
    replace (buf a + offset + i <? buf a + offset + Z.min old_size new_size)
      with true by (symmetry; apply Z.ltb_lt; lia).
    cbn [andb]. f_equal. lia. }
  split; [exact Hcopy|]. split; [|split; [|split]].
  - intros Hused i Hi'. rewrite Hcopy by exact Hi'. unfold memset.
    replace (buf a + offset <=? old_memory + i) with false
      by (symmetry; apply Z.leb_gt; unfold offset; lia).
    reflexivity.
  - intros i Hi' Hover. rewrite Hcopy by exact Hi'. unfold memset.
    replace (buf a + offset <=? old_memory + i) with true
      by (symmetry; apply Z.leb_le; lia).
    replace (old_memory + i <? buf a + offset + new_size) with true
      by (symmetry; apply Z.ltb_lt; lia).
    reflexivity.
  - intros i Hi'. unfold memmove, memset.
    replace (buf a + offset + i <? buf a + offset + Z.min old_size new_size)
      with false by (symmetry; apply Z.ltb_ge; lia).
    rewrite andb_false_r.
    replace (buf a + offset <=? buf a + offset + i) with true
      by (symmetry; apply Z.leb_le; lia).
    replace (buf a + offset + i <? buf a + offset + new_size) with true
      by (symmetry; apply Z.ltb_lt; lia).
    reflexivity.
  - intros q [Hq|Hq]; unfold memmove, memset.
    + replace (buf a + offset <=? q) with false by (symmetry; apply Z.leb_gt; lia).
      reflexivity.
    + replace (q <? buf a + offset + Z.min old_size new_size) with false
        by (symmetry; apply Z.ltb_ge; lia).
      rewrite andb_false_r.
      replace (q <? buf a + offset + new_size) with false
        by (symmetry; apply Z.ltb_ge; lia).
      rewrite andb_false_r. reflexivity.
Qed.

(** An arena of 64 bytes at 4096 with 26 bytes handed out, byte [q]
    holding [q]: the block of 40 bytes at 4100 is resized to 30 with
    alignment 2.  The new block is at 4122; the old bytes from 4122 on lie
    in it and are copied as zero: byte 21 of the new block is 4121, byte 22
    is 0. *)
Lemma resize_align_relocates_witness :
  4096 + 26 <= 4122 /\ 4122 mod 2 ^ 1 = 0
  /\ memmove (memset (fun q => q) 4122 0 30) 4122 4100 30 (4122 + 21) = 4121
  /\ memmove (memset (fun q => q) 4122 0 30) 4122 4100 30 (4122 + 22) = 0.
Proof.
  destruct (resize_align_relocates (mk 4096 64 16 26) (mk 4096 64 26 56)
              (fun q => q) (memmove (memset (fun q => q) 4122 0 30) 4122 4100 30)
              4100 40 30 1 4122)
    as (H1 & H2 & _ & _ & _ & Hcopy & _ & Hzero & _).
  - unfold placed, is_size_t, SIZE_MOD, SIZE_BITS. cbn. lia.
  - unfold inv. cbn. lia.
  - unfold SIZE_BITS. lia.
  - lia.
  - unfold SIZE_MOD, SIZE_BITS. cbn. lia.
  - cbn. lia.
  - cbn. lia.
  - lia.
  - lia.
  - reflexivity.
  - split; [exact H1|]. split; [exact H2|]. split.
    + rewrite (Hcopy 21) by lia. reflexivity.
    + apply (Hzero 22); lia.
Defined.

(** X7.  A failing [resize_align] never writes memory and never changes
    [prev_offset] or the buffer; it leaves the whole arena unchanged except
    on one path: the in-place resize that fails with [OutOfMemory], which
    has already stored the new, too large [curr_offset]. *)
Theorem resize_align_failure
    (a a' : t) (m m' : Mem) (old_memory old_size new_size align : Z)
    (e : AllocatorError) :
  resize_align a m old_memory old_size new_size align = (Unexpected e, a', m') ->
  m' = m /\ buf a' = buf a /\ buf_len a' = buf_len a
  /\ prev_offset a' = prev_offset a
  /\ (a' = a
      \/ (e = OutOfMemory /\ wrap (buf a + prev_offset a) = old_memory
          /\ curr_offset a' = wrap (prev_offset a + new_size)
          /\ buf_len a < curr_offset a')).
Proof.
  unfold resize_align.
  destruct (negb (is_power_of_two align));
    [intros H; inversion H; subst; auto 10|].
  destruct (_ || _).
  { intros H. apply alloc_align_error_unchanged in H. destruct H as [-> ->].
    auto 10. }
  destruct (_ && _); [|intros H; inversion H; subst; auto 10].
  destruct (_ =? old_memory) eqn:Hlast.
  - apply Z.eqb_eq in Hlast. cbn [buf_len curr_offset prev_offset buf].
    destruct (buf_len a <? wrap (prev_offset a + new_size)) eqn:Hfit.
    + apply Z.ltb_lt in Hfit. intros H; inversion H; subst.
      cbn [buf buf_len prev_offset curr_offset]. auto 10.
    + destruct (old_size <? new_size); discriminate.
  - destruct (alloc_align a m new_size align) as [[[q|e0] a1] m1] eqn:Ha;
      [discriminate|].
    apply alloc_align_error_unchanged in Ha. destruct Ha as [-> ->].
    intros H; inversion H; subst. auto 10.
Qed.

Lemma resize_align_failure_witness :
  (fun _ : Z => 0) = (fun _ : Z => 0)
  /\ buf (mk 4096 16 0 10) = buf (mk 4096 16 0 10)
  /\ buf_len (mk 4096 16 0 10) = buf_len (mk 4096 16 0 10)
  /\ prev_offset (mk 4096 16 0 10) = prev_offset (mk 4096 16 0 10)
  /\ (mk 4096 16 0 10 = mk 4096 16 0 10
      \/ (OutOfBounds = OutOfMemory /\ wrap (4096 + 0) = 9000
          /\ curr_offset (mk 4096 16 0 10) = wrap (0 + 20)
          /\ 16 < curr_offset (mk 4096 16 0 10))).
Proof.
  apply (resize_align_failure (mk 4096 16 0 10) (mk 4096 16 0 10)
           (fun _ => 0) (fun _ => 0) 9000 10 20 1 OutOfBounds).
  reflexivity.
Defined.

(** X8.  With modest sizes (buffer length, sizes and alignments at most
    [2^62]), every arena call leaves
    [0 <= prev_offset <= curr_offset <= buffer_length] in force, whether it
    succeeds or fails, with one exception: a resize of the most recent
    allocation that fails, after which [curr_offset] exceeds the buffer
    length. *)
Theorem arena_call_keeps_inv (c : call) (a a' : t) (m m' : Mem) (ok : bool) :
  inv a -> placed a -> buf_len a <= 2 ^ 62 -> call_modest c ->
  run_call c a m = (ok, a', m') ->
  inv a'
  \/ (ok = false /\ prev_offset a' = prev_offset a
      /\ buf_len a < curr_offset a'
      /\ exists p os ns, p = buf a + prev_offset a
           /\ ((exists al, c = ResizeAlign p os ns al) \/ c = Resize p os ns)).
Proof.
  intros Hi Hp Hlen Hc.
  assert (Hdef : modest DEFAULT_ALIGNMENT) by (unfold modest, DEFAULT_ALIGNMENT; lia).
  destruct c as [size align|size|p os ns align|p os ns|ptr|];
    cbn [run_call call_modest] in *.
  - destruct (alloc_align a m size align) as [[r a1] m1] eqn:Ha.
    intros H; inversion H; subst. left.
    destruct Hc as [Hs Hal].
    exact (alloc_align_modest_inv a a' m m' size align r Hi Hp Hlen Hs Hal Ha).
  - unfold alloc. destruct (alloc_align a m size _) as [[r a1] m1] eqn:Ha.
    intros H; inversion H; subst. left.
    exact (alloc_align_modest_inv a a' m m' size _ r Hi Hp Hlen Hc Hdef Ha).
  - destruct (resize_align a m p os ns align) as [[r a1] m1] eqn:Ha.
    intros H; inversion H; subst. destruct Hc as (_ & _ & Hns & Hal).
    destruct (resize_align_modest _ _ _ _ _ _ _ _ _ Hi Hp Hlen Hns Hal Ha)
      as [Hinv|(-> & Hprev & Hcur & Hlast)]; [left; exact Hinv|right].
    cbn [has_value]. repeat split; try assumption.
    exists p, os, ns. split; [exact Hlast|left; eauto].
  - unfold resize. destruct (resize_align a m p os ns _) as [[r a1] m1] eqn:Ha.
    intros H; inversion H; subst. destruct Hc as (_ & _ & Hns).
    destruct (resize_align_modest _ _ _ _ _ _ _ _ _ Hi Hp Hlen Hns Hdef Ha)
      as [Hinv|(-> & Hprev & Hcur & Hlast)]; [left; exact Hinv|right].
    cbn [has_value]. repeat split; try assumption.
    exists p, os, ns. split; [exact Hlast|right; reflexivity].
  - intros H; inversion H; subst. left. exact Hi.
  - intros H; inversion H; subst. left. apply free_all_inv.
    unfold placed in Hp. lia.
Qed.

Lemma arena_call_keeps_inv_witness : inv (mk 4096 64 16 24).
Proof.
  destruct (arena_call_keeps_inv (AllocAlign 8 16) (mk 4096 64 0 10)
              (mk 4096 64 16 24) (fun _ => 0) (memset (fun _ => 0) 4112 0 8) true)
    as [H|(Hf & _)].
  - unfold inv. cbn. lia.
  - unfold placed, is_size_t, SIZE_MOD, SIZE_BITS. cbn. lia.
  - cbn. lia.
  - cbn. unfold modest. lia.
  - reflexivity.
  - exact H.
  - discriminate Hf.
Defined.

End ArenaResize.

(** * Further properties of the growable array *)

(** ** Lists of consecutive indices *)

Section IndexLists.
Context {B : Type}.

Lemma seqZ_split (s n k : Z) :
  0 <= k <= n -> seqZ s n = seqZ s k ++ seqZ (s + k) (n - k).
Proof.
  intros H. replace n with (k + (n - k)) at 1 by lia. apply seqZ_app; lia.
Qed.

Lemma map_seqZ_ext (f g : Z -> B) (s n : Z) :
  (forall i, s <= i < s + n -> f i = g i) ->
  map f (seqZ s n) = map g (seqZ s n).
Proof.
  intros H. apply map_ext_in. intros i Hi.
  apply list_elem_of_In, elem_of_seqZ in Hi. apply H. exact Hi.
Qed.

Lemma map_seqZ_shift (g : Z -> B) (s c n : Z) :
  map (fun i => g (i + c)) (seqZ s n) = map g (seqZ (s + c) n).
Proof.
  replace (s + c) with (c + s) by lia.
  rewrite <- fmap_add_seqZ. change (Z.add c <$> seqZ s n) with (map (Z.add c) (seqZ s n)).
  rewrite map_map. apply map_ext. intros i. f_equal. lia.
Qed.

Lemma take_map_seqZ (g : Z -> B) (n k : Z) :
  0 <= k <= n -> take (Z.to_nat k) (map g (seqZ 0 n)) = map g (seqZ 0 k).
Proof.
  intros H. rewrite (seqZ_split 0 n k H), map_app.
  apply take_app_length'. rewrite length_map, length_seqZ. reflexivity.
Qed.

Lemma drop_map_seqZ (g : Z -> B) (n k : Z) :
  0 <= k <= n -> drop (Z.to_nat k) (map g (seqZ 0 n)) = map g (seqZ k (n - k)).
Proof.
  intros H. rewrite (seqZ_split 0 n k H), map_app.
  apply drop_app_length'. rewrite length_map, length_seqZ. reflexivity.
Qed.

Lemma take_map_seqZ_all (g : Z -> B) (n k : Z) :
  n <= k -> take (Z.to_nat k) (map g (seqZ 0 n)) = map g (seqZ 0 n).
Proof.
  intros H. apply take_ge. rewrite length_map, length_seqZ. lia.
Qed.

Lemma map_seqZ_const (x : B) (s n : Z) :
  map (fun _ => x) (seqZ s n) = replicate (Z.to_nat n) x.
Proof.
  destruct (Z_le_gt_dec n 0) as [Hn|Hn].
  - rewrite seqZ_nil by lia. replace (Z.to_nat n) with O by lia. reflexivity.
  - rewrite <- (Z2Nat.id n) at 1 by lia. generalize (Z.to_nat n) as k.
    intros k. revert s. induction k as [|k IH]; intros s; [reflexivity|].
    rewrite Nat2Z.inj_succ, seqZ_cons by lia. cbn [map replicate].
    f_equal. replace (Z.pred (Z.succ (Z.of_nat k))) with (Z.of_nat k) by lia.
    apply IH.
Qed.

End IndexLists.

(** ** The loops that construct, destroy and shift elements *)

Section ShiftLoops.
Import DynArray.
Context {T : Type} {ET : ElemType T} {SA : StdAllocator}.

Lemma for_down_storage (body : Z -> World T -> World T) :
  (forall i w, same_storage w (body i w)) ->
  forall n i w, same_storage w (for_down n i body w).
Proof.
  intros Hb n. induction n as [|n IH]; intros i w; cbn [for_down].
  - apply same_storage_refl.
  - eapply same_storage_trans; [apply Hb|apply IH].
Qed.

(** The construction loop of [resize]: every slot of the range gets what
    the parameter designates, which the loop does not change. *)
Lemma construct_loop_lookup (p : Z) (v : arg T) (n : nat) (i0 : Z) (w : World T) :
  0 < sizeT ->
  let w' := for_up n i0 (fun i w => construct_from w (p + i * sizeT) v) w in
  (forall j, i0 <= j < i0 + Z.of_nat n -> objs w' !! (p + j * sizeT) = read w v)
  /\ (forall q, (forall j, i0 <= j < i0 + Z.of_nat n -> q <> p + j * sizeT) ->
        objs w' !! q = objs w !! q).
Proof.
  intros Hsz. revert i0 w. induction n as [|n IH]; intros i0 w; cbn zeta.
  - cbn [for_up]. split; [intros j Hj; lia|reflexivity].
  - cbn [for_up].
    destruct (IH (i0 + 1) (construct_from w (p + i0 * sizeT) v)) as [IHin IHout].
    split.
    + intros j Hj. destruct (Z.eq_dec j i0) as [->|Hji].
      * rewrite IHout by (intros k Hk; nia). apply construct_from_lookup_eq.
      * rewrite IHin by lia. apply read_construct_from.
    + intros q Hq. rewrite IHout by (intros k Hk; apply Hq; lia).
      apply construct_from_lookup_ne. apply Hq. lia.
Qed.

(** The destruction loops of [resize], [clear], [erase_range] and of the
    destructor: the slots in the range are left without element. *)
Lemma destroy_loop_lookup (p : Z) (n : nat) (i0 : Z) (w : World T) :
  0 < sizeT ->
  forall j, i0 <= j < i0 + Z.of_nat n ->
    objs (for_up n i0 (fun i w => destroy w (p + i * sizeT)) w) !! (p + j * sizeT)
    = None.
Proof.
  intros Hsz. revert i0 w. induction n as [|n IH]; intros i0 w j Hj; [lia|].
  cbn [for_up]. destruct (Z.eq_dec j i0) as [->|Hji].
  - rewrite destroy_loop_frame by (intros k Hk; nia).
    unfold destroy. cbn [objs]. apply lookup_delete_eq.
  - apply IH. lia.
Qed.

(** The loop of [insert]: the elements at indices [hi - n .. hi - 1] go one
    slot up, the highest first; the lowest slot is left without element. *)
Lemma shift_up_loop (p : Z) (n : nat) (hi : Z) (w : World T) :
  0 < sizeT -> Z.of_nat n <= hi -> hi < SIZE_MOD ->
  let w' := for_down n hi
              (fun i w => move_step (p + i * sizeT) (p + wrap (i - 1) * sizeT) w) w in
  (forall j, hi - Z.of_nat n < j <= hi ->
     objs w' !! (p + j * sizeT) = objs w !! (p + (j - 1) * sizeT))
  /\ (0 < Z.of_nat n -> objs w' !! (p + (hi - Z.of_nat n) * sizeT) = None)
  /\ (forall q, (forall j, hi - Z.of_nat n <= j <= hi -> q <> p + j * sizeT) ->
        objs w' !! q = objs w !! q).
Proof.
  intros Hsz. revert hi w. induction n as [|n IH]; intros hi w Hn Hhi; cbn zeta.
  - cbn [for_down]. split; [intros j Hj; lia|]. split; [lia|reflexivity].
  - cbn [for_down].
    assert (Hw : wrap (hi - 1) = hi - 1)
      by (apply wrap_small; unfold is_size_t; lia).
    rewrite Hw.
    set (w1 := move_step (p + hi * sizeT) (p + (hi - 1) * sizeT) w).
    destruct (IH (hi - 1) w1) as (IHin & IHlow & IHout); [lia|lia|].
    assert (Hw1 : forall q, objs w1 !! q
                  = if decide (q = p + (hi - 1) * sizeT) then None
                    else if decide (q = p + hi * sizeT)
                         then objs w !! (p + (hi - 1) * sizeT) else objs w !! q)
      by (intros q; apply move_step_lookup).
    split; [|split].
    + intros j Hj. destruct (Z.eq_dec j hi) as [->|Hji].
      * rewrite IHout by (intros k Hk; nia).
        rewrite Hw1. rewrite decide_False by nia.
        rewrite decide_True by reflexivity. reflexivity.
      * rewrite IHin by lia. rewrite Hw1.
        rewrite decide_False by nia. rewrite decide_False by nia. reflexivity.
    + intros _. destruct n as [|n'].
      * cbn [for_down]. rewrite Hw1.
        rewrite decide_True; [reflexivity|]. change (Z.of_nat 1) with 1. reflexivity.
      * replace (hi - Z.of_nat (S (S n'))) with (hi - 1 - Z.of_nat (S n')) by lia.
        apply IHlow. lia.
    + intros q Hq. rewrite IHout by (intros k Hk; apply Hq; lia).
      rewrite Hw1.
      rewrite decide_False by (apply Hq; lia).
      rewrite decide_False by (apply Hq; lia). reflexivity.
Qed.

(** The loop of [erase_range]: the elements at indices
    [lo + c .. lo + n + c - 1] go [c] slots down, the lowest first; the
    slots they leave and that are not refilled are left without element. *)
Lemma shift_down_loop (p c : Z) (n : nat) (lo : Z) (w : World T) :
  0 < sizeT -> 0 < c -> 0 <= lo -> lo + Z.of_nat n + c <= SIZE_MOD ->
  let w' := for_up n lo
              (fun i w => move_step (p + i * sizeT) (p + wrap (i + c) * sizeT) w) w in
  (forall j, lo <= j < lo + Z.of_nat n ->
     objs w' !! (p + j * sizeT) = objs w !! (p + (j + c) * sizeT))
  /\ (forall j, lo + Z.of_nat n <= j < lo + Z.of_nat n + c -> lo + c <= j ->
        objs w' !! (p + j * sizeT) = None)
  /\ (forall q, (forall j, lo <= j < lo + Z.of_nat n ->
                   q <> p + j * sizeT /\ q <> p + (j + c) * sizeT) ->
        objs w' !! q = objs w !! q).
Proof.
  intros Hsz Hc. revert lo w. induction n as [|n IH]; intros lo w Hlo Hno; cbn zeta.
  - cbn [for_up]. split; [intros j Hj; lia|]. split; [intros j Hj; lia|reflexivity].
  - cbn [for_up].
    assert (Hw : wrap (lo + c) = lo + c)
      by (apply wrap_small; unfold is_size_t; lia).
    rewrite Hw.
    set (w1 := move_step (p + lo * sizeT) (p + (lo + c) * sizeT) w).
    destruct (IH (lo + 1) w1) as (IHin & IHsrc & IHout); [lia|lia|].
    assert (Hw1 : forall q, objs w1 !! q
                  = if decide (q = p + (lo + c) * sizeT) then None
                    else if decide (q = p + lo * sizeT)
                         then objs w !! (p + (lo + c) * sizeT) else objs w !! q)
      by (intros q; apply move_step_lookup).
    split; [|split].
    + intros j Hj. destruct (Z.eq_dec j lo) as [->|Hji].
      * rewrite IHout by (intros k Hk; split; nia).
        rewrite Hw1. rewrite decide_False by nia.
        rewrite decide_True by reflexivity. reflexivity.
      * rewrite IHin by lia. rewrite Hw1.
        rewrite decide_False by nia. rewrite decide_False by nia. reflexivity.
    + intros j Hj Hjc. destruct (Z.eq_dec j (lo + c)) as [->|Hne].
      * rewrite IHout by (intros k Hk; split; nia).
        rewrite Hw1. rewrite decide_True by reflexivity. reflexivity.
      * apply IHsrc; lia.
    + intros q Hq. rewrite IHout by (intros k Hk; apply Hq; lia).
      rewrite Hw1. destruct (Hq lo) as [Hq1 Hq2]; [lia|].
      rewrite decide_False by exact Hq2.
      rewrite decide_False by exact Hq1. reflexivity.
Qed.

End ShiftLoops.

(** ** Appending and removing at the end *)

Section ArrayEnd.
Import DynArray.
Context {T : Type} {ET : ElemType T} {SA : StdAllocator}.

Lemma elements_map (w : World T) (a : t) :
  elements w a = map (fun i => objs w !! slot a i) (seqZ 0 (size a)).
Proof. reflexivity. Qed.

(** After room was made for one more element, the elements are where the
    array now stores them. *)
Lemma make_room_elements (w w0 : World T) (a a0 : t) :
  0 < sizeT -> inv a ->
  (if capacity a <=? size a then grow w a (wrap (size a + 1)) else Ret (Value tt) w a)
  = Ret (Value tt) w0 a0 ->
  capacity a0 = capacity a
  \/ apart (data a0) (size a * sizeT) (data a) (size a * sizeT) ->
  forall i, 0 <= i < size a -> objs w0 !! slot a0 i = objs w !! slot a i.
Proof.
  intros Hsz Hi H0 Hap. destruct (capacity a <=? size a).
  - apply grow_returns in H0. destruct H0 as (nc & _ & Hres).
    eapply reserve_elements; try eassumption. unfold inv in Hi; lia.
  - inversion H0; subst. reflexivity.
Qed.

(** The world after a successful [reserve]: as before when the capacity is
    kept; otherwise the old slots hold no element any more, and nothing
    outside the old and the new slots changed. *)
Lemma reserve_world (w w0 : World T) (a a0 : t) (n : Z) :
  0 < sizeT -> 0 <= size a ->
  reserve w a n = Ret (Value tt) w0 a0 ->
  capacity a0 = capacity a
  \/ apart (data a0) (size a * sizeT) (data a) (size a * sizeT) ->
  (capacity a0 = capacity a -> w0 = w /\ a0 = a)
  /\ (capacity a0 <> capacity a ->
      forall i, 0 <= i < size a -> objs w0 !! slot a i = None)
  /\ (forall q, (forall i, 0 <= i < size a -> q <> slot a i /\ q <> slot a0 i) ->
        objs w0 !! q = objs w !! q).
Proof.
  intros Hsz Hn Hres Hap.
  apply reserve_returns in Hres.
  destruct Hres as [(-> & -> & _)|(_ & Hlt & p & w1 & Hal & -> & Ho)].
  { split; [auto|]. split; [intros H; contradiction|reflexivity]. }
  cbn [capacity data] in *. destruct Hap as [Hc|Hap]; [lia|].
  apply allocate_objs in Hal.
  pose proof (move_loop_lookup p (data a) (Z.to_nat (size a - 0)) 0 w1 Hsz) as Hm.
  destruct Hm as [Hin Hout].
  { intros k j Hk Hj. apply apart_slots with (n := size a); try assumption; lia. }
  split; [intros H; lia|]. split.
  - intros _ i Hi1. rewrite Ho. unfold move_elements, for_range, slot.
    destruct (Hin i) as [_ Hnone]; [lia|]. exact Hnone.
  - intros q Hq. rewrite Ho. unfold move_elements, for_range.
    unfold slot in Hq. cbn [data] in Hq.
    rewrite Hout; [rewrite Hal; reflexivity|].
    intros j Hj. destruct (Hq j) as [Hq1 Hq2]; [lia|]. split; assumption.
Qed.

(** The same after room was made for one more element. *)
Lemma make_room_world (w w0 : World T) (a a0 : t) :
  0 < sizeT -> inv a ->
  (if capacity a <=? size a then grow w a (wrap (size a + 1)) else Ret (Value tt) w a)
  = Ret (Value tt) w0 a0 ->
  capacity a0 = capacity a
  \/ apart (data a0) (size a * sizeT) (data a) (size a * sizeT) ->
  (capacity a0 = capacity a -> w0 = w /\ a0 = a)
  /\ (capacity a0 <> capacity a ->
      forall i, 0 <= i < size a -> objs w0 !! slot a i = None)
  /\ (forall q, (forall i, 0 <= i < size a -> q <> slot a i /\ q <> slot a0 i) ->
        objs w0 !! q = objs w !! q).
Proof.
  intros Hsz Hi H0 Hap.
  assert (Hn : 0 <= size a) by (unfold inv in Hi; lia).
  destruct (capacity a <=? size a).
  - apply grow_returns in H0. destruct H0 as (nc & _ & Hres).
    eapply reserve_world; eassumption.
  - inversion H0; subst. split; [auto|]. split; [intros H; contradiction|reflexivity].
Qed.

(** Where the elements are after a successful [push_back]; the new one is
    what the parameter designates once room was made. *)
Lemma push_back_slots (w w' : World T) (a a' : t) (value : arg T) :
  0 < sizeT -> inv a ->
  push_back w a value = Ret (Value tt) w' a' ->
  capacity a' = capacity a
  \/ apart (data a') (size a * sizeT) (data a) (size a * sizeT) ->
  size a' = size a + 1 /\ inv a'
  /\ (forall i, 0 <= i < size a -> objs w' !! slot a' i = objs w !! slot a i)
  /\ exists w0,
       objs w' !! slot a' (size a) = read w0 value
       /\ (capacity a' = capacity a -> w0 = w)
       /\ (capacity a' <> capacity a ->
           forall i, 0 <= i < size a -> objs w0 !! slot a i = None)
       /\ (forall q, (forall i, 0 <= i < size a -> q <> slot a i /\ q <> slot a' i) ->
             objs w0 !! q = objs w !! q).
Proof.
  intros Hsz Hi Hpb Hap.
  pose proof (push_back_inv _ _ _ _ _ _ Hi Hpb) as Hi'.
  unfold push_back in Hpb. apply and_then_returns in Hpb.
  destruct Hpb as [(e & _ & He)|(u & w0 & a0 & H0 & Hk)]; [discriminate|].
  destruct u.
  pose proof (make_room_returns _ _ _ _ _ Hi H0) as (Hi0 & Hs0 & Hlt & Hc).
  inversion Hk; subst w' a'; clear Hk.
  cbn [capacity data set_size size] in *.
  pose proof (make_room_elements _ _ _ _ Hsz Hi H0 Hap) as Hel.
  pose proof (make_room_world _ _ _ _ Hsz Hi H0 Hap) as (Hsame & Hgone & Hframe).
  rewrite Hs0. split; [apply wrap_small; unfold is_size_t, inv in *; lia|].
  split; [rewrite Hs0 in Hi'; exact Hi'|].
  change (slot (set_size a0 (wrap (size a + 1)))) with (slot a0).
  split.
  - intros i Hi1. rewrite construct_from_lookup_ne; [apply Hel; exact Hi1|].
    unfold slot. intros E. apply Z.add_reg_l, Z.mul_reg_r in E; lia.
  - exists w0. split; [rewrite <- Hs0; apply construct_from_lookup_eq|].
    split; [intros H; exact (proj1 (Hsame H))|]. split; [exact Hgone|exact Hframe].
Qed.

(** X9.  The invariant of the array: whatever constructor built it and
    whatever member functions were called on it since, with [size_t]
    arguments, [0 <= size <= capacity] holds. *)
Theorem reachable_size_le_capacity (w : World T) (a : t) :
  reachable w a -> 0 <= size a /\ size a <= capacity a /\ capacity a < SIZE_MOD.
Proof. apply reachable_inv. Qed.

(** X10.  A successful [push_back(value)] appends one element: the size
    grows by one, the former elements stay in order, and [back()] refers to
    the new last slot.  The parameter is a reference, read after room was
    made.  The new element is a copy of the argument when the argument is
    an object of the caller that is no part of the array's storage, or when
    the capacity was kept.  When the argument is an element of the array and
    the array grows, that element has been moved and destroyed before it is
    read: the new slot is built from a destroyed object (it holds no
    element).  (Storage obtained for growth is assumed not to overlap the
    elements that are moved.) *)
Theorem push_back_appends (w w' : World T) (a a' : t) (value : arg T) :
  0 < sizeT -> inv a ->
  push_back w a value = Ret (Value tt) w' a' ->
  capacity a' = capacity a
  \/ apart (data a') (size a * sizeT) (data a) (size a * sizeT) ->
  size a' = size a + 1
  /\ exists last,
       elements w' a' = elements w a ++ [last]
       /\ (exists r, back a' = Value r /\ objs w' !! r = last)
       /\ (forall x, value = Temp x -> last = Some x)
       /\ (forall p, value = Ref p -> capacity a' = capacity a ->
             last = objs w !! p)
       /\ (forall p, value = Ref p ->
             (forall i, 0 <= i < size a -> p <> slot a i /\ p <> slot a' i) ->
             last = objs w !! p)
       /\ (forall i, value = Ref (slot a i) -> 0 <= i < size a ->
             capacity a' <> capacity a -> last = None).
Proof.
  intros Hsz Hi Hpb Hap.
  destruct (push_back_slots _ _ _ _ _ Hsz Hi Hpb Hap)
    as (Hs & Hi' & Hel & w0 & Hx & Hsame & Hgone & Hframe).
  assert (Hn : 0 <= size a) by (unfold inv in Hi; lia).
  split; [exact Hs|]. exists (read w0 value).
  split; [|split; [|split; [|split; [|split]]]].
  - rewrite !elements_map, Hs.
    rewrite (seqZ_split 0 (size a + 1) (size a)) by lia. rewrite map_app.
    replace (size a + 1 - size a) with 1 by lia.
    f_equal.
    + apply map_seqZ_ext. intros i Hi1. apply Hel. lia.
    + rewrite seqZ_cons by lia. rewrite seqZ_nil by lia. cbn [map].
      rewrite Z.add_0_l, Hx. reflexivity.
  - unfold back, empty. rewrite Hs.
    replace (size a + 1 =? 0) with false by (symmetry; apply Z.eqb_neq; lia).
    eexists. split; [reflexivity|].
    replace (size a + 1 - 1) with (size a) by lia.
    rewrite wrap_small by (unfold is_size_t, inv in *; lia). exact Hx.
  - intros x ->. reflexivity.
  - intros p -> Hc. rewrite (Hsame Hc). reflexivity.
  - intros p -> Hp. cbn [read]. apply Hframe. exact Hp.
  - intros i -> Hi1 Hc. cbn [read]. apply Hgone; assumption.
Qed.

(** X11.  [pop_back()] fails with [EmptyArray] on an empty array and
    changes nothing; otherwise it removes the last element: the size drops
    by one, the element at the last index is destroyed, the elements before
    it stay, and storage and capacity are kept. *)
Theorem pop_back_removes_last (w : World T) (a : t) :
  0 < sizeT -> inv a ->
  (size a = 0 -> pop_back w a = Ret (Unexpected EmptyArray) w a)
  /\ (0 < size a ->
      exists w',
        pop_back w a = Ret (Value tt) w' (set_size a (size a - 1))
        /\ elements w' (set_size a (size a - 1))
           = take (Z.to_nat (size a - 1)) (elements w a)
        /\ objs w' !! slot a (size a - 1) = None
        /\ same_storage w w').
Proof.
  intros Hsz Hi. split.
  - intros H0. unfold pop_back, empty. rewrite H0. reflexivity.
  - intros Hpos. unfold pop_back, empty.
    replace (size a =? 0) with false by (symmetry; apply Z.eqb_neq; lia).
    assert (Hw : wrap (size a - 1) = size a - 1)
      by (apply wrap_small; unfold is_size_t, inv in *; lia).
    rewrite Hw. eexists. split; [reflexivity|].
    cbn [size set_size]. split; [|split].
    + rewrite !elements_map. cbn [size set_size].
      rewrite take_map_seqZ by lia.
      apply map_seqZ_ext. intros i Hi1. unfold slot, destroy.
      cbn [objs data set_size]. apply lookup_delete_ne. nia.
    + unfold slot, destroy. cbn [objs data set_size]. apply lookup_delete_eq.
    + apply destroy_storage.
Qed.

End ArrayEnd.

Lemma reachable_size_le_capacity_witness :
  0 <= DynArray.size (DynArray.mk 4096 0 3 0 false)
  /\ DynArray.size (DynArray.mk 4096 0 3 0 false)
     <= DynArray.capacity (DynArray.mk 4096 0 3 0 false)
  /\ DynArray.capacity (DynArray.mk 4096 0 3 0 false) < SIZE_MOD.
Proof.
  apply (reachable_size_le_capacity (ET := Samples.int_elem) (SA := Samples.bump_heap)
           (DynArray.mkWorld {[ 4096 := 12 ]} ∅ (fun _ => 0) ∅)).
  apply (DynArray.reach_capacity Samples.empty_world 3).
  - unfold is_size_t, SIZE_MOD, SIZE_BITS; lia.
  - vm_compute; reflexivity.
Defined.

(** A full array holding [10] is asked to append its own element 0: the
    array grows, and the element is read after it was moved away. *)
Lemma push_back_appends_witness :
  DynArray.size (DynArray.mk 4112 2 2 0 false) = 1 + 1
  /\ DynArray.elements (ET := Samples.int_elem)
       (DynArray.mkWorld {[ 4112 := 8 ]} ∅ (fun _ => 0) {[ 4112 := 10 ]})
       (DynArray.mk 4112 2 2 0 false)
     = [Some 10] ++ [None].
Proof.
  assert (H1 : 0 < DynArray.sizeT (ElemType := Samples.int_elem)) by reflexivity.
  assert (H2 : DynArray.inv (DynArray.mk 4096 1 1 0 false))
    by (unfold DynArray.inv, SIZE_MOD, SIZE_BITS; cbn; lia).
  assert (H3 : DynArray.push_back (ET := Samples.int_elem) (SA := Samples.bump_heap)
                 (DynArray.mkWorld {[ 4096 := 4 ]} ∅ (fun _ => 0) {[ 4096 := 10 ]})
                 (DynArray.mk 4096 1 1 0 false) (DynArray.Ref 4096)
               = DynArray.Ret (Value tt)
                   (DynArray.mkWorld {[ 4112 := 8 ]} ∅ (fun _ => 0) {[ 4112 := 10 ]})
                   (DynArray.mk 4112 2 2 0 false))
    by (vm_compute; reflexivity).
  assert (H4 : DynArray.apart 4112 (1 * 4) 4096 (1 * 4))
    by (right; vm_compute; discriminate).
  destruct (push_back_appends (ET := Samples.int_elem) (SA := Samples.bump_heap)
              _ _ _ _ _ H1 H2 H3 (or_intror H4))
    as (Hs & last & Hel & _ & _ & _ & _ & Hgone).
  rewrite (Hgone 0 eq_refl) in Hel; [|cbn; lia|cbn; lia].
  split; [exact Hs|exact Hel].
Defined.

Lemma pop_back_removes_last_witness :
  exists w',
    DynArray.pop_back (ET := Samples.int_elem)
      (DynArray.mkWorld {[ 4096 := 12 ]} ∅ (fun _ => 0)
         (<[ 4100 := 20 ]> {[ 4096 := 10 ]}))
      (DynArray.mk 4096 2 3 0 false)
    = DynArray.Ret (Value tt) w' (DynArray.mk 4096 1 3 0 false)
    /\ DynArray.elements (ET := Samples.int_elem) w' (DynArray.mk 4096 1 3 0 false)
       = [Some 10].
Proof.
  destruct (pop_back_removes_last (ET := Samples.int_elem)
              (DynArray.mkWorld {[ 4096 := 12 ]} ∅ (fun _ => 0)
                 (<[ 4100 := 20 ]> {[ 4096 := 10 ]}))
              (DynArray.mk 4096 2 3 0 false)) as [_ H].
  - reflexivity.
  - unfold DynArray.inv, SIZE_MOD, SIZE_BITS. cbn. lia.
  - destruct H as (w' & Hpop & Hel & _); [cbn; lia|].
    exists w'. split; [exact Hpop|exact Hel].
Defined.

(** ** Inserting and erasing in the middle *)

Section ArrayMiddle.
Import DynArray.
Context {T : Type} {ET : ElemType T} {SA : StdAllocator}.

Lemma set_size_same (a : t) : set_size a (size a) = a.
Proof. destruct a; reflexivity. Qed.

(** Where the elements are after a successful [insert]; the inserted one is
    what the parameter designates in the world [w1] the shift leaves. *)
Lemma insert_slots (w w' : World T) (a a' : t) (pos : Z) (value : arg T) :
  0 < sizeT -> inv a -> 0 <= pos ->
  insert w a pos value = Ret (Value tt) w' a' ->
  capacity a' = capacity a
  \/ apart (data a') (size a * sizeT) (data a) (size a * sizeT) ->
  pos <= size a /\ size a' = size a + 1 /\ inv a'
  /\ (forall i, 0 <= i < pos -> objs w' !! slot a' i = objs w !! slot a i)
  /\ (forall i, pos < i <= size a -> objs w' !! slot a' i = objs w !! slot a (i - 1))
  /\ (capacity a' = capacity a -> data a' = data a)
  /\ exists w1,
       objs w' !! slot a' pos = read w1 value
       /\ (forall i, 0 <= i < pos -> objs w1 !! slot a' i = objs w !! slot a i)
       /\ (forall i, pos < i <= size a ->
             objs w1 !! slot a' i = objs w !! slot a (i - 1))
       /\ (pos < size a -> objs w1 !! slot a' pos = None)
       /\ (capacity a' <> capacity a ->
           apart (data a') ((size a + 1) * sizeT) (data a) (size a * sizeT) ->
           forall i, 0 <= i < size a -> objs w1 !! slot a i = None)
       /\ (forall q, (forall i, 0 <= i <= size a -> q <> slot a i /\ q <> slot a' i) ->
             objs w1 !! q = objs w !! q).
Proof.
  intros Hsz Hi Hpos Hins Hap.
  pose proof (insert_inv _ _ _ _ _ _ _ Hi Hins) as Hi'.
  unfold insert in Hins.
  destruct (size a <? pos) eqn:Hrange; [discriminate|]. apply Z.ltb_ge in Hrange.
  apply and_then_returns in Hins.
  destruct Hins as [(e & _ & He)|(u & w0 & a0 & H0 & Hk)]; [discriminate|].
  destruct u.
  pose proof (make_room_returns _ _ _ _ _ Hi H0) as (Hi0 & Hs0 & Hlt & Hc).
  inversion Hk; subst w' a'; clear Hk.
  cbn [capacity data set_size size] in *.
  pose proof (make_room_elements _ _ _ _ Hsz Hi H0 Hap) as Hel.
  pose proof (make_room_world _ _ _ _ Hsz Hi H0 Hap) as (Hsame & Hgone & Hframe).
  assert (Hn : 0 <= size a < SIZE_MOD) by (unfold inv in Hi; lia).
  rewrite Hs0 in *.
  rewrite (wrap_small (size a + 1)) in * by (unfold is_size_t; lia).
  split; [exact Hrange|]. split; [reflexivity|]. split; [exact Hi'|].
  (* the world after the shift *)
  set (w1 := if pos <? size a then _ else w0).
  assert (Hshift :
    (forall i, 0 <= i < pos -> objs w1 !! slot a0 i = objs w0 !! slot a0 i)
    /\ (forall i, pos < i <= size a ->
          objs w1 !! slot a0 i = objs w0 !! slot a0 (i - 1))
    /\ (pos < size a -> objs w1 !! slot a0 pos = None)
    /\ (forall q, (forall j, pos <= j <= size a -> q <> slot a0 j) ->
          objs w1 !! q = objs w0 !! q)).
  { subst w1. destruct (pos <? size a) eqn:Hlt'.
    - apply Z.ltb_lt in Hlt'. unfold for_range_down, slot.
      destruct (shift_up_loop (data a0) (Z.to_nat (size a - pos)) (size a) w0)
        as (Hin & Hlowest & Hout); [exact Hsz|lia|lia|].
      split; [|split; [|split]].
      + intros i Hi1. apply Hout. intros j Hj. nia.
      + intros i Hi1. apply Hin. lia.
      + intros _.
        replace pos with (size a - Z.of_nat (Z.to_nat (size a - pos))) at 1 by lia.
        apply Hlowest. lia.
      + intros q Hq. apply Hout. intros j Hj. apply Hq. lia.
    - apply Z.ltb_ge in Hlt'. split; [reflexivity|].
      split; [intros i Hi1; lia|]. split; [intros H; lia|reflexivity]. }
  destruct Hshift as (Hlow & Hhigh & Hlowest & Hout).
  change (slot (set_size a0 (size a + 1))) with (slot a0).
  split; [|split; [|split]].
  - intros i Hi1. rewrite construct_from_lookup_ne by (unfold slot; nia).
    rewrite Hlow by exact Hi1. apply Hel. lia.
  - intros i Hi1. rewrite construct_from_lookup_ne by (unfold slot; nia).
    rewrite Hhigh by exact Hi1. apply Hel. lia.
  - intros H. destruct (Hsame H) as [_ ->]. reflexivity.
  - exists w1. split; [apply construct_from_lookup_eq|].
    split; [intros i Hi1; rewrite Hlow by exact Hi1; apply Hel; lia|].
    split; [intros i Hi1; rewrite Hhigh by exact Hi1; apply Hel; lia|].
    split; [exact Hlowest|]. split.
    + intros Hcap Hap1 i Hi1. rewrite Hout; [apply Hgone; assumption|].
      intros j Hj. unfold slot, apart in *. nia.
    + intros q Hq. rewrite Hout by (intros j Hj; apply Hq; lia).
      apply Hframe. intros i Hi1. apply Hq. lia.
Qed.

(** What [erase_range] does on a valid range. *)
Lemma erase_range_slots (w : World T) (a : t) (first last : Z) :
  0 < sizeT -> inv a -> 0 <= first < size a -> first <= last <= size a ->
  exists w',
    erase_range w a first last
    = Ret (Value tt) w' (set_size a (size a - (last - first)))
    /\ same_storage w w'
    /\ (forall i, 0 <= i < first -> objs w' !! slot a i = objs w !! slot a i)
    /\ (forall i, first <= i < size a - (last - first) ->
          objs w' !! slot a i = objs w !! slot a (i + (last - first)))
    /\ (forall i, size a - (last - first) <= i < size a ->
          objs w' !! slot a i = None).
Proof.
  intros Hsz Hi Hf Hl. unfold erase_range.
  replace (size a <=? first) with false by (symmetry; apply Z.leb_gt; lia).
  replace (size a <? last) with false by (symmetry; apply Z.ltb_ge; lia).
  replace (last <? first) with false by (symmetry; apply Z.ltb_ge; lia).
  cbn [orb].
  assert (Hn : 0 <= size a < SIZE_MOD) by (unfold inv in Hi; lia).
  destruct (first =? last) eqn:Heq.
  - apply Z.eqb_eq in Heq. subst last.
    replace (size a - (first - first)) with (size a) by lia.
    rewrite set_size_same. exists w. split; [reflexivity|].
    split; [apply same_storage_refl|]. split; [reflexivity|].
    split; [|intros i Hi1; lia].
    intros i Hi1. replace (i + (first - first)) with i by lia. reflexivity.
  - apply Z.eqb_neq in Heq.
    rewrite (wrap_small (last - first)) by (unfold is_size_t; lia).
    set (c := last - first). assert (Hc : 0 < c) by (unfold c; lia).
    rewrite (wrap_small (size a - c)) by (unfold is_size_t; lia).
    eexists. split; [reflexivity|].
    set (w1 := for_range first last (fun i w => destroy w (slot a i)) w).
    assert (Hs1 : same_storage w w1).
    { unfold w1, for_range. apply for_up_storage. intros i w0. apply destroy_storage. }
    assert (Hd_in : forall j, first <= j < last -> objs w1 !! slot a j = None).
    { intros j Hj. unfold w1, for_range, slot.
      apply destroy_loop_lookup; [exact Hsz|lia]. }
    assert (Hd_out : forall j, j < first \/ last <= j ->
                       objs w1 !! slot a j = objs w !! slot a j).
    { intros j Hj. unfold w1, for_range, slot.
      apply destroy_loop_frame. intros k Hk. nia. }
    unfold for_range, slot in *.
    destruct (shift_down_loop (data a) c (Z.to_nat (size a - c - first)) first w1)
      as (Hin & Hsrc & Hout); [exact Hsz|exact Hc|lia|lia|].
    split; [|split; [|split]].
    + eapply same_storage_trans; [exact Hs1|].
      apply for_up_storage. intros i w0. apply move_step_storage.
    + intros i Hi1. rewrite Hout by (intros j Hj; split; nia).
      apply Hd_out. lia.
    + intros i Hi1. rewrite Hin by lia. apply Hd_out. unfold c. lia.
    + intros i Hi1. destruct (Z_lt_ge_dec i last) as [Hlt|Hge].
      * rewrite Hout by (intros j Hj; split; nia).
        apply Hd_in. lia.
      * apply Hsrc; unfold c; lia.
Qed.

(** X12.  A successful [insert(position, value)] makes room at index
    [position] and constructs one element there: the elements are the first
    [position] former elements, then the new one, then the remaining former
    elements in order, and the size grows by one.  The parameter is a
    reference, read after the elements from [position] on were shifted.  The
    new element is a copy of the argument when the argument is an object of
    the caller that is no part of the array's storage, or an element before
    [position] of an array that kept its capacity.  When the argument is
    the element at an index [j > position] of such an array, it is read after
    the shift, where index [j] holds the former element [j - 1]; the element
    at [position] itself, and any element of an array that grows, was moved
    away and destroyed before it is read (the new slot holds no element).
    (Storage obtained for growth is assumed not to overlap the elements that
    are moved.) *)
Theorem insert_at_position (w w' : World T) (a a' : t) (pos : Z) (value : arg T) :
  0 < sizeT -> inv a -> 0 <= pos ->
  insert w a pos value = Ret (Value tt) w' a' ->
  capacity a' = capacity a
  \/ apart (data a') (size a * sizeT) (data a) (size a * sizeT) ->
  pos <= size a /\ size a' = size a + 1
  /\ exists ins,
       elements w' a'
       = take (Z.to_nat pos) (elements w a) ++ ins :: drop (Z.to_nat pos) (elements w a)
       /\ (forall v, value = Temp v -> ins = Some v)
       /\ (forall p, value = Ref p ->
             (forall i, 0 <= i <= size a -> p <> slot a i /\ p <> slot a' i) ->
             ins = objs w !! p)
       /\ (forall j, value = Ref (slot a j) -> capacity a' = capacity a ->
             0 <= j < pos -> ins = objs w !! slot a j)
       /\ (forall j, value = Ref (slot a j) -> capacity a' = capacity a ->
             pos < j <= size a -> ins = objs w !! slot a (j - 1))
       /\ (value = Ref (slot a pos) -> capacity a' = capacity a ->
           pos < size a -> ins = None)
       /\ (forall j, value = Ref (slot a j) -> 0 <= j < size a ->
             capacity a' <> capacity a ->
             apart (data a') ((size a + 1) * sizeT) (data a) (size a * sizeT) ->
             ins = None).
Proof.
  intros Hsz Hi Hpos Hins Hap.
  destruct (insert_slots _ _ _ _ _ _ Hsz Hi Hpos Hins Hap)
    as (Hle & Hs & _ & Hlow & Hhigh & Hdata & w1 & Hat & H1low & H1high & H1pos
        & H1gone & H1frame).
  split; [exact Hle|]. split; [exact Hs|]. exists (read w1 value).
  assert (Hslot : capacity a' = capacity a -> forall i, slot a' i = slot a i)
    by (intros H i; unfold slot; rewrite (Hdata H); reflexivity).
  split; [|split; [|split; [|split; [|split; [|split]]]]].
  - rewrite !elements_map, Hs.
    rewrite take_map_seqZ, drop_map_seqZ by lia.
    rewrite (seqZ_split 0 (size a + 1) pos) by lia. rewrite map_app.
    rewrite Z.add_0_l. rewrite (seqZ_cons pos) by lia. cbn [map].
    rewrite Hat. f_equal; [apply map_seqZ_ext; intros i Hi1; apply Hlow; lia|].
    f_equal.
    replace (Z.pred (size a + 1 - pos)) with (size a - pos) by lia.
    replace (seqZ pos (size a - pos)) with (seqZ (Z.succ pos + -1) (size a - pos))
      by (f_equal; lia).
    rewrite <- (map_seqZ_shift (fun i => objs w !! slot a i) (Z.succ pos) (-1)).
    apply map_seqZ_ext. intros i Hi1.
    replace (i + -1) with (i - 1) by lia. apply Hhigh. lia.
  - intros v ->. reflexivity.
  - intros p -> Hp. cbn [read]. apply H1frame. exact Hp.
  - intros j -> Hc Hj. cbn [read].
    transitivity (objs w1 !! slot a' j); [rewrite (Hslot Hc); reflexivity|].
    apply H1low. exact Hj.
  - intros j -> Hc Hj. cbn [read].
    transitivity (objs w1 !! slot a' j); [rewrite (Hslot Hc); reflexivity|].
    apply H1high. exact Hj.
  - intros -> Hc Hlt. cbn [read]. rewrite <- (Hslot Hc). apply H1pos. exact Hlt.
  - intros j -> Hj Hc Hap1. cbn [read]. apply H1gone; assumption.
Qed.

(** X13.  [erase_range(first, last)] on a valid range
    ([first < size], [first <= last <= size]) succeeds and removes exactly
    the elements at indices [first .. last - 1]: the elements before [first]
    and from [last] on remain, in order; the size drops by [last - first],
    capacity and storage are kept and the vacated slots hold no element.
    On any other range it returns [OutOfRange]. *)
Theorem erase_range_removes (w : World T) (a : t) (first last : Z) :
  0 < sizeT -> inv a -> 0 <= first -> 0 <= last ->
  (first < size a /\ first <= last <= size a ->
   exists w',
     erase_range w a first last
     = Ret (Value tt) w' (set_size a (size a - (last - first)))
     /\ elements w' (set_size a (size a - (last - first)))
        = take (Z.to_nat first) (elements w a) ++ drop (Z.to_nat last) (elements w a)
     /\ (forall i, size a - (last - first) <= i < size a ->
           objs w' !! slot a i = None)
     /\ same_storage w w')
  /\ (~ (first < size a /\ first <= last <= size a) ->
      erase_range w a first last = Ret (Unexpected OutOfRange) w a).
Proof.
  intros Hsz Hi Hf Hl. split.
  - intros [Hlt Hle].
    destruct (erase_range_slots w a first last Hsz Hi) as
      (w' & Her & Hst & Hlow & Hhigh & Hnone); [lia|lia|].
    exists w'. split; [exact Her|]. split; [|split; [exact Hnone|exact Hst]].
    assert (Hn : 0 <= size a) by (unfold inv in Hi; lia).
    rewrite !elements_map. cbn [size set_size].
    change (slot (set_size a (size a - (last - first)))) with (slot a).
    rewrite take_map_seqZ, drop_map_seqZ by lia.
    rewrite (seqZ_split 0 (size a - (last - first)) first) by lia.
    rewrite map_app, Z.add_0_l.
    f_equal; [apply map_seqZ_ext; intros i Hi1; apply Hlow; lia|].
    replace (size a - (last - first) - first) with (size a - last) by lia.
    replace (seqZ last (size a - last))
      with (seqZ (first + (last - first)) (size a - last)) by (f_equal; lia).
    rewrite <- map_seqZ_shift.
    apply map_seqZ_ext. intros i Hi1. apply Hhigh. lia.
  - intros Hbad. unfold erase_range.
    replace ((size a <=? first) || (size a <? last) || (last <? first)) with true;
      [reflexivity|].
    symmetry. apply orb_true_iff.
    destruct (Z_le_gt_dec (size a) first) as [H1|H1].
    { left. apply orb_true_iff. left. apply Z.leb_le. exact H1. }
    destruct (Z_lt_ge_dec (size a) last) as [H2|H2].
    { left. apply orb_true_iff. right. apply Z.ltb_lt. exact H2. }
    right. apply Z.ltb_lt. lia.
Qed.

(** X14.  [insert(position, value)] followed by [erase(position)] gives the
    elements back: after a successful [insert], [erase] at the same position
    succeeds, and the array has the size and the elements it had before.
    (Storage obtained for growth is assumed not to overlap the elements that
    are moved.) *)
Theorem insert_then_erase (w w1 : World T) (a a1 : t) (pos : Z) (v : arg T) :
  0 < sizeT -> inv a -> 0 <= pos ->
  insert w a pos v = Ret (Value tt) w1 a1 ->
  capacity a1 = capacity a
  \/ apart (data a1) (size a * sizeT) (data a) (size a * sizeT) ->
  exists w2 a2,
    erase w1 a1 pos = Ret (Value tt) w2 a2
    /\ size a2 = size a
    /\ elements w2 a2 = elements w a.
Proof.
  intros Hsz Hi Hpos Hins Hap.
  destruct (insert_slots _ _ _ _ _ _ Hsz Hi Hpos Hins Hap)
    as (Hle & Hs & Hi1 & Hlow & Hhigh & _).
  assert (Hn : 0 <= size a /\ size a + 1 < SIZE_MOD)
    by (unfold inv in Hi, Hi1; lia).
  unfold erase. rewrite (wrap_small (pos + 1)) by (unfold is_size_t; lia).
  destruct (erase_range_slots w1 a1 pos (pos + 1) Hsz Hi1) as
    (w2 & Her & _ & Hlow2 & Hhigh2 & _); [lia|lia|].
  exists w2, (set_size a1 (size a1 - (pos + 1 - pos))).
  split; [exact Her|]. cbn [size set_size].
  split; [lia|].
  apply elements_ext; [cbn [size set_size]; lia|].
  intros i Hi2.
  change (slot (set_size a1 (size a1 - (pos + 1 - pos)))) with (slot a1).
  destruct (Z_lt_ge_dec i pos) as [Hlt|Hge].
  - rewrite Hlow2 by lia. apply Hlow. lia.
  - rewrite Hhigh2 by lia. rewrite Hhigh by lia. f_equal. f_equal. lia.
Qed.

End ArrayMiddle.

(** [insert(0, a[2])] on [10, 20, 30] with room for one more: after the
    shift index 2 holds 20, which is what gets inserted. *)
Lemma insert_at_position_witness :
  DynArray.size (DynArray.mk 4096 4 4 0 false) = 3 + 1
  /\ DynArray.elements (ET := Samples.int_elem)
       (DynArray.mkWorld {[ 4096 := 16 ]} ∅ (fun _ => 0)
          (list_to_map [(4096, 20); (4100, 10); (4104, 20); (4108, 30)]))
       (DynArray.mk 4096 4 4 0 false)
     = [Some 20; Some 10; Some 20; Some 30].
Proof.
  assert (H1 : 0 < DynArray.sizeT (ElemType := Samples.int_elem)) by reflexivity.
  assert (H2 : DynArray.inv (DynArray.mk 4096 3 4 0 false))
    by (unfold DynArray.inv, SIZE_MOD, SIZE_BITS; cbn; lia).
  assert (H3 : 0 <= 0) by lia.
  assert (H4 : DynArray.insert (ET := Samples.int_elem) (SA := Samples.bump_heap)
                 (DynArray.mkWorld {[ 4096 := 16 ]} ∅ (fun _ => 0)
                    (list_to_map [(4096, 10); (4100, 20); (4104, 30)]))
                 (DynArray.mk 4096 3 4 0 false) 0 (DynArray.Ref 4104)
               = DynArray.Ret (Value tt)
                   (DynArray.mkWorld {[ 4096 := 16 ]} ∅ (fun _ => 0)
                      (list_to_map [(4096, 20); (4100, 10); (4104, 20); (4108, 30)]))
                   (DynArray.mk 4096 4 4 0 false))
    by (vm_compute; reflexivity).
  destruct (insert_at_position (ET := Samples.int_elem) (SA := Samples.bump_heap)
              _ _ _ _ 0 _ H1 H2 H3 H4 (or_introl eq_refl))
    as (_ & Hs & ins & Hel & _ & _ & _ & Hshifted & _).
  rewrite (Hshifted 2 eq_refl eq_refl) in Hel; [|cbn; lia].
  split; [exact Hs|exact Hel].
Defined.

(** Indices 1 and 2 erased from [10, 20, 30, 40]. *)
Lemma erase_range_removes_witness :
  exists w',
    DynArray.erase_range (ET := Samples.int_elem)
      (DynArray.mkWorld {[ 4096 := 16 ]} ∅ (fun _ => 0)
         (list_to_map [(4096, 10); (4100, 20); (4104, 30); (4108, 40)]))
      (DynArray.mk 4096 4 4 0 false) 1 3
    = DynArray.Ret (Value tt) w' (DynArray.mk 4096 2 4 0 false)
    /\ DynArray.elements (ET := Samples.int_elem) w' (DynArray.mk 4096 2 4 0 false)
       = [Some 10; Some 40].
Proof.
  destruct (erase_range_removes (ET := Samples.int_elem)
              (DynArray.mkWorld {[ 4096 := 16 ]} ∅ (fun _ => 0)
                 (list_to_map [(4096, 10); (4100, 20); (4104, 30); (4108, 40)]))
              (DynArray.mk 4096 4 4 0 false) 1 3) as [H _].
  - reflexivity.
  - unfold DynArray.inv, SIZE_MOD, SIZE_BITS. cbn. lia.
  - lia.
  - lia.
  - destruct H as (w' & Her & Hel & _); [cbn; lia|].
    exists w'. split; [exact Her|exact Hel].
Defined.

(** [15] inserted at index 1 of [10, 20, 30] and erased again. *)
Lemma insert_then_erase_witness :
  exists w2 a2,
    DynArray.erase (ET := Samples.int_elem)
      (DynArray.mkWorld {[ 4096 := 16 ]} ∅ (fun _ => 0)
         (list_to_map [(4096, 10); (4100, 15); (4104, 20); (4108, 30)]))
      (DynArray.mk 4096 4 4 0 false) 1
    = DynArray.Ret (Value tt) w2 a2
    /\ DynArray.size a2 = 3
    /\ DynArray.elements (ET := Samples.int_elem) w2 a2
       = [Some 10; Some 20; Some 30].
Proof.
  assert (H1 : 0 < DynArray.sizeT (ElemType := Samples.int_elem)) by reflexivity.
  assert (H2 : DynArray.inv (DynArray.mk 4096 3 4 0 false))
    by (unfold DynArray.inv, SIZE_MOD, SIZE_BITS; cbn; lia).
  assert (H3 : 0 <= 1) by lia.
  assert (H4 : DynArray.insert (ET := Samples.int_elem) (SA := Samples.bump_heap)
                 (DynArray.mkWorld {[ 4096 := 16 ]} ∅ (fun _ => 0)
                    (list_to_map [(4096, 10); (4100, 20); (4104, 30)]))
                 (DynArray.mk 4096 3 4 0 false) 1 (DynArray.Temp 15)
               = DynArray.Ret (Value tt)
                   (DynArray.mkWorld {[ 4096 := 16 ]} ∅ (fun _ => 0)
                      (list_to_map [(4096, 10); (4100, 15); (4104, 20); (4108, 30)]))
                   (DynArray.mk 4096 4 4 0 false))
    by (vm_compute; reflexivity).
  exact (insert_then_erase (ET := Samples.int_elem) (SA := Samples.bump_heap)
           _ _ _ _ 1 (DynArray.Temp 15) H1 H2 H3 H4 (or_introl eq_refl)).
Defined.

(** ** Resizing, clearing and shrinking *)

Section ArraySize.
Import DynArray.
Context {T : Type} {ET : ElemType T} {SA : StdAllocator}.

(** X15.  A successful [resize(count, value)] leaves exactly [count]
    elements: the first [count] former elements, followed, when [count]
    exceeds the former size, by [count - size] equal new elements; the
    capacity is raised to [count] if it was smaller and kept otherwise.  The
    parameter is a reference, read after the capacity was raised.  The new
    elements are copies of the argument when the argument is an object of
    the caller that is no part of the array's storage, or when the capacity
    was kept.  When the argument is an element of the array and the capacity
    is raised, that element has been moved and destroyed before it is read:
    the new slots are built from a destroyed object (they hold no element).
    (Storage obtained for growth is assumed not to overlap the elements that
    are moved.) *)
Theorem resize_to_count (w w' : World T) (a a' : t) (count : Z) (value : arg T) :
  0 < sizeT -> inv a -> is_size_t count ->
  resize w a count value = Ret (Value tt) w' a' ->
  capacity a' = capacity a
  \/ apart (data a') (size a * sizeT) (data a) (size a * sizeT) ->
  size a' = count /\ capacity a' = Z.max (capacity a) count
  /\ exists filler,
       elements w' a'
       = take (Z.to_nat count) (elements w a)
         ++ replicate (Z.to_nat (count - size a)) filler
       /\ (forall v, value = Temp v -> filler = Some v)
       /\ (forall p, value = Ref p -> capacity a' = capacity a ->
             filler = objs w !! p)
       /\ (forall p, value = Ref p ->
             (forall i, 0 <= i < size a -> p <> slot a i /\ p <> slot a' i) ->
             filler = objs w !! p)
       /\ (forall j, value = Ref (slot a j) -> 0 <= j < size a ->
             capacity a' <> capacity a -> filler = None).
Proof.
  intros Hsz Hi Hcount Hres Hap. unfold resize in Hres.
  apply and_then_returns in Hres.
  destruct Hres as [(e & _ & He)|(u & w0 & a0 & H0 & Hk)]; [discriminate|].
  destruct u. inversion Hk; subst w' a'; clear Hk.
  cbn [size capacity data set_size] in *.
  assert (Hn : 0 <= size a) by (unfold inv in Hi; lia).
  assert (H1 : size a0 = size a /\ capacity a0 = Z.max (capacity a) count
               /\ (forall i, 0 <= i < size a ->
                     objs w0 !! slot a0 i = objs w !! slot a i)
               /\ (capacity a0 = capacity a -> w0 = w /\ a0 = a)
               /\ (capacity a0 <> capacity a ->
                   forall i, 0 <= i < size a -> objs w0 !! slot a i = None)
               /\ (forall q, (forall i, 0 <= i < size a ->
                                q <> slot a i /\ q <> slot a0 i) ->
                     objs w0 !! q = objs w !! q)).
  { destruct (capacity a <? count) eqn:Hc.
    - apply Z.ltb_lt in Hc.
      pose proof (reserve_capacity _ _ _ _ _ H0) as [Hcap Hs].
      pose proof (reserve_elements _ _ _ _ _ Hsz Hn H0 Hap) as Hel.
      pose proof (reserve_world _ _ _ _ _ Hsz Hn H0 Hap) as Hworld.
      apply reserve_returns in H0.
      destruct H0 as [(_ & -> & [H|[_ H]])|(_ & _ & p & w1 & _ & -> & _)];
        [discriminate|lia|].
      cbn [size capacity] in *. split; [reflexivity|]. split; [lia|].
      split; [exact Hel|exact Hworld].
    - apply Z.ltb_ge in Hc. inversion H0; subst.
      split; [reflexivity|]. split; [lia|]. split; [reflexivity|].
      split; [auto|]. split; [intros H; contradiction|reflexivity]. }
  destruct H1 as (Hs0 & Hc0 & Hel & Hsame & Hgone & Hframe).
  split; [reflexivity|]. split; [exact Hc0|].
  exists (read w0 value).
  change (slot (set_size a0 count)) with (slot a0).
  split; [|split; [|split; [|split]]].
  - rewrite !elements_map. cbn [size set_size].
    change (slot (set_size a0 count)) with (slot a0).
    unfold is_size_t in Hcount. rewrite Hs0.
    destruct (size a <? count) eqn:Hgrow.
    + apply Z.ltb_lt in Hgrow. unfold for_range, slot.
      destruct (construct_loop_lookup (data a0) value
                  (Z.to_nat (count - size a)) (size a) w0 Hsz) as [Hin Hout].
      rewrite take_map_seqZ_all by lia.
      rewrite (seqZ_split 0 count (size a)) by lia. rewrite map_app, Z.add_0_l.
      f_equal.
      * apply map_seqZ_ext. intros i Hi1.
        rewrite Hout by (intros j Hj; nia). apply Hel. lia.
      * rewrite <- map_seqZ_const with (s := size a).
        apply map_seqZ_ext. intros i Hi1. apply Hin. lia.
    + apply Z.ltb_ge in Hgrow.
      replace (Z.to_nat (count - size a)) with O by lia.
      cbn [replicate]. rewrite app_nil_r. rewrite take_map_seqZ by lia.
      apply map_seqZ_ext. intros i Hi1.
      destruct (count <? size a).
      * unfold for_range, slot. rewrite destroy_loop_frame by (intros j Hj; nia).
        apply Hel. lia.
      * apply Hel. lia.
  - intros v ->. reflexivity.
  - intros p -> Hc. rewrite (proj1 (Hsame Hc)). reflexivity.
  - intros p -> Hp. cbn [read]. apply Hframe. exact Hp.
  - intros j -> Hj Hc. cbn [read]. apply Hgone; assumption.
Qed.

(** X16.  [clear()] destroys every element and nothing else: the size
    becomes 0, every former slot holds no element, every other address holds
    what it held, and data pointer, capacity, heap blocks and arenas are
    kept. *)
Theorem clear_destroys_all (w : World T) (a : t) :
  0 < sizeT ->
  snd (clear w a) = set_size a 0
  /\ elements (fst (clear w a)) (snd (clear w a)) = []
  /\ (forall i, 0 <= i < size a -> objs (fst (clear w a)) !! slot a i = None)
  /\ (forall q, (forall i, 0 <= i < size a -> q <> slot a i) ->
        objs (fst (clear w a)) !! q = objs w !! q)
  /\ same_storage w (fst (clear w a)).
Proof.
  intros Hsz. unfold clear, destroy_all, for_range, slot. cbn [fst snd].
  split; [reflexivity|]. split; [reflexivity|]. split; [|split].
  - intros i Hi. apply destroy_loop_lookup; [exact Hsz|lia].
  - intros q Hq. apply destroy_loop_frame. intros j Hj. apply Hq. lia.
  - apply for_up_storage. intros i w0. apply destroy_storage.
Qed.

(** X17.  A successful [shrink_to_fit()] leaves the capacity equal to the
    size with the same elements; an array without elements gives up its
    storage ([data] becomes null), and a heap-backed array that changed its
    storage has freed the old block.  (New storage is assumed not to overlap
    the elements that are moved.) *)
Theorem shrink_to_fit_fits (w w' : World T) (a a' : t) :
  0 < sizeT -> inv a ->
  shrink_to_fit w a = Ret (Value tt) w' a' ->
  capacity a' = capacity a
  \/ apart (data a') (size a * sizeT) (data a) (size a * sizeT) ->
  size a' = size a /\ capacity a' = size a
  /\ elements w' a' = elements w a
  /\ (size a = 0 -> size a <> capacity a -> data a' = 0)
  /\ (allocator a = 0 -> size a <> capacity a -> data a <> 0 ->
      heap w' !! data a = None).
Proof.
  intros Hsz Hi Hres Hap. unfold shrink_to_fit in Hres.
  assert (Hn : 0 <= size a) by (unfold inv in Hi; lia).
  destruct (size a =? capacity a) eqn:Hfit.
  { apply Z.eqb_eq in Hfit. inversion Hres; subst.
    repeat split; try lia. }
  apply Z.eqb_neq in Hfit.
  destruct (size a =? 0) eqn:Hz.
  { apply Z.eqb_eq in Hz. inversion Hres; subst; clear Hres.
    cbn [size capacity data]. split; [reflexivity|]. split; [lia|].
    split; [unfold elements; cbn [size]; rewrite Hz; reflexivity|].
    split; [reflexivity|].
    intros Ha _ Hd. rewrite Ha. cbn [Z.eqb]. unfold std_free.
    replace (data a =? 0) with false by (symmetry; apply Z.eqb_neq; exact Hd).
    cbn [heap]. apply lookup_delete_eq. }
  apply Z.eqb_neq in Hz.
  destruct (allocate w a _) as [p w1|w1|] eqn:Hal; try discriminate.
  inversion Hres; subst w' a'; clear Hres.
  cbn [size capacity data] in *.
  destruct Hap as [Hc|Hap]; [lia|].
  split; [reflexivity|]. split; [reflexivity|].
  pose proof (allocate_objs _ _ _ _ _ Hal) as Ho.
  split; [|split; [intros; lia|]].
  - apply elements_ext; [reflexivity|]. intros i Hi1.
    unfold slot at 1. cbn [data].
    assert (Hobjs : forall w2 : World T, objs (if allocator a =? 0 then std_free w2 (data a) else w2)
                               = objs w2)
      by (intros w2; destruct (allocator a =? 0); [apply std_free_objs|reflexivity]).
    rewrite Hobjs.
    apply (move_elements_result a p w1 w Hsz Hn Ho Hap i Hi1).
  - intros Ha _ Hd. rewrite Ha. cbn [Z.eqb]. unfold std_free.
    replace (data a =? 0) with false by (symmetry; apply Z.eqb_neq; exact Hd).
    cbn [heap]. apply lookup_delete_eq.
Qed.

End ArraySize.

(** A full array [10, 20] is resized to four elements with its own element
    0 as the filler: the capacity is raised, and the filler is read after it
    was moved away. *)
Lemma resize_to_count_witness :
  DynArray.size (DynArray.mk 4112 4 4 0 false) = 4
  /\ DynArray.capacity (DynArray.mk 4112 4 4 0 false) = Z.max 2 4
  /\ DynArray.elements (ET := Samples.int_elem)
       (DynArray.mkWorld {[ 4112 := 16 ]} ∅ (fun _ => 0)
          (list_to_map [(4112, 10); (4116, 20)]))
       (DynArray.mk 4112 4 4 0 false)
     = take (Z.to_nat 4) [Some 10; Some 20] ++ replicate (Z.to_nat (4 - 2)) None.
Proof.
  assert (H1 : 0 < DynArray.sizeT (ElemType := Samples.int_elem)) by reflexivity.
  assert (H2 : DynArray.inv (DynArray.mk 4096 2 2 0 false))
    by (unfold DynArray.inv, SIZE_MOD, SIZE_BITS; cbn; lia).
  assert (H3 : is_size_t 4) by (unfold is_size_t, SIZE_MOD, SIZE_BITS; lia).
  assert (H4 : DynArray.resize (ET := Samples.int_elem) (SA := Samples.bump_heap)
                 (DynArray.mkWorld {[ 4096 := 8 ]} ∅ (fun _ => 0)
                    (list_to_map [(4096, 10); (4100, 20)]))
                 (DynArray.mk 4096 2 2 0 false) 4 (DynArray.Ref 4096)
               = DynArray.Ret (Value tt)
                   (DynArray.mkWorld {[ 4112 := 16 ]} ∅ (fun _ => 0)
                      (list_to_map [(4112, 10); (4116, 20)]))
                   (DynArray.mk 4112 4 4 0 false))
    by (vm_compute; reflexivity).
  assert (H5 : DynArray.apart 4112 (2 * 4) 4096 (2 * 4)) by (right; lia).
  destruct (resize_to_count (ET := Samples.int_elem) (SA := Samples.bump_heap)
              _ _ _ _ 4 _ H1 H2 H3 H4 (or_intror H5))
    as (Hs & Hc & filler & Hel & _ & _ & _ & Hgone).
  rewrite (Hgone 0 eq_refl) in Hel; [|cbn; lia|cbn; lia].
  split; [exact Hs|]. split; [exact Hc|exact Hel].
Defined.

(** [10, 20] cleared. *)
Lemma clear_destroys_all_witness :
  snd (DynArray.clear (ET := Samples.int_elem)
         (DynArray.mkWorld {[ 4096 := 16 ]} ∅ (fun _ => 0)
            (list_to_map [(4096, 10); (4100, 20)]))
         (DynArray.mk 4096 2 4 0 false))
  = DynArray.mk 4096 0 4 0 false
  /\ DynArray.objs
       (fst (DynArray.clear (ET := Samples.int_elem)
               (DynArray.mkWorld {[ 4096 := 16 ]} ∅ (fun _ => 0)
                  (list_to_map [(4096, 10); (4100, 20)]))
               (DynArray.mk 4096 2 4 0 false))) !! 4100 = None.
Proof.
  destruct (clear_destroys_all (ET := Samples.int_elem)
              (DynArray.mkWorld {[ 4096 := 16 ]} ∅ (fun _ => 0)
                 (list_to_map [(4096, 10); (4100, 20)]))
              (DynArray.mk 4096 2 4 0 false)) as (Ha & _ & Hin & _).
  - reflexivity.
  - split; [exact Ha|]. apply (Hin 1). cbn. lia.
Defined.

(** [10, 20] with capacity 4 on the heap, shrunk to capacity 2. *)
Lemma shrink_to_fit_fits_witness :
  DynArray.size (DynArray.mk 4112 2 2 0 false) = 2
  /\ DynArray.capacity (DynArray.mk 4112 2 2 0 false) = 2
  /\ DynArray.elements (ET := Samples.int_elem)
       (DynArray.mkWorld {[ 4112 := 8 ]} ∅ (fun _ => 0)
          (list_to_map [(4112, 10); (4116, 20)]))
       (DynArray.mk 4112 2 2 0 false)
     = [Some 10; Some 20]
  /\ ({[ 4112 := 8 ]} : gmap Z Z) !! 4096 = None.
Proof.
  assert (H1 : 0 < DynArray.sizeT (ElemType := Samples.int_elem)) by reflexivity.
  assert (H2 : DynArray.inv (DynArray.mk 4096 2 4 0 false))
    by (unfold DynArray.inv, SIZE_MOD, SIZE_BITS; cbn; lia).
  assert (H3 : DynArray.shrink_to_fit (ET := Samples.int_elem) (SA := Samples.bump_heap)
                 (DynArray.mkWorld {[ 4096 := 16 ]} ∅ (fun _ => 0)
                    (list_to_map [(4096, 10); (4100, 20)]))
                 (DynArray.mk 4096 2 4 0 false)
               = DynArray.Ret (Value tt)
                   (DynArray.mkWorld {[ 4112 := 8 ]} ∅ (fun _ => 0)
                      (list_to_map [(4112, 10); (4116, 20)]))
                   (DynArray.mk 4112 2 2 0 false))
    by (vm_compute; reflexivity).
  assert (H4 : DynArray.apart 4112 (2 * 4) 4096 (2 * 4)) by (right; lia).
  destruct (shrink_to_fit_fits (ET := Samples.int_elem) (SA := Samples.bump_heap)
              _ _ _ _ H1 H2 H3 (or_intror H4)) as (Hs & Hc & Hel & _ & Hfree).
  split; [exact Hs|]. split; [exact Hc|]. split; [exact Hel|].
  apply Hfree; [reflexivity|cbn; lia|cbn; lia].
Defined.

(** ** Storage of an array over its lifetime *)

Section ArrayStorage.
Import DynArray.
Context {T : Type} {ET : ElemType T} {SA : StdAllocator}.

Lemma storage_step_same (w w' : World T) (a a' : t) :
  same_storage w w' -> data a' = data a -> allocator a' = allocator a ->
  owns_allocator a' = owns_allocator a -> storage_step w a w' a'.
Proof. intros Hs Hd Ha Ho. split; [exact Ha|]. split; [exact Ho|]. left. auto. Qed.

Lemma storage_step_then (w w0 w' : World T) (a a0 a' : t) :
  storage_step w a w0 a0 -> same_storage w0 w' -> data a' = data a0 ->
  allocator a' = allocator a0 -> owns_allocator a' = owns_allocator a0 ->
  storage_step w a w' a'.
Proof.
  intros (Ha & Ho & Hk) Hs Hd Ha' Ho'.
  split; [congruence|]. split; [congruence|]. rewrite Hd.
  destruct Hk as [[H1 H2]|[(nb & w1 & H1 & H2)|[H1 H2]]].
  - left. split; [eapply same_storage_trans; eassumption|exact H2].
  - right. left. exists nb, w1. split; [exact H1|].
    eapply same_storage_trans; eassumption.
  - right. right. split; [exact H1|]. eapply same_storage_trans; eassumption.
Qed.

Lemma reserve_step (w w' : World T) (a a' : t) (n : Z) r :
  reserve w a n = Ret r w' a' -> storage_step w a w' a'.
Proof.
  unfold reserve. destruct (n <=? capacity a).
  { intros H. inversion H; subst. apply storage_step_same; auto using same_storage_refl. }
  destruct (allocate w a _) as [p w1|w1|] eqn:Hal; [| |discriminate].
  - intros H. inversion H; subst; clear H.
    split; [reflexivity|]. split; [reflexivity|]. right. left.
    exists (wrap (sizeT * n)), w1. cbn [data]. split; [exact Hal|].
    pose proof (move_elements_storage a p w1) as (Hh & Har & Hb).
    unfold std_free.
    destruct (data a =? 0), (allocator a =? 0); cbn [negb andb];
      repeat split; cbn [heap arenas bytes]; congruence.
  - intros H. inversion H; subst; clear H.
    apply allocate_failed_unchanged in Hal. subst w'.
    apply storage_step_same; auto using same_storage_refl.
Qed.

Lemma grow_step (w w' : World T) (a a' : t) (m : Z) r :
  grow w a m = Ret r w' a' -> storage_step w a w' a'.
Proof.
  intros H. apply grow_returns in H. destruct H as (nc & _ & H).
  eapply reserve_step; exact H.
Qed.

Lemma make_room_step (w w' : World T) (a a' : t) r :
  (if capacity a <=? size a then grow w a (wrap (size a + 1)) else Ret (Value tt) w a)
  = Ret r w' a' ->
  storage_step w a w' a'.
Proof.
  destruct (capacity a <=? size a).
  - apply grow_step.
  - intros H. inversion H; subst.
    apply storage_step_same; auto using same_storage_refl.
Qed.

Lemma shrink_to_fit_step (w w' : World T) (a a' : t) r :
  shrink_to_fit w a = Ret r w' a' -> storage_step w a w' a'.
Proof.
  unfold shrink_to_fit. destruct (size a =? capacity a).
  { intros H. inversion H; subst. apply storage_step_same; auto using same_storage_refl. }
  destruct (size a =? 0).
  { intros H. inversion H; subst; clear H.
    split; [reflexivity|]. split; [reflexivity|]. right. right.
    split; [reflexivity|]. apply same_storage_refl. }
  destruct (allocate w a _) as [p w1|w1|] eqn:Hal; [| |discriminate].
  - intros H. inversion H; subst; clear H.
    split; [reflexivity|]. split; [reflexivity|]. right. left.
    exists (wrap (sizeT * size a)), w1. cbn [data]. split; [exact Hal|].
    pose proof (move_elements_storage a p w1) as (Hh & Har & Hb).
    unfold std_free.
    destruct (data a =? 0), (allocator a =? 0);
      repeat split; cbn [heap arenas bytes]; congruence.
  - intros H. inversion H; subst; clear H.
    apply allocate_failed_unchanged in Hal. subst w'.
    apply storage_step_same; auto using same_storage_refl.
Qed.

Lemma and_then_step (w w' : World T) (a a' : t) (r0 : result T) k r :
  (forall r1 w0 a0, r0 = Ret r1 w0 a0 -> storage_step w a w0 a0) ->
  (forall w0 a0 r1 w1 a1, k w0 a0 = Ret r1 w1 a1 ->
     same_storage w0 w1 /\ data a1 = data a0 /\ allocator a1 = allocator a0
     /\ owns_allocator a1 = owns_allocator a0) ->
  and_then r0 k = Ret r w' a' -> storage_step w a w' a'.
Proof.
  intros H0 Hk H. apply and_then_returns in H.
  destruct H as [(e & H & _)|(u & w0 & a0 & H & Hk')].
  - eapply H0; exact H.
  - apply Hk in Hk'. destruct Hk' as (Hs & Hd & Ha & Ho).
    eapply storage_step_then; eauto.
Qed.

Lemma run_op_step (o : op) (w w' : World T) (a a' : t) r :
  run_op o w a = Ret r w' a' -> storage_step w a w' a'.
Proof.
  destruct o; cbn [run_op].
  - apply reserve_step.
  - unfold resize. apply and_then_step.
    + intros r1 w0 a0. destruct (capacity a <? count).
      * apply reserve_step.
      * intros H. inversion H; subst.
        apply storage_step_same; auto using same_storage_refl.
    + intros w0 a0 r1 w1 a1 H. inversion H; subst; clear H.
      split; [|repeat split].
      destruct (size a0 <? count); [|destruct (count <? size a0)].
      * apply for_up_storage. intros; apply construct_from_storage.
      * apply for_up_storage. intros; apply destroy_storage.
      * apply same_storage_refl.
  - apply shrink_to_fit_step.
  - unfold push_back. apply and_then_step.
    + intros r1 w0 a0. apply make_room_step.
    + intros w0 a0 r1 w1 a1 H. inversion H; subst; clear H.
      split; [apply construct_from_storage|repeat split].
  - unfold push_back_move. apply and_then_step.
    + intros r1 w0 a0. apply make_room_step.
    + intros w0 a0 r1 w1 a1 H. inversion H; subst; clear H.
      rewrite move_construct_from_eq.
      split; [apply construct_from_storage|repeat split].
  - unfold pop_back. destruct (empty a); intros H; inversion H; subst; clear H.
    + apply storage_step_same; auto using same_storage_refl.
    + apply storage_step_same; try reflexivity. apply destroy_storage.
  - unfold insert. destruct (size a <? position).
    { intros H. inversion H; subst.
      apply storage_step_same; auto using same_storage_refl. }
    apply and_then_step.
    + intros r1 w0 a0. apply make_room_step.
    + intros w0 a0 r1 w1 a1 H. inversion H; subst; clear H.
      split; [|repeat split].
      eapply same_storage_trans; [|apply construct_from_storage].
      destruct (position <? size a0); [|apply same_storage_refl].
      apply for_down_storage. intros; apply move_step_storage.
  - unfold erase, erase_range.
    destruct (_ || _ || _); [|destruct (_ =? _)];
      intros H; inversion H; subst; clear H;
      try (apply storage_step_same; auto using same_storage_refl; fail).
    apply storage_step_same; try reflexivity.
    eapply same_storage_trans; apply for_up_storage; intros;
      [apply destroy_storage|apply move_step_storage].
  - unfold erase_range.
    destruct (_ || _ || _); [|destruct (_ =? _)];
      intros H; inversion H; subst; clear H;
      try (apply storage_step_same; auto using same_storage_refl; fail).
    apply storage_step_same; try reflexivity.
    eapply same_storage_trans; apply for_up_storage; intros;
      [apply destroy_storage|apply move_step_storage].
  - unfold drop_ref. destruct (at_ a index); intros H; inversion H; subst;
      apply storage_step_same; auto using same_storage_refl.
  - unfold drop_ref. destruct (front a); intros H; inversion H; subst;
      apply storage_step_same; auto using same_storage_refl.
  - unfold drop_ref. destruct (back a); intros H; inversion H; subst;
      apply storage_step_same; auto using same_storage_refl.
  - unfold clear. intros H. inversion H; subst; clear H.
    apply storage_step_same; try reflexivity.
    apply for_up_storage. intros; apply destroy_storage.
Qed.

Lemma storage_step_kept (w w' : World T) (a a' : t) :
  storage_step w a w' a' -> storage_kept a w w'.
Proof.
  intros (_ & _ & Hk). unfold storage_kept.
  destruct Hk as [[(Hh & Har & Hb) _]|[(nb & w1 & Hal & Hs)|[_ Hs]]].
  - repeat split; intros; congruence.
  - destruct Hs as (Hh & Har & Hb).
    destruct (Z.eq_dec (allocator a) 0) as [Ha|Ha].
    + rewrite allocate_heap in Hal by exact Ha. rewrite Ha in *. cbn [Z.eqb] in *.
      destruct (malloc (heap w) nb =? 0); [discriminate|].
      inversion Hal; subst w1; clear Hal.
      unfold std_free in *. destruct (data a =? 0); cbn [heap arenas bytes] in *;
        (split; [intros; lia|]); (split; [intros; split; congruence|]);
        intros; congruence.
    + replace (allocator a =? 0) with false in * by (symmetry; apply Z.eqb_neq; exact Ha).
      unfold allocate in Hal.
      replace (allocator a =? 0) with false in Hal by (symmetry; apply Z.eqb_neq; exact Ha).
      cbn [negb] in Hal.
      destruct (arenas w !! allocator a) as [ar|]; [|discriminate].
      destruct (LinearAllocator.alloc_align ar (bytes w) nb alignT) as [[r0 ar'] m'].
      destruct r0; [|discriminate]. inversion Hal; subst; clear Hal.
      cbn [heap arenas bytes] in *.
      split; [intros; congruence|]. split; [intros; lia|].
      intros k Hk. rewrite Har. apply lookup_insert_ne. congruence.
  - destruct Hs as (Hh & Har & Hb).
    unfold std_free in *.
    destruct (allocator a =? 0) eqn:Ha; [destruct (data a =? 0)|];
      cbn [heap arenas bytes] in *.
    + repeat split; intros; congruence.
    + apply Z.eqb_eq in Ha. split; [intros; lia|].
      split; [intros; split; congruence|]. intros; congruence.
    + repeat split; intros; congruence.
Qed.

(** X18.  A member call keeps the array with its storage: the arena it
    was given stays attached with the same ownership; with an arena it
    never touches the heap, without one it never touches an arena or the
    raw bytes; and no other arena is ever modified. *)
Theorem run_op_storage_kept (o : op) (w w' : World T) (a a' : t) r :
  run_op o w a = Ret r w' a' ->
  allocator a' = allocator a /\ owns_allocator a' = owns_allocator a
  /\ storage_kept a w w'.
Proof.
  intros H. apply run_op_step in H.
  pose proof (storage_step_kept _ _ _ _ H) as Hk.
  destruct H as (Ha & Ho & _). auto.
Qed.

Lemma storage_step_heap_block (h0 : gmap Z Z) (w w' : World T) (a a' : t) :
  (forall h n, malloc h n <> 0 -> h !! malloc h n = None) ->
  allocator a = 0 ->
  heap_with_block h0 w a -> storage_step w a w' a' -> heap_with_block h0 w' a'.
Proof.
  intros Hfresh Ha Hb (_ & _ & Hk). unfold heap_with_block in *.
  rewrite Ha in Hk. cbn [Z.eqb] in Hk.
  destruct Hk as [[(Hh & _ & _) Hd]|[(nb & w1 & Hal & (Hh & _ & _))|[Hd (Hh & _ & _)]]].
  - rewrite Hd, Hh. exact Hb.
  - rewrite allocate_heap in Hal by exact Ha.
    destruct (malloc (heap w) nb =? 0) eqn:Hp; [discriminate|].
    apply Z.eqb_neq in Hp. inversion Hal as [[Hd Hw1]]; clear Hal.
    rewrite <- Hw1 in Hh.
    pose proof (Hfresh _ _ Hp) as Hnew. set (p := malloc (heap w) nb) in *.
    replace (p =? 0) with false by (symmetry; apply Z.eqb_neq; exact Hp).
    rewrite Hh. unfold std_free.
    destruct (data a =? 0) eqn:Hz; cbn [heap].
    + rewrite Hb in *. split; [exact Hnew|]. exists nb. reflexivity.
    + destruct Hb as (Hold & n0 & Hw). rewrite Hw in *.
      assert (Hne : p <> data a).
      { intros E. rewrite E, lookup_insert_eq in Hnew. discriminate. }
      rewrite lookup_insert_ne in Hnew by congruence.
      split; [exact Hnew|]. exists nb.
      rewrite delete_insert_ne by congruence.
      rewrite delete_insert_id by exact Hold. reflexivity.
  - rewrite Hd. cbn [Z.eqb]. rewrite Hh. unfold std_free.
    destruct (data a =? 0); cbn [heap]; [exact Hb|].
    destruct Hb as (Hold & n0 & Hw). rewrite Hw.
    apply delete_insert_id. exact Hold.
Qed.

Lemma run_ops_heap_block (h0 : gmap Z Z) (os : list op) :
  (forall h n, malloc h n <> 0 -> h !! malloc h n = None) ->
  forall (w w' : World T) (a a' : t),
    allocator a = 0 -> heap_with_block h0 w a ->
    run_ops os w a = Some (w', a') ->
    allocator a' = 0 /\ heap_with_block h0 w' a'
    /\ arenas w' = arenas w /\ bytes w' = bytes w.
Proof.
  intros Hfresh. induction os as [|o os IH]; intros w w' a a' Ha Hb H; cbn [run_ops] in H.
  - inversion H; subst. auto.
  - destruct (run_op o w a) as [r w1 a1| |] eqn:Ho; try discriminate.
    apply run_op_step in Ho.
    pose proof (storage_step_heap_block h0 _ _ _ _ Hfresh Ha Hb Ho) as Hb1.
    pose proof (storage_step_kept _ _ _ _ Ho) as (_ & Hk & _).
    destruct Ho as (Ha1 & _ & _). destruct (Hk Ha) as [Har Hby].
    destruct (IH w1 w' a1 a' ltac:(congruence) Hb1 H) as (? & ? & ? & ?).
    repeat split; try assumption; congruence.
Qed.

(** X19.  A heap-backed array leaks nothing: built by the constructor with
    an initial capacity, used through any sequence of member calls that
    return, and destroyed, it leaves the heap, the arenas and the raw bytes
    exactly as they were before the constructor.  ([malloc] is assumed to
    return addresses that are not live blocks.) *)
Theorem heap_array_lifetime (w w1 w2 : World T) (a1 a2 : t) (n : Z) (os : list op) :
  (forall h k, malloc h k <> 0 -> h !! malloc h k = None) ->
  ctor_capacity w n = Ret tt w1 a1 ->
  run_ops os w1 a1 = Some (w2, a2) ->
  same_storage w (fst (dtor w2 a2)) /\ snd (dtor w2 a2) = moved_from.
Proof.
  intros Hfresh Hc Hops. unfold ctor_capacity in Hc.
  apply assert_has_value_returns in Hc. apply reserve_step in Hc.
  assert (Hb0 : heap_with_block (heap w) w (init 0 false)) by reflexivity.
  pose proof (storage_step_heap_block (heap w) w w1 (init 0 false) a1 Hfresh eq_refl Hb0 Hc)
    as Hb1.
  pose proof (storage_step_kept w w1 (init 0 false) a1 Hc) as (_ & Hk & _).
  destruct (Hk eq_refl) as [Har1 Hby1]. destruct Hc as (Ha1 & _ & _).
  cbn [init allocator] in Ha1.
  destruct (run_ops_heap_block _ os Hfresh _ _ _ _ Ha1 Hb1 Hops)
    as (Ha2 & Hb2 & Har2 & Hby2).
  split; [|reflexivity].
  unfold dtor, release, destroy_all. cbn [fst]. rewrite Ha2. cbn [Z.eqb].
  set (w3 := for_range 0 (size a2) _ w2).
  assert (Hs : same_storage w2 w3)
    by (apply for_up_storage; intros; apply destroy_storage).
  destruct Hs as (Hh & Har & Hby).
  unfold heap_with_block in Hb2. unfold std_free, same_storage.
  destruct (data a2 =? 0); cbn [heap arenas bytes].
  - repeat split; congruence.
  - destruct Hb2 as (Hold & n0 & Hw). rewrite Hh, Hw.
    rewrite delete_insert_id by exact Hold. repeat split; congruence.
Qed.

End ArrayStorage.

(** An append to a full heap-backed array, which reallocates. *)
Lemma run_op_storage_kept_witness :
  DynArray.allocator (DynArray.mk 4112 3 4 0 false)
  = DynArray.allocator (DynArray.mk 4096 2 2 0 false)
  /\ DynArray.owns_allocator (DynArray.mk 4112 3 4 0 false)
     = DynArray.owns_allocator (DynArray.mk 4096 2 2 0 false)
  /\ DynArray.storage_kept (DynArray.mk 4096 2 2 0 false)
       (DynArray.mkWorld {[ 4096 := 8 ]} ∅ (fun _ => 0)
          (list_to_map [(4096, 10); (4100, 20)]))
       (DynArray.mkWorld {[ 4112 := 16 ]} ∅ (fun _ => 0)
          (list_to_map [(4112, 10); (4116, 20); (4120, 30)])).
Proof.
  assert (H : DynArray.run_op (ET := Samples.int_elem) (SA := Samples.bump_heap)
                (DynArray.PushBack (DynArray.Temp 30))
                (DynArray.mkWorld {[ 4096 := 8 ]} ∅ (fun _ => 0)
                   (list_to_map [(4096, 10); (4100, 20)]))
                (DynArray.mk 4096 2 2 0 false)
              = DynArray.Ret (Value tt)
                  (DynArray.mkWorld {[ 4112 := 16 ]} ∅ (fun _ => 0)
                     (list_to_map [(4112, 10); (4116, 20); (4120, 30)]))
                  (DynArray.mk 4112 3 4 0 false))
    by (vm_compute; reflexivity).
  exact (run_op_storage_kept (ET := Samples.int_elem) (SA := Samples.bump_heap)
           _ _ _ _ _ _ H).
Defined.

Lemma careful_heap_fresh (h : gmap Z Z) (n : Z) :
  DynArray.malloc (StdAllocator := Samples.careful_heap) h n <> 0 ->
  h !! DynArray.malloc (StdAllocator := Samples.careful_heap) h n = None.
Proof.
  intros _. cbn [DynArray.malloc Samples.careful_heap].
  set (f := fun (p n top : Z) => Z.max top (p + Z.max n 1)).
  assert (Htop : forall p k, h !! p = Some k -> p < map_fold f 4096 h).
  { apply (map_fold_weak_ind (fun r (m : gmap Z Z) => forall p k, m !! p = Some k -> p < r)).
    - intros p k H. rewrite lookup_empty in H. discriminate.
    - intros i x m r _ IH p k H. unfold f.
      destruct (Z.eq_dec p i) as [->|Hne].
      + lia.
      + rewrite lookup_insert_ne in H by congruence. specialize (IH p k H). lia. }
  destruct (h !! (16 * ((map_fold f 4096 h + 15) / 16))) as [k|] eqn:E; [|reflexivity].
  apply Htop in E.
  pose proof (Z.mul_div_le (map_fold f 4096 h + 15) 16 ltac:(lia)).
  pose proof (Z.mod_pos_bound (map_fold f 4096 h + 15) 16 ltac:(lia)).
  pose proof (Z.div_mod (map_fold f 4096 h + 15) 16 ltac:(lia)).
  lia.
Qed.

(** The constructor with capacity 2, three appends (the third one
    reallocates), a removal, a shrink, and the destructor. *)
Lemma heap_array_lifetime_witness :
  DynArray.same_storage Samples.empty_world
    (fst (DynArray.dtor (ET := Samples.int_elem)
            (DynArray.mkWorld {[ 4128 := 8 ]} ∅ (fun _ => 0)
               (list_to_map [(4128, 10); (4132, 20)]))
            (DynArray.mk 4128 2 2 0 false)))
  /\ snd (DynArray.dtor (ET := Samples.int_elem)
            (DynArray.mkWorld {[ 4128 := 8 ]} ∅ (fun _ => 0)
               (list_to_map [(4128, 10); (4132, 20)]))
            (DynArray.mk 4128 2 2 0 false))
     = DynArray.moved_from.
Proof.
  assert (H1 : DynArray.ctor_capacity (ET := Samples.int_elem) (SA := Samples.careful_heap)
                 Samples.empty_world 2
               = DynArray.Ret tt
                   (DynArray.mkWorld {[ 4096 := 8 ]} ∅ (fun _ => 0) ∅)
                   (DynArray.mk 4096 0 2 0 false))
    by (vm_compute; reflexivity).
  assert (H2 : DynArray.run_ops (ET := Samples.int_elem) (SA := Samples.careful_heap)
                 [DynArray.PushBack (DynArray.Temp 10); DynArray.PushBack (DynArray.Temp 20);
                  DynArray.PushBack (DynArray.Temp 30);
                  DynArray.PopBack; DynArray.ShrinkToFit]
                 (DynArray.mkWorld {[ 4096 := 8 ]} ∅ (fun _ => 0) ∅)
                 (DynArray.mk 4096 0 2 0 false)
               = Some (DynArray.mkWorld {[ 4128 := 8 ]} ∅ (fun _ => 0)
                         (list_to_map [(4128, 10); (4132, 20)]),
                       DynArray.mk 4128 2 2 0 false))
    by (vm_compute; reflexivity).
  exact (heap_array_lifetime (ET := Samples.int_elem) (SA := Samples.careful_heap)
           _ _ _ _ _ 2 _ careful_heap_fresh H1 H2).
Defined.

(** ** Construction from a list, move assignment, access *)

Section ArrayBuild.
Import DynArray.
Context {T : Type} {ET : ElemType T} {SA : StdAllocator}.

(** Appends into reserved room. *)
Lemma push_all_room (l : list T) :
  0 < sizeT ->
  forall (w : World T) (a : t),
    inv a -> size a + Z.of_nat (length l) <= capacity a ->
    exists w',
      push_all w a l = Ret tt w' (set_size a (size a + Z.of_nat (length l)))
      /\ same_storage w w'
      /\ (forall i, 0 <= i < size a -> objs w' !! slot a i = objs w !! slot a i)
      /\ map (fun i => objs w' !! slot a i) (seqZ (size a) (Z.of_nat (length l)))
         = map Some l.
Proof.
  intros Hsz. induction l as [|x l IH]; intros w a Hi Hroom.
  - exists w. cbn [push_all length]. split.
    { f_equal. destruct a; unfold set_size; cbn. f_equal. lia. }
    split; [apply same_storage_refl|]. split; [reflexivity|reflexivity].
  - cbn [length] in *. rewrite Nat2Z.inj_succ in *.
    assert (Hlt : size a < capacity a) by lia.
    cbn [push_all]. rewrite push_back_with_room by exact Hlt.
    cbn [construct_from].
    assert (Hw : wrap (size a + 1) = size a + 1)
      by (apply wrap_small; unfold inv, is_size_t in *; lia).
    rewrite Hw.
    destruct (IH (construct w (slot a (size a)) x) (set_size a (size a + 1)))
      as (w' & Hp & Hs & Hfr & Hl).
    { unfold inv in *. cbn [set_size size capacity]. lia. }
    { cbn [set_size size capacity]. lia. }
    cbn [set_size size] in *. change (slot (set_size a (size a + 1))) with (slot a) in *.
    exists w'. split; [|split; [|split]].
    + rewrite Hp. f_equal. unfold set_size. cbn. f_equal. lia.
    + eapply same_storage_trans; [apply construct_storage|exact Hs].
    + intros i Hi1. rewrite Hfr by lia. unfold construct. cbn [objs].
      apply lookup_insert_ne. unfold slot. intros E.
      apply Z.add_reg_l, Z.mul_reg_r in E; lia.
    + unfold inv in Hi. rewrite seqZ_cons by lia. cbn [map]. f_equal.
      * rewrite Hfr by lia. unfold construct. cbn [objs]. apply lookup_insert_eq.
      * replace (Z.pred (Z.succ (Z.of_nat (length l)))) with (Z.of_nat (length l)) by lia.
        replace (Z.succ (size a)) with (size a + 1) by lia. exact Hl.
Qed.

(** X20.  The constructor from an initializer list builds an array on the
    heap whose size and capacity are the length of the list and whose
    elements are those of the list, in order; for the empty list it
    allocates nothing.  (The one allocation of a non-empty list is assumed
    to succeed.) *)
Theorem ctor_initializer_list_elements (w : World T) (l : list T) :
  0 < sizeT -> is_size_t (Z.of_nat (length l)) ->
  (l <> [] -> malloc (heap w) (wrap (sizeT * Z.of_nat (length l))) <> 0) ->
  exists w' a',
    ctor_initializer_list w l = Ret tt w' a'
    /\ size a' = Z.of_nat (length l) /\ capacity a' = Z.of_nat (length l)
    /\ allocator a' = 0
    /\ elements w' a' = map Some l
    /\ (l = [] -> a' = init 0 false /\ w' = w).
Proof.
  intros Hsz Hlen Hm. unfold ctor_initializer_list.
  destruct l as [|x l].
  { exists w, (init 0 false). cbn. repeat split. }
  set (l0 := x :: l) in *. set (n := Z.of_nat (length l0)) in *.
  assert (Hn : 0 < n) by (subst n l0; cbn [length]; lia).
  destruct (reserve_heap_success w (init 0 false) n eq_refl Hn (Hm ltac:(discriminate)))
    as (w1 & Hr & _).
  rewrite Hr. cbn [assert_has_value init allocator owns_allocator size].
  set (a1 := mk _ 0 n 0 false).
  destruct (push_all_room l0 Hsz w1 a1) as (w' & Hp & _ & _ & Hl).
  { unfold inv, is_size_t in *. subst a1. cbn [size capacity]. lia. }
  { subst a1. cbn [size capacity]. subst n. lia. }
  fold n in Hp, Hl. subst a1. cbn [size] in Hp, Hl. rewrite Z.add_0_l in Hp.
  eexists _, _. split; [exact Hp|]. cbn [set_size size capacity allocator].
  split; [reflexivity|]. split; [reflexivity|]. split; [reflexivity|].
  split; [|discriminate].
  rewrite elements_map. exact Hl.
Qed.

(** X21.  Move assignment from another array: [this] takes over the
    fields, hence the elements, of [other], which is left empty without
    storage; the former elements of [this] are destroyed and its former
    storage is released: the heap block is freed, an owned arena is deleted,
    an arena that is not owned is left alone.  (The elements of the two
    arrays are assumed not to overlap.) *)
Theorem move_assign_transfers (w : World T) (this other : t) :
  0 < sizeT -> 0 <= size this -> 0 <= size other ->
  apart (data this) (size this * sizeT) (data other) (size other * sizeT) ->
  snd (fst (move_assign false w this other)) = other
  /\ snd (move_assign false w this other) = moved_from
  /\ elements (fst (fst (move_assign false w this other))) other = elements w other
  /\ (forall i, 0 <= i < size this ->
        objs (fst (fst (move_assign false w this other))) !! slot this i = None)
  /\ bytes (fst (fst (move_assign false w this other))) = bytes w
  /\ heap (fst (fst (move_assign false w this other)))
     = (if (allocator this =? 0) && negb (data this =? 0)
        then delete (data this) (heap w) else heap w)
  /\ arenas (fst (fst (move_assign false w this other)))
     = (if negb (allocator this =? 0) && owns_allocator this
        then delete (allocator this) (arenas w) else arenas w).
Proof.
  intros Hsz Hn Hm Hap. unfold move_assign, clear, release, destroy_all.
  cbn [fst snd set_size allocator data owns_allocator].
  set (w0 := for_range 0 (size this) _ w).
  assert (Hs : same_storage w w0)
    by (apply for_up_storage; intros; apply destroy_storage).
  destruct Hs as (Hh & Har & Hb).
  assert (Hobjs : objs (if allocator this =? 0 then std_free w0 (data this)
                        else if owns_allocator this
                             then mkWorld (heap w0) (delete (allocator this) (arenas w0))
                                    (bytes w0) (objs w0)
                             else w0) = objs w0).
  { destruct (allocator this =? 0); [apply std_free_objs|].
    destruct (owns_allocator this); reflexivity. }
  split; [reflexivity|]. split; [reflexivity|]. split; [|split; [|split; [|split]]].
  - apply elements_ext; [reflexivity|]. intros i Hi. rewrite Hobjs.
    subst w0. unfold for_range, slot. apply destroy_loop_frame.
    intros j Hj. unfold apart in Hap. nia.
  - intros i Hi. rewrite Hobjs. subst w0. unfold for_range, slot.
    apply destroy_loop_lookup; [exact Hsz|lia].
  - unfold std_free.
    destruct (allocator this =? 0); [destruct (data this =? 0)|destruct (owns_allocator this)];
      cbn [bytes]; congruence.
  - unfold std_free.
    destruct (allocator this =? 0); [destruct (data this =? 0)|destruct (owns_allocator this)];
      cbn [heap negb andb]; congruence.
  - unfold std_free.
    destruct (allocator this =? 0); [destruct (data this =? 0)|destruct (owns_allocator this)];
      cbn [arenas negb andb]; congruence.
Qed.

(** X22.  Element access on an array with [size <= capacity]: [at(index)]
    and [operator[]] succeed exactly for [index < size] and then refer to the
    same slot, which lies between [begin()] and [end()]; [front()] and
    [back()] fail with [EmptyArray] on an empty array, where [at(0)] fails
    with [OutOfRange], and otherwise refer to the slots of [at(0)] and
    [at(size - 1)]. *)
Theorem access_consistent (a : t) (index : Z) :
  0 < sizeT -> inv a -> is_size_t index ->
  (index < size a ->
     at_ a index = Value (slot a index) /\ subscript a index = Some (slot a index)
     /\ begin a <= slot a index /\ slot a index + sizeT <= end_ a)
  /\ (size a <= index ->
     at_ a index = Unexpected OutOfRange /\ subscript a index = None)
  /\ (size a = 0 ->
     front a = Unexpected EmptyArray /\ back a = Unexpected EmptyArray)
  /\ (0 < size a -> front a = at_ a 0 /\ back a = at_ a (size a - 1)).
Proof.
  intros Hsz Hi Hidx. unfold inv, is_size_t in *.
  unfold at_, subscript, front, back, empty, begin, end_, slot.
  split; [|split; [|split]].
  - intros H. replace (size a <=? index) with false by (symmetry; apply Z.leb_gt; lia).
    repeat split; nia.
  - intros H. replace (size a <=? index) with true by (symmetry; apply Z.leb_le; lia).
    split; reflexivity.
  - intros H. rewrite H. split; reflexivity.
  - intros H. replace (size a =? 0) with false by (symmetry; apply Z.eqb_neq; lia).
    replace (size a <=? 0) with false by (symmetry; apply Z.leb_gt; lia).
    replace (size a <=? size a - 1) with false by (symmetry; apply Z.leb_gt; lia).
    rewrite wrap_small by (unfold is_size_t; lia). split; reflexivity.
Qed.

End ArrayBuild.

(** The array built from [{10, 20, 30}]. *)
Lemma ctor_initializer_list_elements_witness :
  exists w' a',
    DynArray.ctor_initializer_list (ET := Samples.int_elem) (SA := Samples.bump_heap)
      Samples.empty_world [10; 20; 30]
    = DynArray.Ret tt w' a'
    /\ DynArray.size a' = 3 /\ DynArray.capacity a' = 3
    /\ DynArray.elements (ET := Samples.int_elem) w' a' = [Some 10; Some 20; Some 30].
Proof.
  destruct (ctor_initializer_list_elements (ET := Samples.int_elem)
              (SA := Samples.bump_heap) Samples.empty_world [10; 20; 30])
    as (w' & a' & H1 & H2 & H3 & _ & H4 & _).
  - reflexivity.
  - unfold is_size_t, SIZE_MOD, SIZE_BITS. cbn. lia.
  - intros _. vm_compute. discriminate.
  - exists w', a'. repeat split; assumption.
Defined.

(** [[1]] at 4096 is assigned from [[10, 20]] at 4112, both on the heap. *)
Lemma move_assign_transfers_witness :
  snd (fst (DynArray.move_assign (ET := Samples.int_elem) false
              (DynArray.mkWorld (<[ 4112 := 8 ]> {[ 4096 := 8 ]}) ∅ (fun _ => 0)
                 (list_to_map [(4096, 1); (4112, 10); (4116, 20)]))
              (DynArray.mk 4096 1 2 0 false) (DynArray.mk 4112 2 2 0 false)))
  = DynArray.mk 4112 2 2 0 false
  /\ DynArray.elements (ET := Samples.int_elem)
       (fst (fst (DynArray.move_assign (ET := Samples.int_elem) false
              (DynArray.mkWorld (<[ 4112 := 8 ]> {[ 4096 := 8 ]}) ∅ (fun _ => 0)
                 (list_to_map [(4096, 1); (4112, 10); (4116, 20)]))
              (DynArray.mk 4096 1 2 0 false) (DynArray.mk 4112 2 2 0 false))))
       (DynArray.mk 4112 2 2 0 false)
     = [Some 10; Some 20]
  /\ DynArray.heap
       (fst (fst (DynArray.move_assign (ET := Samples.int_elem) false
              (DynArray.mkWorld (<[ 4112 := 8 ]> {[ 4096 := 8 ]}) ∅ (fun _ => 0)
                 (list_to_map [(4096, 1); (4112, 10); (4116, 20)]))
              (DynArray.mk 4096 1 2 0 false) (DynArray.mk 4112 2 2 0 false))))
     = delete 4096 (<[ 4112 := 8 ]> {[ 4096 := 8 ]}).
Proof.
  destruct (move_assign_transfers (ET := Samples.int_elem)
              (DynArray.mkWorld (<[ 4112 := 8 ]> {[ 4096 := 8 ]}) ∅ (fun _ => 0)
                 (list_to_map [(4096, 1); (4112, 10); (4116, 20)]))
              (DynArray.mk 4096 1 2 0 false) (DynArray.mk 4112 2 2 0 false))
    as (H1 & _ & H2 & _ & _ & H3 & _).
  - reflexivity.
  - cbn. lia.
  - cbn. lia.
  - left. cbn. lia.
  - split; [exact H1|]. split; [exact H2|exact H3].
Defined.

(** Index 1 of an array of three [int]s at 4096. *)
Lemma access_consistent_witness :
  DynArray.at_ (ET := Samples.int_elem) (DynArray.mk 4096 3 4 0 false) 1 = Value 4100
  /\ DynArray.subscript (ET := Samples.int_elem) (DynArray.mk 4096 3 4 0 false) 1
     = Some 4100
  /\ DynArray.back (ET := Samples.int_elem) (DynArray.mk 4096 3 4 0 false)
     = DynArray.at_ (ET := Samples.int_elem) (DynArray.mk 4096 3 4 0 false) (3 - 1).
Proof.
  destruct (access_consistent (ET := Samples.int_elem) (DynArray.mk 4096 3 4 0 false) 1)
    as (H1 & _ & _ & H2).
  - reflexivity.
  - unfold DynArray.inv, SIZE_MOD, SIZE_BITS. cbn. lia.
  - unfold is_size_t, SIZE_MOD, SIZE_BITS. lia.
  - destruct H1 as (Ha & Hs & _); [cbn; lia|].
    destruct H2 as (_ & Hb); [cbn; lia|].
    split; [exact Ha|]. split; [exact Hs|exact Hb].
Defined.

(** ** An array on an arena *)

Section ArrayOnArena.
Import DynArray.
Context {T : Type} {ET : ElemType T} {SA : StdAllocator}.

(** X23.  [reserve] beyond the capacity of an array that has an arena
    (whose buffer lies in the address space, for an [alignof(T)] that is a
    power of two and a byte count that does not overflow): the new storage is
    the first [alignof(T)]-aligned block after everything the arena has
    handed out; if [sizeof(T) * new_capacity] bytes fit in the buffer from
    there, the call succeeds, the array moves to that block and the arena
    advances past it, the heap being left alone; otherwise the call returns
    [OutOfMemory] and nothing changes. *)
Theorem arena_reserve (w : World T) (a : t) (n : Z) (ar : LinearAllocator.t) (k : Z) :
  allocator a <> 0 -> arenas w !! allocator a = Some ar ->
  LinearAllocator.placed ar ->
  0 <= LinearAllocator.curr_offset ar <= LinearAllocator.buf_len ar ->
  alignT = 2 ^ k -> 0 <= k < SIZE_BITS -> 0 <= sizeT ->
  0 <= n -> capacity a < n ->
  LinearAllocator.buf_len ar + 2 ^ k + sizeT * n <= SIZE_MOD ->
  let offset :=
    LinearAllocator.curr_offset ar
    + LinearAllocator.padding (LinearAllocator.buf ar + LinearAllocator.curr_offset ar)
        alignT in
  (offset + sizeT * n <= LinearAllocator.buf_len ar ->
     exists w',
       reserve w a n
       = Ret (Value tt) w'
           (mk (LinearAllocator.buf ar + offset) (size a) n (allocator a)
               (owns_allocator a))
       /\ arenas w'
          = <[allocator a :=
                LinearAllocator.mk (LinearAllocator.buf ar) (LinearAllocator.buf_len ar)
                  offset (offset + sizeT * n)]> (arenas w)
       /\ heap w' = heap w
       /\ (LinearAllocator.buf ar + offset) mod alignT = 0
       /\ LinearAllocator.buf ar + LinearAllocator.curr_offset ar
          <= LinearAllocator.buf ar + offset)
  /\ (LinearAllocator.buf_len ar < offset + sizeT * n ->
      reserve w a n = Ret (Unexpected OutOfMemory) w a).
Proof.
  intros Ha Har Hp Hc Hal Hk Hsz Hn Hcap Hno offset.
  assert (Hpow : 0 < 2 ^ k) by (apply Z.pow_pos_nonneg; lia).
  assert (Hbytes : wrap (sizeT * n) = sizeT * n).
  { apply wrap_small. unfold is_size_t. destruct Hp as (_ & Hl & _). nia. }
  assert (Hres : reserve w a n
                 = match allocate w a (sizeT * n) with
                   | AllocUndefined => Undefined
                   | AllocFailed w' => Ret (Unexpected OutOfMemory) w' a
                   | Allocated new_data w1 =>
                       Ret (Value tt) (move_elements a new_data w1)
                           (mk new_data (size a) n (allocator a) (owns_allocator a))
                   end).
  { unfold reserve.
    replace (n <=? capacity a) with false by (symmetry; apply Z.leb_gt; exact Hcap).
    rewrite Hbytes.
    replace (allocator a =? 0) with false by (symmetry; apply Z.eqb_neq; exact Ha).
    rewrite andb_false_r. reflexivity. }
  rewrite Hres, (allocate_arena w a (sizeT * n) ar Ha Har).
  pose proof (alloc_align_padded ar (bytes w) (sizeT * n) k Hp Hc Hk
                (Z.mul_nonneg_nonneg _ _ Hsz Hn) Hno)
    as Hpad.
  cbv zeta in Hpad. rewrite <- Hal in Hpad. fold offset in Hpad. rewrite Hpad.
  destruct (padding_spec (LinearAllocator.buf ar + LinearAllocator.curr_offset ar) k Hk)
    as [Hp1 Hp2].
  rewrite <- Hal in Hp1, Hp2.
  split.
  - intros Hfit.
    replace (offset + sizeT * n <=? LinearAllocator.buf_len ar) with true
      by (symmetry; apply Z.leb_le; exact Hfit).
    eexists. split; [reflexivity|].
    pose proof (move_elements_storage a (LinearAllocator.buf ar + offset)
                  (mkWorld (heap w)
                     (<[allocator a :=
                          LinearAllocator.mk (LinearAllocator.buf ar)
                            (LinearAllocator.buf_len ar) offset (offset + sizeT * n)]>
                        (arenas w))
                     (memset (bytes w) (LinearAllocator.buf ar + offset) 0 (sizeT * n))
                     (objs w))) as (Hh & Hars & _).
    cbn [heap arenas] in Hh, Hars.
    split; [exact Hars|]. split; [exact Hh|].
    split; [|unfold offset; lia].
    unfold offset. rewrite Z.add_assoc. exact Hp2.
  - intros Hfull.
    replace (offset + sizeT * n <=? LinearAllocator.buf_len ar) with false
      by (symmetry; apply Z.leb_gt; exact Hfull).
    rewrite insert_id by exact Har. destruct w; reflexivity.
Qed.

End ArrayOnArena.

(** An empty [int] array on a fresh arena of 64 bytes at 8192 reserves room
    for four elements. *)
Lemma arena_reserve_witness :
  exists w',
    DynArray.reserve (ET := Samples.int_elem) (SA := Samples.bump_heap)
      (DynArray.mkWorld ∅ {[ 1 := LinearAllocator.mk 8192 64 0 0 ]} (fun _ => 0) ∅)
      (DynArray.init 1 false) 4
    = DynArray.Ret (Value tt) w' (DynArray.mk 8192 0 4 1 false)
    /\ DynArray.arenas w' = <[ 1 := LinearAllocator.mk 8192 64 0 16 ]>
                              {[ 1 := LinearAllocator.mk 8192 64 0 0 ]}
    /\ DynArray.heap w' = ∅.
Proof.
  destruct (arena_reserve (ET := Samples.int_elem) (SA := Samples.bump_heap)
              (DynArray.mkWorld ∅ {[ 1 := LinearAllocator.mk 8192 64 0 0 ]} (fun _ => 0) ∅)
              (DynArray.init 1 false) 4 (LinearAllocator.mk 8192 64 0 0) 2) as [H _].
  - cbn. lia.
  - reflexivity.
  - unfold LinearAllocator.placed, is_size_t, SIZE_MOD, SIZE_BITS. cbn. lia.
  - cbn. lia.
  - reflexivity.
  - unfold SIZE_BITS. lia.
  - cbn. lia.
  - lia.
  - cbn. lia.
  - unfold SIZE_MOD, SIZE_BITS. cbn. lia.
  - destruct H as (w' & Hr & Har & Hh & _); [vm_compute; discriminate|].
    exists w'. split; [exact Hr|]. split; [exact Har|exact Hh].
Defined.

(** * Storage handed out by the allocators, and the round trip *)

Section StoredArrays.
Import DynArray.
Context {T : Type} {ET : ElemType T} {SA : StdAllocator}.


(** An array without storage is well stored: always without an arena, and
    with a well-formed one otherwise. *)
Lemma init_well_stored (w : World T) (al : Z) (own : bool) :
  (al <> 0 ->
   exists ar, arenas w !! al = Some ar
     /\ LinearAllocator.placed ar /\ LinearAllocator.inv ar
     /\ LinearAllocator.buf_len ar <= 2 ^ 62) ->
  well_stored w (init al own).
Proof.
  intros H. unfold well_stored. cbn [init allocator data capacity].
  destruct (al =? 0) eqn:Hz; [left; auto|].
  apply Z.eqb_neq in Hz. destruct (H Hz) as (ar & Har & Hp & Hi & Hl).
  exists ar. repeat split; try assumption; try apply Hp; try apply Hi. left. auto.
Qed.

Lemma reserve_grow_eq (w : World T) (a : t) (n : Z) :
  capacity a < n ->
  reserve w a n
  = match allocate w a (wrap (sizeT * n)) with
    | AllocUndefined => Undefined
    | AllocFailed w' => Ret (Unexpected OutOfMemory) w' a
    | Allocated new_data w1 =>
        Ret (Value tt)
            (if negb (data a =? 0) && (allocator a =? 0)
             then std_free (move_elements a new_data w1) (data a)
             else move_elements a new_data w1)
            (mk new_data (size a) n (allocator a) (owns_allocator a))
    end.
Proof.
  intros H. unfold reserve.
  replace (n <=? capacity a) with false by (symmetry; apply Z.leb_gt; exact H).
  reflexivity.
Qed.

(** The block an allocation returns: it holds what was asked for, and it
    shares no address with the storage the array had. *)
Lemma allocate_well_stored (w w1 w' : World T) (a a' : t) (nbytes p : Z) :
  alignT_pow2 -> malloc_disjoint -> well_stored w a ->
  0 < nbytes <= 2 ^ 62 ->
  allocate w a nbytes = Allocated p w1 ->
  same_storage (if allocator a =? 0 then std_free w1 (data a) else w1) w' ->
  data a' = p -> allocator a' = allocator a ->
  capacity a' * sizeT <= nbytes ->
  well_stored w' a'
  /\ (forall len, 0 <= len -> len <= capacity a * sizeT -> len <= nbytes ->
        apart p len (data a) len).
Proof.
  intros (k & Hk & Hal) Hmal Hws Hnb Halloc (Hh & Har & _) Hd Ha Hc.
  unfold well_stored in *. rewrite Ha, Hd.
  destruct (allocator a =? 0) eqn:Hz.
  - apply Z.eqb_eq in Hz. rewrite allocate_heap in Halloc by exact Hz.
    destruct (malloc (heap w) nbytes =? 0) eqn:Hp0; [discriminate|].
    apply Z.eqb_neq in Hp0.
    pose proof (Hmal (heap w) nbytes Hp0) as Hdis.
    injection Halloc as Hp Hw1. subst p w1.
    set (p := malloc (heap w) nbytes) in *. unfold std_free in Hh.
    destruct (data a =? 0) eqn:Hd0; cbn [heap] in Hh.
    + split.
      * right. exists nbytes. rewrite Hh, lookup_insert_eq. repeat split; lia.
      * intros len Hl1 Hl2 Hl3. destruct Hws as [[_ Hc0]|(nb0 & Hb0 & Hpos & Hge)].
        { unfold apart. rewrite Hc0 in Hl2. lia. }
        { specialize (Hdis _ _ Hb0). unfold apart in *. lia. }
    + apply Z.eqb_neq in Hd0.
      destruct Hws as [[Hd1 _]|(nb0 & Hb0 & Hpos & Hge)]; [contradiction|].
      specialize (Hdis _ _ Hb0).
      split.
      * right. exists nbytes. rewrite Hh.
        rewrite lookup_delete_ne by (unfold apart in Hdis; lia).
        rewrite lookup_insert_eq. repeat split; lia.
      * intros len Hl1 Hl2 Hl3. unfold apart in *. lia.
  - apply Z.eqb_neq in Hz.
    destruct Hws as (ar & Hlook & Hpl & Hinv & Hlen & Hblock).
    rewrite (allocate_arena w a nbytes ar Hz Hlook) in Halloc.
    assert (Hpow : 0 < 2 ^ k <= 2 ^ 62).
    { split; [apply Z.pow_pos_nonneg; lia|]. apply Z.pow_le_mono_r; lia. }
    assert (Hno : LinearAllocator.buf_len ar + 2 ^ k + nbytes <= SIZE_MOD)
      by (unfold SIZE_MOD, SIZE_BITS; lia).
    pose proof (alloc_align_padded ar (bytes w) nbytes k Hpl
                  ltac:(unfold LinearAllocator.inv in Hinv; lia)
                  ltac:(unfold SIZE_BITS; lia) ltac:(lia) Hno) as Hpad.
    cbv zeta in Hpad. rewrite <- Hal in Hpad. rewrite Hpad in Halloc.
    destruct (padding_spec (LinearAllocator.buf ar + LinearAllocator.curr_offset ar) k
                ltac:(unfold SIZE_BITS; lia)) as [Hp1 _].
    rewrite <- Hal in Hp1.
    set (offset := LinearAllocator.curr_offset ar
                   + LinearAllocator.padding
                       (LinearAllocator.buf ar + LinearAllocator.curr_offset ar) alignT)
      in *.
    destruct (offset + nbytes <=? LinearAllocator.buf_len ar) eqn:Hfit; [|discriminate].
    apply Z.leb_le in Hfit. injection Halloc as Hp Hw1. subst p w1.
    cbn [arenas] in Har.
    unfold LinearAllocator.inv in Hinv.
    split.
    + eexists. rewrite Har, lookup_insert_eq. split; [reflexivity|].
      split; [exact Hpl|].
      split; [unfold LinearAllocator.inv; cbn; unfold offset; lia|].
      split; [exact Hlen|]. right. cbn. unfold offset in *. lia.
    + intros len Hl1 Hl2 Hl3. unfold apart.
      destruct Hblock as [[_ Hc0]|[Hb1 Hb2]].
      * rewrite Hc0 in Hl2. lia.
      * right. unfold offset in *. lia.
Qed.

(** [reserve] keeps the array well stored, and the storage it moves the
    elements to is apart from the one they were in. *)
Lemma reserve_well_stored (w w' : World T) (a a' : t) (n : Z) r :
  0 < sizeT -> alignT_pow2 -> malloc_disjoint -> inv a -> well_stored w a ->
  reserve w a n = Ret r w' a' -> capacity a' * sizeT <= 2 ^ 62 ->
  well_stored w' a'
  /\ (capacity a' = capacity a
      \/ apart (data a') (size a * sizeT) (data a) (size a * sizeT)).
Proof.
  intros Hsz Hal Hmal Hi Hws Hres Hcap.
  destruct (Z_le_gt_dec n (capacity a)) as [Hle|Hgt].
  { rewrite reserve_noop in Hres by exact Hle. inversion Hres; subst. auto. }
  rewrite reserve_grow_eq in Hres by lia.
  destruct (allocate w a (wrap (sizeT * n))) as [p w1|w1|] eqn:Halloc;
    [| |discriminate].
  - inversion Hres; subst r w' a'; clear Hres. cbn [capacity data] in *.
    unfold inv in Hi.
    assert (Hbytes : wrap (sizeT * n) = sizeT * n)
      by (apply wrap_small; unfold is_size_t, SIZE_MOD, SIZE_BITS; nia).
    rewrite Hbytes in Halloc.
    assert (Hst : same_storage
                    (if allocator a =? 0 then std_free w1 (data a) else w1)
                    (if negb (data a =? 0) && (allocator a =? 0)
                     then std_free (move_elements a p w1) (data a)
                     else move_elements a p w1)).
    { pose proof (move_elements_storage a p w1) as (Hh & Har & Hb).
      unfold std_free.
      destruct (data a =? 0), (allocator a =? 0); cbn [negb andb];
        repeat split; cbn [heap arenas bytes]; congruence. }
    assert (Hnb : 0 < sizeT * n <= 2 ^ 62) by nia.
    assert (Hfits : capacity (mk p (size a) n (allocator a) (owns_allocator a)) * sizeT
                    <= sizeT * n) by (cbn [capacity]; lia).
    destruct (allocate_well_stored w w1 _ a
                (mk p (size a) n (allocator a) (owns_allocator a))
                (sizeT * n) p Hal Hmal Hws Hnb Halloc Hst eq_refl eq_refl Hfits)
      as [Hws' Hap].
    split; [exact Hws'|]. right. apply Hap; nia.
  - inversion Hres; subst r w' a'; clear Hres.
    apply allocate_failed_unchanged in Halloc. subst w1. auto.
Qed.





(** The constructors leave the array well stored: with an arena, when the
    arena they are given is well formed.  ([DynArray()], [DynArray(n)] and
    [DynArray(alloc, own)] are this one with the default capacity or without
    an arena.) *)
Lemma ctor_well_stored (w w' : World T) (a : t) (n al : Z) (own : bool) :
  0 < sizeT -> alignT_pow2 -> malloc_disjoint ->
  (al <> 0 ->
   exists ar, arenas w !! al = Some ar
     /\ LinearAllocator.placed ar /\ LinearAllocator.inv ar
     /\ LinearAllocator.buf_len ar <= 2 ^ 62) ->
  ctor_capacity_allocator w n al own = Ret tt w' a ->
  capacity a * sizeT <= 2 ^ 62 ->
  well_stored w' a.
Proof.
  intros Hsz Hal Hmal Har H Hcap. unfold ctor_capacity_allocator in H.
  apply assert_has_value_returns in H.
  eapply reserve_well_stored; try eassumption.
  - apply init_inv.
  - apply init_well_stored. exact Har.
Qed.


End StoredArrays.


